(** * BrainPy connectivity generators: [brainpy/connect/random_conn.py]

    A shallow embedding of the random connectors ([FixedProb], [FixedPreNum],
    [FixedPostNum], [GaussianProb], [SmallWorld], [ScaleFreeBA], [ProbDist])
    and the properties their build functions have.

    Conventions.
    - Python exceptions are values of [exn]; a build function returns an
      [outcome]: a value, a raised exception, or [Diverge] when a [while]
      loop of the source has not finished within the fuel it was given.
    - numpy floats are modelled by exact rationals ([Q]).  Uniform draws
      come from a [RandomState]: an arbitrary stream of rationals and a
      position in it.  Integer draws ([choice], [randint]) are derived from
      the next uniform draw, so every possible run of a generator is the
      run on some stream.
    - The module level objects [np.random] (numpy's global generator) and
      the generator numba keeps for jitted functions live in a [World],
      next to the connector's own [self.rng] and [self.seed]. *)

From Stdlib Require Import ZArith QArith Qround Qabs Qminmax Lia Bool.
From stdpp Require Import base list gmap sorting.

(** ** Exceptions and outcomes *)

Inductive exn : Set :=
| AssertionError
| ConnectorError
| IndexError
| TypeError
| ValueError
| NotImplementedError.

Inductive outcome (A : Type) : Type :=
| Ok (a : A)
| Raise (e : exn)
| Diverge.
Arguments Ok {A} a.
Arguments Raise {A} e.
Arguments Diverge {A}.

Definition obind {A B} (o : outcome A) (k : A -> outcome B) : outcome B :=
  match o with
  | Ok a => k a
  | Raise e => Raise e
  | Diverge => Diverge
  end.

(** ** The random generator *)

Record RandomState : Type := mkRandomState {
  src : nat -> Q;   (* the stream of uniform draws *)
  pos : nat         (* how many of them were consumed *)
}.

(** numpy documents [random()] as uniform over the half-open interval
    [[0, 1)]: 0 is a possible draw, 1 is not. *)
Definition unit_interval (s : RandomState) : Prop :=
  forall n, (0 <= src s n)%Q /\ (src s n < 1)%Q.

(** [rng.random()] *)
Definition random (s : RandomState) : Q * RandomState :=
  (src s (pos s), mkRandomState (src s) (S (pos s))).

(** [rng.random(n)]: n draws, in order *)
Fixpoint random_n (n : nat) (s : RandomState) : list Q * RandomState :=
  match n with
  | O => ([], s)
  | S n' =>
      let '(x, s1) := random s in
      let '(xs, s2) := random_n n' s1 in
      (x :: xs, s2)
  end.

(** [rng.choice(seq)] picks a position of [seq]; [len] is [len(seq)]. *)
Definition choice_index (len : nat) (s : RandomState) : nat * RandomState :=
  let '(u, s1) := random s in
  (Z.to_nat (Qfloor (u * inject_Z (Z.of_nat len))), s1).

(** [rng.randint(lo, hi)]: an integer of [[lo, hi)] *)
Definition randint (lo hi : Z) (s : RandomState) : Z * RandomState :=
  let '(u, s1) := random s in
  ((lo + Qfloor (u * inject_Z (hi - lo)))%Z, s1).

(** ** The world a connector runs in *)

Record World : Type := mkWorld {
  self_seed : Z;                 (* self.seed *)
  self_rng : RandomState;        (* self.rng *)
  np_random : RandomState;       (* numpy's global generator *)
  numba_random : RandomState     (* the generator of jitted code *)
}.

Inductive handle : Set := SelfRng | NpRandom | NumbaRandom.

Definition get_rng (h : handle) (w : World) : RandomState :=
  match h with
  | SelfRng => self_rng w
  | NpRandom => np_random w
  | NumbaRandom => numba_random w
  end.

Definition set_rng (h : handle) (s : RandomState) (w : World) : World :=
  match h with
  | SelfRng => mkWorld (self_seed w) s (np_random w) (numba_random w)
  | NpRandom => mkWorld (self_seed w) (self_rng w) s (numba_random w)
  | NumbaRandom => mkWorld (self_seed w) (self_rng w) (np_random w) s
  end.

Definition set_seed (z : Z) (w : World) : World :=
  mkWorld z (self_rng w) (np_random w) (numba_random w).

Definition M (A : Type) : Type := World -> outcome (A * World).

Definition ret {A} (a : A) : M A := fun w => Ok (a, w).
Definition raise {A} (e : exn) : M A := fun _ => Raise e.
Definition diverge {A} : M A := fun _ => Diverge.
Definition bind {A B} (c : M A) (k : A -> M B) : M B :=
  fun w => match c w with
           | Ok (a, w') => k a w'
           | Raise e => Raise e
           | Diverge => Diverge
           end.

Notation "'let*' x ':=' c 'in' k" := (bind c (fun x => k))
  (at level 10, x name, c at level 100, k at level 200).
Notation "'let*' ' p ':=' c 'in' k" := (bind c (fun x => match x with p => k end))
  (at level 10, p pattern, c at level 100, k at level 200).
Notation "'run' c 'in' k" := (bind c (fun _ => k))
  (at level 10, c at level 100, k at level 200).

(** Run a state-passing sampler on the generator behind a handle. *)
Definition with_rng {A} (h : handle) (f : RandomState -> A * RandomState) : M A :=
  fun w => let '(a, s') := f (get_rng h w) in Ok (a, set_rng h s' w).

Definition lift {A} (o : outcome A) : M A :=
  fun w => match o with
           | Ok a => Ok (a, w)
           | Raise e => Raise e
           | Diverge => Diverge
           end.

Definition value {A} (o : outcome (A * World)) : outcome A :=
  match o with
  | Ok (a, _) => Ok a
  | Raise e => Raise e
  | Diverge => Diverge
  end.

(** The build environment: [SUPPORT_NUMBA] (brainpy.tools.others, taken as a
    parameter: whether numba is installed), and the generator algorithm,
    that is, the stream each seed stands for. *)
Record Env : Type := mkEnv {
  SUPPORT_NUMBA : bool;
  seeded : Z -> RandomState      (* RandomState(seed) *)
}.

Definition Env_ok (E : Env) : Prop := forall z, unit_interval (seeded E z).

(** Modelled from the spec: [numba_seed] is defined in brainpy.tools.others,
    which is not among the sources read here.  The just-in-time backend is
    optional (spec, section 9) and keeps a generator of its own;
    [numba_seed(seed)] seeds that generator when the backend is installed
    and does nothing otherwise.  It never touches numpy's global one. *)
Definition numba_seed (E : Env) (z : Z) : M unit :=
  fun w => if SUPPORT_NUMBA E
           then Ok (tt, set_rng NumbaRandom (seeded E z) w)
           else Ok (tt, w).

(** [rng = np.random if SUPPORT_NUMBA else self.rng], read inside a function
    passed to [numba_jit]: under numba [np.random] is numba's generator. *)
Definition closure_rng (E : Env) : handle :=
  if SUPPORT_NUMBA E then NumbaRandom else SelfRng.

(** [np.random] named directly inside such a function. *)
Definition module_rng (E : Env) : handle :=
  if SUPPORT_NUMBA E then NumbaRandom else NpRandom.

(** [self.seed = self.rng.randint(1, int(1e7)); numba_seed(self.seed)] *)
Definition reseed (E : Env) : M unit :=
  let* z := with_rng SelfRng (randint 1 10000000) in
  run (fun w => Ok (tt, set_seed z w)) in
  numba_seed E z.

(** A freshly constructed connector with an explicit seed; [g] and [nb] are
    whatever the two global generators hold at that moment. *)
Definition fresh (E : Env) (seed : Z) (g nb : RandomState) : World :=
  mkWorld seed (seeded E seed) g nb.

(** ** Dense matrices and index arrays *)

Abbreviation mat := (list (list bool)).

Definition full (rows cols : nat) (b : bool) : mat :=
  replicate rows (replicate cols b).

(** [conn[i, j] = b]; numpy raises IndexError out of range. *)
Definition mat_set (i j : nat) (b : bool) (m : mat) : outcome mat :=
  match m !! i with
  | Some r => if decide (j < length r)%nat
              then Ok (<[i := <[j := b]> r]> m)
              else Raise IndexError
  | None => Raise IndexError
  end.

(** [conn[ii, jj] = b] with two index arrays of the same length *)
Fixpoint mat_set_pairs (ijs : list (nat * nat)) (b : bool) (m : mat) : outcome mat :=
  match ijs with
  | [] => Ok m
  | (i, j) :: rest => obind (mat_set i j b m) (mat_set_pairs rest b)
  end.

(** [np.where(p)[0]]: the positions holding True, ascending *)
Fixpoint where_from (k : nat) (p : list bool) : list nat :=
  match p with
  | [] => []
  | b :: p' => if b then k :: where_from (S k) p' else where_from (S k) p'
  end.
Definition np_where (p : list bool) : list nat := where_from 0 p.

(** [np.fill_diagonal(m, False)] *)
Fixpoint fill_diagonal_from (k : nat) (m : mat) : mat :=
  match m with
  | [] => []
  | r :: m' => <[k := false]> r :: fill_diagonal_from (S k) m'
  end.
Definition fill_diagonal (m : mat) : mat := fill_diagonal_from 0 m.

(** [np.concatenate(([0], count)).cumsum()] *)
Fixpoint cumsum_from (acc : nat) (l : list nat) : list nat :=
  match l with
  | [] => []
  | x :: l' => (acc + x)%nat :: cumsum_from (acc + x) l'
  end.
Definition indptr_of (count : list nat) : list nat := cumsum_from 0 (0%nat :: count).

(** The slice [post_ids[indptr[i]:indptr[i+1]]] of a CSR pair *)
Definition csr_row (ind : list nat) (indptr : list nat) (i : nat) : list nat :=
  let a := default 0%nat (indptr !! i) in
  let b := default 0%nat (indptr !! S i) in
  take (b - a) (drop a ind).

(** Float comparisons [x < y] and [x <= y] *)
Definition Qlt_bool (x y : Q) : bool := negb (Qle_bool y x).

(** [l[i] = x] on a numpy array, for [0 <= i]: IndexError out of range.
    (Compiled by numba the same store is unchecked; the Python meaning is
    the one modelled.) *)
Definition setitem {A} (i : nat) (x : A) (l : list A) : outcome (list A) :=
  if decide (i < length l)%nat then Ok (<[i := x]> l) else Raise IndexError.

(** [np.argsort(prob)]: the positions of [prob], by ascending value *)
Fixpoint insert_by (key : nat -> Q) (i : nat) (l : list nat) : list nat :=
  match l with
  | [] => [i]
  | j :: l' => if Qle_bool (key i) (key j) then i :: l else j :: insert_by key i l'
  end.

Definition argsort (prob : list Q) : list nat :=
  foldr (insert_by (fun i => default 0%Q (prob !! i))) [] (seq 0 (length prob)).

(** [rng.rand(rows, cols)]: a grid of draws, row by row *)
Fixpoint random_mat (rows cols : nat) (s : RandomState) : list (list Q) * RandomState :=
  match rows with
  | O => ([], s)
  | S rows' =>
      let '(r, s1) := random_n cols s in
      let '(rs, s2) := random_mat rows' cols s1 in
      (r :: rs, s2)
  end.

(** ** FixedProb *)

Module FixedProb.

Record t : Type := mk {
  prob : Q;
  pre_ratio : Q;
  include_self : bool;
  seed : Z
}.

(** [FixedProb.__init__]: [assert 0. <= prob <= 1.] *)
Definition init (prob pre_ratio : Q) (include_self : bool) (seed : Z) : outcome t :=
  if Qle_bool 0 prob && Qle_bool prob 1
  then Ok (mk prob pre_ratio include_self seed)
  else Raise AssertionError.

(** The inner [f_connect(pre_i, num_post)] of [build_conn]; [None] is the
    implicit [return None] of the branch not taken. *)
Definition f_connect (c : t) (pre_i num_post : nat) (s : RandomState)
  : option (list nat) * RandomState :=
  let '(u, s1) := random s in
  if Qlt_bool u (pre_ratio c) then
    let '(xs, s2) := random_n num_post s1 in
    let p := map (fun x => Qle_bool x (prob c)) xs in
    let p := if negb (include_self c) && (pre_i <? num_post)%nat
             then <[pre_i := false]> p else p in
    (Some (np_where p), s2)
  else (None, s1).

(** The loop [for i in range(self.pre_num)] of [build_conn], from row [i]
    on; it yields the arrays appended to [ind] and the entries of [count]. *)
Fixpoint connect_rows (c : t) (todo i post_num : nat) (s : RandomState)
  : (list (list nat) * list nat) * RandomState :=
  match todo with
  | O => (([], []), s)
  | S todo' =>
      let '(posts, s1) := f_connect c i post_num s in
      let '((ind, count), s2) := connect_rows c todo' (S i) post_num s1 in
      match posts with
      | Some ps => ((ps :: ind, length ps :: count), s2)
      | None => ((ind, 0%nat :: count), s2)
      end
  end.

Definition csr_of_rows (r : list (list nat) * list nat) : list nat * list nat :=
  (concat (fst r), indptr_of (snd r)).

(** [FixedProb.build_conn]: returns ['csr', (ind, indptr)] *)
Definition build_conn (E : Env) (c : t) (pre_num post_num : nat)
  : M (list nat * list nat) :=
  if SUPPORT_NUMBA E then
    run numba_seed E (seed c) in
    let* r := with_rng NumbaRandom (connect_rows c pre_num 0 post_num) in
    ret (csr_of_rows r)
  else
    let '(r, _) := connect_rows c pre_num 0 post_num (seeded E (seed c)) in
    ret (csr_of_rows r).

(** [FixedProb.build_mat] *)
Definition build_mat (c : t) (pre_num post_num : nat) : M mat :=
  let* pre_draws := with_rng SelfRng (random_n pre_num) in
  let pre_state := map (fun x => Qlt_bool x (pre_ratio c)) pre_draws in
  let* draws := with_rng SelfRng (random_mat pre_num post_num) in
  let m := zip_with (fun r st => map (fun x => Qlt_bool x (prob c) && st) r)
                    draws pre_state in
  ret (if include_self c then m else fill_diagonal m).

End FixedProb.

(** The number of edges of a CSR pair, and of a dense matrix *)
Definition csr_edges (r : list nat * list nat) : nat := length (fst r).
Definition count_true (r : list bool) : nat := length (filter (fun b => b = true) r).
Definition mat_edges (m : mat) : nat := sum_list (map count_true m).

(** ** FixedNum, FixedPreNum, FixedPostNum *)

Module FixedNum.

(** [num] is an int (a count) or a float (a fraction). *)
Inductive num_t : Type :=
| NumInt (k : Z)
| NumFloat (q : Q)
| NumOther.

Record t : Type := mk {
  num : num_t;
  include_self : bool;
  seed : Z
}.

(** [FixedNum.__init__] *)
Definition init (num : num_t) (include_self : bool) (seed : Z) : outcome t :=
  match num with
  | NumInt k =>
      if (0 <=? k)%Z then Ok (mk num include_self seed) else Raise AssertionError
  | NumFloat q =>
      if Qle_bool 0 q && Qle_bool q 1 then Ok (mk num include_self seed)
      else Raise AssertionError
  | NumOther => Raise ConnectorError
  end.

(** [_fixed_num_prob(num_need, num_total, i)] *)
Definition _fixed_num_prob (c : t) (num_need num_total i : nat) (s : RandomState)
  : outcome (list nat) * RandomState :=
  let '(prob, s1) := random_n num_total s in
  let marked :=
    if negb (include_self c) && (i <=? num_total)%nat
    then setitem i 1%Q prob
    else Ok prob in
  (obind marked (fun prob' => Ok (take num_need (argsort prob'))), s1).

(** [self._connect(...)]: the sampler runs on the closure's generator. *)
Definition _connect (E : Env) (c : t) (num_need num_total i : nat) : M (list nat) :=
  let* r := with_rng (closure_rng E) (_fixed_num_prob c num_need num_total i) in
  lift r.

(** [for i in range(n): ids.append(self._connect(num, num_total, i))] *)
Fixpoint connect_all (E : Env) (c : t) (num_need num_total todo i : nat)
  : M (list (list nat)) :=
  match todo with
  | O => ret []
  | S todo' =>
      let* ids := _connect E c num_need num_total i in
      let* rest := connect_all E c num_need num_total todo' (S i) in
      ret (ids :: rest)
  end.

(** The check that opens both [build_conn]s; [total] is the size of the
    population drawn from. *)
Definition check_num (c : t) (total : nat) : outcome nat :=
  match num c with
  | NumInt k =>
      if (0 <=? k)%Z && (k <=? Z.of_nat total)%Z then Ok (Z.to_nat k)
      else Raise AssertionError
  | NumFloat q =>
      if Qle_bool 0 q && Qle_bool q 1
      then Ok (Z.to_nat (Qfloor (inject_Z (Z.of_nat total) * q)))
      else Raise AssertionError
  | NumOther => Raise TypeError
  end.

(** [np.concatenate(arrays)]: ValueError on an empty list of arrays *)
Definition np_concatenate (arrays : list (list nat)) : outcome (list nat) :=
  match arrays with
  | [] => Raise ValueError
  | _ => Ok (concat arrays)
  end.

End FixedNum.

Module FixedPreNum.

(** [FixedPreNum.build_conn]: returns ['ij', (pre_ids, post_ids)] *)
Definition build_conn (E : Env) (c : FixedNum.t) (pre_num post_num : nat)
  : M (list nat * list nat) :=
  let* num := lift (FixedNum.check_num c pre_num) in
  run reseed E in
  let* pre_ids := FixedNum.connect_all E c num pre_num post_num 0 in
  let post_ids := concat (map (fun j => replicate num j) (seq 0 post_num)) in
  ret (concat pre_ids, post_ids).

End FixedPreNum.

Module FixedPostNum.

(** [FixedPostNum.build_conn]: returns ['csr', (post_ids, indptr)] *)
Definition build_conn (E : Env) (c : FixedNum.t) (pre_num post_num : nat)
  : M (list nat * list nat) :=
  let* num := lift (FixedNum.check_num c post_num) in
  run reseed E in
  let* post_ids := FixedNum.connect_all E c num post_num pre_num 0 in
  let* post_ids := lift (FixedNum.np_concatenate post_ids) in
  ret (post_ids, indptr_of (replicate pre_num num)).

End FixedPostNum.

(** ** GaussianProb *)

(** The elementwise numeric primitives of numpy that have no rational
    counterpart are taken from the array backend as they are. *)
Record Numeric : Type := mkNumeric {
  np_exp : Q -> Q;
  np_sqrt : Q -> Q
}.

Definition prod_list (l : list nat) : nat := foldr Nat.mul 1%nat l.

Definition Qabs_diff (x y : Q) : Q := Qabs (x - y).

(** Row-major position to index tuple *)
Fixpoint unravel (shape : list nat) (j : nat) : list nat :=
  match shape with
  | [] => []
  | d :: rest => ((j / prod_list rest) mod d)%nat :: unravel rest j
  end.

(** A population size is an int or a tuple of ints. *)
Inductive size_t : Type :=
| SizeInt (n : nat)
| SizeTuple (l : list nat).

Definition size_num (sz : size_t) : nat :=
  match sz with
  | SizeInt n => n
  | SizeTuple l => prod_list l
  end.

#[global] Instance size_t_eq_dec : EqDecision size_t.
Proof. solve_decision. Defined.

Module GaussianProb.

(** What [encoding_values] can be: None, a sequence that starts with a
    number, a sequence that starts with a sequence, or anything else. *)
Inductive encoding : Type :=
| EncNone
| EncRange (vs : list Q)
| EncRanges (vss : list (list Q))
| EncOther.

Record t : Type := mk {
  sigma : Q;
  encoding_values : encoding;
  normalize : bool;
  include_self : bool;
  periodic_boundary : bool;
  seed : Z
}.

(** [for v in self.encoding_values: assert ...; assert len(v) == 2] *)
Fixpoint check_ranges (vss : list (list Q)) : outcome (list (Q * Q)) :=
  match vss with
  | [] => Ok []
  | v :: rest =>
      match v with
      | [] => Raise IndexError
      | [a; b] => obind (check_ranges rest) (fun r => Ok ((a, b) :: r))
      | _ => Raise AssertionError
      end
  end.

(** The first block of [build_conn]: the range each axis encodes *)
Definition value_ranges (c : t) (pre_size : list nat) : outcome (list (Q * Q)) :=
  match encoding_values c with
  | EncNone => Ok (map (fun s => (0%Q, inject_Z (Z.of_nat s))) pre_size)
  | EncRange [] => Raise ConnectorError
  | EncRange [a; b] =>
      if Qlt_bool a b then Ok (map (fun _ => (a, b)) pre_size)
      else Raise AssertionError
  | EncRange _ => Raise AssertionError
  | EncRanges [] => Raise ConnectorError
  | EncRanges vss =>
      if decide (length vss = length pre_size) then check_ranges vss
      else Raise ConnectorError
  | EncOther => Raise ConnectorError
  end.

(** [np.linspace(a, b, n + 1)[:n]] *)
Definition linspace_cut (ab : Q * Q) (n : nat) : list Q :=
  map (fun k => (fst ab + inject_Z (Z.of_nat k) * (snd ab - fst ab)
                          / inject_Z (Z.of_nat n))%Q)
      (seq 0 n).

(** The coordinate of node [i]: repeated [divmod] by the leading sizes *)
Fixpoint i_coordinate (pre_size : list nat) (i : nat) : list nat :=
  match pre_size with
  | [] => [i]
  | [_] => [i]
  | s :: rest => (i mod s)%nat :: i_coordinate rest (i / s)%nat
  end.

(** [np.meshgrid] with its default 'xy' indexing lays the grids out with
    the first two axes exchanged. *)
Definition xy {A} (l : list A) : list A :=
  match l with
  | a :: b :: rest => b :: a :: rest
  | _ => l
  end.

(** The coordinate held by column [j] of [post_values] *)
Definition post_coordinate (pre_size : list nat) (j : nat) : list nat :=
  xy (unravel (xy pre_size) j).

Definition axis_value (values : list (list Q)) (k c : nat) : Q :=
  default 0%Q (default [] (values !! k) !! c).

(** One entry of [exp_dists] *)
Definition exp_dist (F : Numeric) (c : t) (values : list (list Q))
    (value_sizes : list Q) (ic pc : list nat) : Q :=
  let dists :=
    map (fun k =>
           let d := Qabs_diff (axis_value values k (default 0%nat (ic !! k)))
                              (axis_value values k (default 0%nat (pc !! k))) in
           let size := default 0%Q (value_sizes !! k) in
           if periodic_boundary c && Qlt_bool (size / 2) d
           then (size - d)%Q else d)
        (seq 0 (length values)) in
  let norm := np_sqrt F (foldr Qplus 0%Q (map (fun d => d * d)%Q dists)) in
  np_exp F (- ((norm / sigma c) * (norm / sigma c) / 2))%Q.

Definition mat_max (m : list (list Q)) : Q :=
  match concat m with
  | [] => 0%Q
  | x :: xs => foldr Qmax x xs
  end.

(** [prob_mat], the probability of each connection *)
Definition prob_mat (F : Numeric) (c : t) (pre_size : list nat)
    (ranges : list (Q * Q)) : list (list Q) :=
  let pre_num := prod_list pre_size in
  let values := zip_with linspace_cut ranges pre_size in
  let value_sizes := map (fun v => snd v - fst v)%Q ranges in
  let m := map (fun i =>
                  map (fun j => exp_dist F c values value_sizes
                                         (i_coordinate pre_size i)
                                         (post_coordinate pre_size j))
                      (seq 0 pre_num))
               (seq 0 pre_num) in
  if normalize c then map (map (fun x => x / mat_max m)%Q) m else m.

(** [GaussianProb.build_conn]: returns ['mat', conn_mat] *)
Definition build_conn (F : Numeric) (c : t) (pre_size : list nat) : M mat :=
  let* ranges := lift (value_ranges c pre_size) in
  let pre_num := prod_list pre_size in
  if decide (pre_size = [] \/ pre_num = 0%nat) then raise ValueError else
  let pm := prob_mat F c pre_size ranges in
  let* draws := with_rng SelfRng (random_mat pre_num pre_num) in
  let conn_mat := zip_with (zip_with (fun p u => Qle_bool u p)) pm draws in
  ret (if include_self c then conn_mat else fill_diagonal conn_mat).

End GaussianProb.

(** [rng.choice(a)] on the generator behind [h]: ValueError on an empty
    array.  A draw of the unit interval always lands inside [a]. *)
Definition rng_choice (h : handle) (a : list nat) : M nat :=
  match a with
  | [] => raise ValueError
  | _ =>
      let* k := with_rng h (choice_index (length a)) in
      match a !! k with
      | Some x => ret x
      | None => raise IndexError
      end
  end.

(** [conn[ii, jj] = b] in general: index arrays of equal length pair up, an
    array of length one is broadcast, anything else is a shape mismatch. *)
Definition broadcast2 (ii jj : list nat) : outcome (list (nat * nat)) :=
  if decide (length ii = length jj) then Ok (zip ii jj)
  else match ii, jj with
       | [i], _ => Ok (map (fun j => (i, j)) jj)
       | _, [j] => Ok (map (fun i => (i, j)) ii)
       | _, _ => Raise IndexError
       end.

Definition fancy_set (ii jj : list nat) (b : bool) (m : mat) : outcome mat :=
  obind (broadcast2 ii jj) (fun ijs => mat_set_pairs ijs b m).

(** ** SmallWorld *)

Module SmallWorld.

Record t : Type := mk {
  num_neighbor : Z;
  prob : Q;
  directed : bool;
  include_self : bool;
  seed : Z
}.

(** [while (not include_self) and w == i: w = rng.choice(non_connected)] *)
Fixpoint redraw (fuel : nat) (h : handle) (c : t) (i : nat)
    (non_connected : list nat) (w : nat) : M nat :=
  if negb (include_self c) && (w =? i)%nat then
    match fuel with
    | O => diverge
    | S fuel' =>
        let* w' := rng_choice h non_connected in
        redraw fuel' h c i non_connected w'
    end
  else ret w.

(** [_smallworld_rewire(i, all_j)]: a new target, or -1 *)
Definition _smallworld_rewire (fuel : nat) (h : handle) (c : t) (i : nat)
    (all_j : list bool) : M Z :=
  let* u := with_rng h random in
  if Qlt_bool u (prob c) then
    let non_connected := np_where (map negb all_j) in
    if (length non_connected <=? 1)%nat then ret (-1)%Z
    else
      let* w := rng_choice h non_connected in
      let* w := redraw fuel h c i non_connected w in
      ret (Z.of_nat w)
  else ret (-1)%Z.

(** [np.concatenate([nodes[j:], nodes[0:j]])] *)
Definition shifted (j : nat) (nodes : list nat) : list nat :=
  drop j nodes ++ take j nodes.

(** The first loop: connect each node to its k/2 neighbours on each side *)
Fixpoint lattice (js : list nat) (nodes : list nat) (conn : mat) : outcome mat :=
  match js with
  | [] => Ok conn
  | j :: js' =>
      let targets := shifted j nodes in
      obind (mat_set_pairs (zip nodes targets) true conn) (fun conn1 =>
      obind (mat_set_pairs (zip targets nodes) true conn1) (fun conn2 =>
      lattice js' nodes conn2))
  end.

(** The body of [for u, v in zip(nodes, targets)].  In the directed branch
    the source calls [self._connect(prob=self.prob, i=u, all_j=conn[u])],
    a keyword [_smallworld_rewire] does not take. *)
Definition rewire_edge (fuel : nat) (E : Env) (c : t) (u v : nat) (conn : mat)
  : M mat :=
  if directed c then raise TypeError
  else
    let* w := _smallworld_rewire fuel (closure_rng E) c u
                                 (default [] (conn !! u)) in
    if (w =? -1)%Z then ret conn
    else
      let w := Z.to_nat w in
      lift (obind (mat_set u v false conn) (fun c1 =>
            obind (mat_set v u false c1) (fun c2 =>
            obind (mat_set u w true c2) (fun c3 =>
            mat_set w u true c3)))).

Fixpoint rewire_nodes (fuel : nat) (E : Env) (c : t) (uvs : list (nat * nat))
    (conn : mat) : M mat :=
  match uvs with
  | [] => ret conn
  | (u, v) :: rest =>
      let* conn1 := rewire_edge fuel E c u v conn in
      rewire_nodes fuel E c rest conn1
  end.

(** The second loop: neighbours in order of distance, nodes in order *)
Fixpoint rewire (fuel : nat) (E : Env) (c : t) (js : list nat)
    (nodes : list nat) (conn : mat) : M mat :=
  match js with
  | [] => ret conn
  | j :: js' =>
      let* conn1 := rewire_nodes fuel E c (zip nodes (shifted j nodes)) conn in
      rewire fuel E c js' nodes conn1
  end.

Definition one_dim (sz : size_t) : bool :=
  match sz with
  | SizeInt _ => true
  | SizeTuple l => (length l =? 1)%nat
  end.

(** [SmallWorld.build_conn]: returns ['mat', conn] *)
Definition build_conn (fuel : nat) (E : Env) (c : t) (pre_size post_size : size_t)
  : M mat :=
  if decide (pre_size = post_size) then
    run reseed E in
    if one_dim pre_size then
      let num_node := size_num pre_size in
      if (Z.of_nat num_node <? num_neighbor c)%Z then raise ConnectorError
      else if (num_neighbor c =? Z.of_nat num_node)%Z
      then ret (full num_node num_node true)
      else
        let nodes := seq 0 num_node in
        let js := seq 1 (Z.to_nat (num_neighbor c / 2)) in
        let* conn := lift (lattice js nodes (full num_node num_node false)) in
        rewire fuel E c js nodes conn
    else raise ConnectorError
  else raise AssertionError.

End SmallWorld.

(** ** ScaleFreeBA *)

Module ScaleFreeBA.

Record t : Type := mk {
  m : Z;
  directed : bool;
  seed : Z
}.

(** [_random_subset(seq, m)]: draw from [seq] until [m] distinct values
    were seen; [targets] is the set built so far. *)
Fixpoint _random_subset (fuel : nat) (h : handle) (seq : list nat) (m : nat)
    (targets : gset nat) : M (gset nat) :=
  if (size targets <? m)%nat then
    match fuel with
    | O => diverge
    | S fuel' =>
        let* x := rng_choice h seq in
        _random_subset fuel' h seq m ({[x]} ∪ targets)
    end
  else ret targets.

(** The loop [while source < num_node]; [todo] is [num_node - source]. *)
Fixpoint grow (fuel todo : nat) (E : Env) (c : t) (m source : nat)
    (targets repeated_nodes : list nat) (conn : mat) : M mat :=
  match todo with
  | O => ret conn
  | S todo' =>
      let origins := replicate m source in
      let* conn1 := lift (fancy_set origins targets true conn) in
      let* conn2 := (if directed c then ret conn1
                     else lift (fancy_set targets origins true conn1)) in
      let repeated := repeated_nodes ++ targets ++ replicate m source in
      let* chosen := _random_subset fuel (closure_rng E) repeated m ∅ in
      grow fuel todo' E c m (S source) (elements chosen) repeated conn2
  end.

(** [ScaleFreeBA.build_conn]: returns ['mat', conn] *)
Definition build_conn (fuel : nat) (E : Env) (c : t) (pre_num post_num : nat)
  : M mat :=
  if decide (pre_num = post_num) then
    run reseed E in
    let num_node := pre_num in
    if (m c <? 1)%Z || (Z.of_nat num_node <=? m c)%Z then raise ConnectorError
    else
      let m := Z.to_nat (m c) in
      grow fuel (num_node - m) E c m m (seq 0 m) []
           (full num_node num_node false)
  else raise AssertionError.

End ScaleFreeBA.

(** Degrees in a dense matrix: row [i] holds the edges leaving [i], column
    [i] the edges entering it. *)
Definition out_degree (conn : mat) (i : nat) : nat :=
  count_true (default [] (conn !! i)).
Definition in_degree (conn : mat) (i : nat) : nat :=
  count_true (map (fun r => default false (r !! i)) conn).

(** ** ProbDist *)

(** [pos2ind(pos, size)] *)
Fixpoint pos2ind (pos size : list nat) : nat :=
  match pos, size with
  | p :: pos', _ :: size' => (p * prod_list size' + pos2ind pos' size')%nat
  | _, _ => 0%nat
  end.

(** The index tuples visited by nested [for] loops over [range(n)] for each
    [n] of [sizes], outermost first. *)
Fixpoint grid (sizes : list nat) : list (list nat) :=
  match sizes with
  | [] => [[]]
  | n :: rest => concat (map (fun i => map (cons i) (grid rest)) (seq 0 n))
  end.

Module ProbDist.

Record t : Type := mk {
  dist : Q;
  prob : Q;
  pre_ratio : Q;
  seed : Z;
  include_self : bool
}.

(** [normalized_pos]: the pre position rescaled, axis by axis, by
    [post_len / pre_len]. *)
Definition normalized_pos (pre_pos pre_size post_size : list nat) (n_dim : nat)
  : list Q :=
  map (fun i =>
         (inject_Z (Z.of_nat (default 0%nat (pre_pos !! i)))
          * inject_Z (Z.of_nat (default 0%nat (post_size !! i)))
          / inject_Z (Z.of_nat (default 0%nat (pre_size !! i))))%Q)
      (seq 0 n_dim).

(** [np.sum(np.abs(pre_pos - post_pos))] on integer positions *)
Definition manhattan (a b : list nat) : Z :=
  foldr Z.add 0%Z (zip_with (fun x y => Z.abs (Z.of_nat x - Z.of_nat y)) a b).

(** [np.sum(np.square(pre_pos - post_pos))] *)
Definition sum_square (a b : list nat) : Z :=
  foldr Z.add 0%Z
        (zip_with (fun x y => (Z.of_nat x - Z.of_nat y) * (Z.of_nat x - Z.of_nat y))%Z
                  a b).

(** The Manhattan distance of rational positions *)
Definition manhattan_Q (a b : list Q) : Q :=
  foldr Qplus 0%Q (zip_with Qabs_diff a b).

(** [np.sqrt(s) <= dist] for a sum of squares [s], decided exactly *)
Definition sqrt_le (s dist : Q) : bool :=
  Qle_bool 0 dist && Qle_bool s (dist * dist).

(** What the inner loops do at one post position: [within] is [d <= dist],
    [zero] is [d == 0.], the draw comes from the generator behind [h]. *)
Definition visit (c : t) (h : handle) (within zero : bool)
    (pre_pos post_pos pre_size post_size : list nat)
    (acc : list nat * list nat) : M (list nat * list nat) :=
  if within then
    if zero && negb (include_self c) then ret acc
    else
      let* u := with_rng h random in
      if Qle_bool u (prob c)
      then ret (fst acc ++ [pos2ind pre_pos pre_size],
                snd acc ++ [pos2ind post_pos post_size])
      else ret acc
  else ret acc.

Fixpoint scan (step : list nat -> list nat * list nat -> M (list nat * list nat))
    (posts : list (list nat)) (acc : list nat * list nat)
  : M (list nat * list nat) :=
  match posts with
  | [] => ret acc
  | p :: rest => let* acc1 := step p acc in scan step rest acc1
  end.

(** [_connect_1d]: Manhattan distance, every draw from [rng].  The source
    builds [normalized_pos] and measures from [pre_pos]. *)
Definition _connect_1d (E : Env) (c : t) (pre_pos pre_size post_size : list nat)
    (n_dim : nat) : M (list nat * list nat) :=
  let* u := with_rng (closure_rng E) random in
  if Qlt_bool u (pre_ratio c) then
    let normalized_pos := normalized_pos pre_pos pre_size post_size n_dim in
    scan (fun post_pos =>
            let d := manhattan pre_pos post_pos in
            visit c (closure_rng E)
                  (Qle_bool (inject_Z d) (dist c)) (d =? 0)%Z
                  pre_pos post_pos pre_size post_size)
         (grid (take 1 post_size)) ([], [])
  else ret ([], []).

(** [_connect_2d], [_connect_3d] and [_connect_4d] ([k] nested loops):
    Euclidean distance; the participation draw comes from [rng], the
    per-edge draw from [np.random]. *)
Definition _connect_nd (k : nat) (E : Env) (c : t)
    (pre_pos pre_size post_size : list nat) (n_dim : nat)
  : M (list nat * list nat) :=
  let* u := with_rng (closure_rng E) random in
  if Qlt_bool u (pre_ratio c) then
    let normalized_pos := normalized_pos pre_pos pre_size post_size n_dim in
    scan (fun post_pos =>
            let s := sum_square pre_pos post_pos in
            visit c (module_rng E)
                  (sqrt_le (inject_Z s) (dist c)) (s =? 0)%Z
                  pre_pos post_pos pre_size post_size)
         (grid (take k post_size)) ([], [])
  else ret ([], []).

(** [for i in range(size)]: the pre positions in row-major order *)
Fixpoint connect_all (f : list nat -> M (list nat * list nat))
    (pre_size : list nat) (todo i : nat) : M (list nat * list nat) :=
  match todo with
  | O => ret ([], [])
  | S todo' =>
      let* r := f (unravel pre_size i) in
      let* rest := connect_all f pre_size todo' (S i) in
      ret (fst r ++ fst rest, snd r ++ snd rest)
  end.

(** [ProbDist.build_conn]: returns ['ij', (pres, posts)] *)
Definition build_conn (E : Env) (c : t) (pre_size post_size : list nat)
  : M (list nat * list nat) :=
  if decide (length pre_size = length post_size) then
    run reseed E in
    let n_dim := length pre_size in
    let go f := connect_all (fun pre_pos => f pre_pos pre_size post_size n_dim)
                            pre_size (prod_list pre_size) 0 in
    match n_dim with
    | 1 => go (_connect_1d E c)
    | 2 => go (_connect_nd 2 E c)
    | 3 => go (_connect_nd 3 E c)
    | 4 => go (_connect_nd 4 E c)
    | _ => raise NotImplementedError
    end
  else raise ValueError.

End ProbDist.

(** ** A concrete generator, to run the builders on *)

Definition sample_stream (z : Z) (n : nat) : Q :=
  inject_Z ((z + 7 * Z.of_nat n * Z.of_nat n + 3 * Z.of_nat n) mod 16) / 16.

Definition sample_env (numba : bool) : Env :=
  mkEnv numba (fun z => mkRandomState (sample_stream z) 0).

Definition constant_rng (q : Q) : RandomState := mkRandomState (fun _ => q) 0.

Definition constant_env (numba : bool) (q : Q) : Env :=
  mkEnv numba (fun _ => constant_rng q).

(** Every generator of the world draws from the unit interval. *)
Definition World_ok (w : World) : Prop :=
  unit_interval (self_rng w) /\ unit_interval (np_random w)
  /\ unit_interval (numba_random w).

(** ** Predicates the statements use *)

(** The entry [m[i][j]], when it exists *)
Definition entry (m : mat) (i j : nat) : option bool :=
  match m !! i with
  | Some r => r !! j
  | None => None
  end.

(** [j] is one of [i-2, i-1, i+1, i+2] modulo [N] *)
Definition ring_neighbor (N i j : nat) : bool :=
  existsb (fun d => ((Z.of_nat i + d) mod Z.of_nat N =? Z.of_nat j)%Z)
          [-2; -1; 1; 2]%Z.

(** The ring lattice over [N] nodes, as a dense matrix *)
Definition ring_lattice (N : nat) : mat :=
  map (fun i => map (fun j => ring_neighbor N i j) (seq 0 N)) (seq 0 N).

(** A row of [k] distinct indices below [n] *)
Definition exact_row (k n : nat) (ids : list nat) : Prop :=
  length ids = k /\ NoDup ids /\ Forall (fun j => (j < n)%nat) ids.

(** A matrix with [rows] rows of [cols] entries *)
Definition has_shape {A} (rows cols : nat) (m : list (list A)) : Prop :=
  length m = rows /\ Forall (fun r => length r = cols) m.

(** Rational stand-ins for [np.exp] and [np.sqrt], to run GaussianProb on *)
Definition sample_numeric : Numeric :=
  mkNumeric (fun x => 1 / (1 - x))%Q (fun x => x).

(** Entry by entry, [r'] is True wherever [r] is *)
Definition row_le (r r' : list bool) : Prop :=
  Forall2 (fun b b' : bool => b = true -> b' = true) r r'.
Definition mat_le (m m' : mat) : Prop := Forall2 row_le m m'.

(** The graph ScaleFreeBA(m=2, directed=True, seed=1) grows over 10 nodes
    on the sample generator *)
Definition sample_ba_graph : mat :=
  [[false; false; false; false; false; false; false; false; false; false];
   [false; false; false; false; false; false; false; false; false; false];
   [true; true; false; false; false; false; false; false; false; false];
   [true; false; true; false; false; false; false; false; false; false];
   [true; false; true; false; false; false; false; false; false; false];
   [true; false; true; false; false; false; false; false; false; false];
   [false; false; true; false; true; false; false; false; false; false];
   [false; false; false; false; true; true; false; false; false; false];
   [false; false; false; false; false; true; true; false; false; false];
   [false; false; true; false; false; true; false; false; false; false]].

(** ** Computations that leave a part of the world alone *)

Definition omap_world {A} (t : World -> World) (o : outcome (A * World))
  : outcome (A * World) :=
  match o with
  | Ok (a, w) => Ok (a, t w)
  | Raise e => Raise e
  | Diverge => Diverge
  end.

(** [c] commutes with the change [t] of the world: it neither reads nor
    writes what [t] sets. *)
Definition frames {A} (t : World -> World) (c : M A) : Prop :=
  forall w, c (t w) = omap_world t (c w).

(** The generators a connector does not own: numpy's global one, and
    numba's where numba is not installed. *)
Definition outside (E : Env) (h0 : handle) : Prop :=
  h0 = NpRandom \/ (h0 = NumbaRandom /\ SUPPORT_NUMBA E = false).

(** A generator that never draws 0.0 *)
Definition positive_draws (s : RandomState) : Prop := forall n, (0 < src s n)%Q.

(** ** ProbDist when every draw passes

    With [prob = 1] and [pre_ratio = 1] no draw of the unit interval fails
    a test, and the edges of the 1-D build are those the distance test
    lets through. *)

Definition sure_visit (c : ProbDist.t) (pre_pos pre_size post_size : list nat)
    (acc : list nat * list nat) (post_pos : list nat) : list nat * list nat :=
  let d := ProbDist.manhattan pre_pos post_pos in
  if Qle_bool (inject_Z d) (ProbDist.dist c)
     && negb ((d =? 0)%Z && negb (ProbDist.include_self c))
  then (fst acc ++ [pos2ind pre_pos pre_size], snd acc ++ [pos2ind post_pos post_size])
  else acc.

Definition sure_connect_1d (c : ProbDist.t) (pre_pos pre_size post_size : list nat)
  : list nat * list nat :=
  foldl (sure_visit c pre_pos pre_size post_size) ([], []) (grid (take 1 post_size)).

Fixpoint sure_connect_all (c : ProbDist.t) (pre_size post_size : list nat)
    (todo i : nat) : list nat * list nat :=
  match todo with
  | O => ([], [])
  | S todo' =>
      let r := sure_connect_1d c (unravel pre_size i) pre_size post_size in
      let rest := sure_connect_all c pre_size post_size todo' (S i) in
      (fst r ++ fst rest, snd r ++ snd rest)
  end.

(** A matrix equal to its transpose, entry by entry *)
Definition symmetric (m : mat) : Prop := forall a b, entry m a b = entry m b a.

(** The graph SmallWorld(num_neighbor=2, prob=0.5, seed=3) builds over 6
    nodes on the sample generator *)
Definition sample_sw_graph : mat :=
  [[false; true; false; true; false; true];
   [true; false; false; false; true; false];
   [false; false; false; true; false; false];
   [true; false; true; false; false; false];
   [false; true; false; false; false; true];
   [true; false; false; false; true; false]].

(** Edges of a growth model: never a self loop, and from a node to an
    earlier one when the graph is directed. *)
Definition grown_edge (directed : bool) (a b : nat) : Prop :=
  a <> b /\ (directed = true -> (b < a)%nat).

Definition grown (directed : bool) (m : mat) : Prop :=
  forall a b, entry m a b = Some true -> grown_edge directed a b.
(** The graph ScaleFreeBA(m=2, directed=False, seed=1) grows over 10 nodes
    on the sample generator *)
Definition sample_ba_graph_undirected : mat :=
  [[false; false; true; true; false; false; false; false; false; false];
   [false; false; true; false; false; false; false; true; false; false];
   [true; true; false; true; true; false; true; false; false; true];
   [true; false; true; false; true; true; true; true; true; false];
   [false; false; true; true; false; true; false; false; true; true];
   [false; false; false; true; true; false; false; false; false; false];
   [false; false; true; true; false; false; false; false; false; false];
   [false; true; false; true; false; false; false; false; false; false];
   [false; false; false; true; true; false; false; false; false; false];
   [false; false; true; false; true; false; false; false; false; false]].

(** What a row of [FixedProb.build_conn] is: ascending post indices below
    [post_num], without the row's own index when self loops are excluded. *)
Definition prob_row (include_self : bool) (post_num i : nat) (ps : list nat) : Prop :=
  StronglySorted lt ps /\ Forall (fun j => (j < post_num)%nat) ps
  /\ (include_self = false -> i ∉ ps).
(** A generator that never draws 0.0 *)
Definition halves_env (numba : bool) : Env := constant_env numba (1 # 2).

(** Positions in ascending order of their keys *)
Definition key_sorted (key : nat -> Q) (l : list nat) : Prop :=
  StronglySorted (fun a b => (key a <= key b)%Q) l.

(** ** What an edge returned by ProbDist satisfies *)



(** The tests an edge passes in [_connect_1d] when no draw fails *)
Definition passes_1d (c : ProbDist.t) (e : nat * nat) : bool :=
  Qle_bool (inject_Z (Z.abs (Z.of_nat (fst e) - Z.of_nat (snd e)))) (ProbDist.dist c)
  && negb ((fst e =? snd e)%nat && negb (ProbDist.include_self c)).

(** ** ScaleFreeBADual *)

Module ScaleFreeBADual.

Record t : Type := mk {
  m1 : Z;
  m2 : Z;
  p : Q;
  directed : bool;
  seed : Z
}.

(** [self.m1 if self.rng.random() < self.p else self.m2]: the draw is made
    in [build_conn] itself, on the connector's own generator. *)
Definition pick_m (c : t) : M nat :=
  let* u := with_rng SelfRng random in
  ret (if Qlt_bool u (p c) then Z.to_nat (m1 c) else Z.to_nat (m2 c)).

(** The loop [while source < num_node]; [todo] is [num_node - source].  The
    [_random_subset] of this class is, word for word, that of ScaleFreeBA. *)
Fixpoint grow (fuel todo : nat) (E : Env) (c : t) (m source : nat)
    (targets repeated_nodes : list nat) (conn : mat) : M mat :=
  match todo with
  | O => ret conn
  | S todo' =>
      let origins := replicate m source in
      let* conn1 := lift (fancy_set origins targets true conn) in
      let* conn2 := (if directed c then ret conn1
                     else lift (fancy_set targets origins true conn1)) in
      let repeated := repeated_nodes ++ targets ++ replicate m source in
      let* m' := pick_m c in
      let* chosen := ScaleFreeBA._random_subset fuel (closure_rng E) repeated m' ∅ in
      grow fuel todo' E c m' (S source) (elements chosen) repeated conn2
  end.

(** [ScaleFreeBADual.build_conn]: returns ['mat', conn] *)
Definition build_conn (fuel : nat) (E : Env) (c : t) (pre_num post_num : nat)
  : M mat :=
  if decide (pre_num = post_num) then
    run reseed E in
    let num_node := pre_num in
    if (m1 c <? 1)%Z || (Z.of_nat num_node <=? m1 c)%Z then raise ConnectorError
    else if (m2 c <? 1)%Z || (Z.of_nat num_node <=? m2 c)%Z then raise ConnectorError
    else if Qlt_bool (p c) 0 || Qlt_bool 1 (p c) then raise ConnectorError
    else
      let source := Z.to_nat (Z.max (m1 c) (m2 c)) in
      let* m := pick_m c in
      grow fuel (num_node - source) E c m source (seq 0 m) []
           (full num_node num_node false)
  else raise AssertionError.

End ScaleFreeBADual.

(** The graph ScaleFreeBADual(m1=1, m2=2, p=0.5, directed=True, seed=1)
    grows over 8 nodes on the sample generator *)
Definition sample_dual_graph : mat :=
  Eval vm_compute in
    match value (ScaleFreeBADual.build_conn 40 (sample_env false)
                   (ScaleFreeBADual.mk 1 2 (1 # 2) true 1) 8 8
                   (fresh (sample_env false) 1 (constant_rng 0) (constant_rng 0))) with
    | Ok conn => conn
    | _ => []
    end.

(** * Properties *)

(** ** The generator and the monad *)

Lemma sample_stream_unit z n : (0 <= sample_stream z n)%Q /\ (sample_stream z n < 1)%Q.
Proof.
  unfold sample_stream.
  set (k := ((z + 7 * Z.of_nat n * Z.of_nat n + 3 * Z.of_nat n) mod 16)%Z).
  assert (Hk : (0 <= k < 16)%Z) by (apply Z.mod_pos_bound; lia).
  unfold Qle, Qlt, Qdiv, Qmult, Qinv, inject_Z; simpl. lia.
Qed.

Lemma sample_env_ok numba : Env_ok (sample_env numba).
Proof. intros z n. apply sample_stream_unit. Qed.

Lemma constant_rng_unit q : (0 <= q)%Q -> (q < 1)%Q -> unit_interval (constant_rng q).
Proof. intros H0 H1 n. simpl. auto. Qed.

Lemma random_unit s : unit_interval s -> unit_interval (snd (random s)).
Proof. intros H n. apply (H n). Qed.

Lemma random_range s :
  unit_interval s -> (0 <= fst (random s))%Q /\ (fst (random s) < 1)%Q.
Proof. intros H. apply H. Qed.

Lemma set_rng_ok h s w : World_ok w -> unit_interval s -> World_ok (set_rng h s w).
Proof.
  intros (H1 & H2 & H3) Hs.
  destruct h; repeat split; simpl; auto;
    apply H1 || apply H2 || apply H3 || apply Hs.
Qed.

Lemma get_rng_ok h w : World_ok w -> unit_interval (get_rng h w).
Proof. intros (H1 & H2 & H3). destruct h; assumption. Qed.

Lemma reseed_total E w : exists w', reseed E w = Ok (tt, w').
Proof.
  unfold reseed, bind, with_rng, numba_seed, randint. simpl.
  destruct (SUPPORT_NUMBA E); eauto.
Qed.

Lemma reseed_ok E w :
  Env_ok E -> World_ok w -> exists w', reseed E w = Ok (tt, w') /\ World_ok w'.
Proof.
  intros HE (H1 & H2 & H3).
  unfold reseed, bind, with_rng, numba_seed, randint. simpl.
  destruct (SUPPORT_NUMBA E); eexists; (split; [reflexivity|]);
    repeat split; simpl; try apply H1; try apply H2; try apply H3; apply HE.
Qed.

(** ** FixedProb *)

(** A probability above 1 is refused, but not with a ConnectorError. *)
Lemma FixedProb_init_not_ConnectorError :
  FixedProb.init (3 # 2) 1 true 0 <> Raise ConnectorError.
Proof. vm_compute. discriminate. Qed.

(** C5 (as the code has it): constructing FixedProb with [prob] outside
    [[0, 1]] fails at construction, through the [assert], with an
    AssertionError; no connector is built and [prob] is not clamped. *)
Theorem FixedProb_init_out_of_range (prob pre_ratio : Q) (include_self : bool) (seed : Z) :
  ~ (0 <= prob /\ prob <= 1)%Q ->
  FixedProb.init prob pre_ratio include_self seed = Raise AssertionError.
Proof.
  intros H. unfold FixedProb.init.
  destruct (Qle_bool 0 prob) eqn:H0; destruct (Qle_bool prob 1) eqn:H1; try reflexivity.
  exfalso. apply H. split; apply Qle_bool_iff; assumption.
Qed.

Lemma FixedProb_init_out_of_range_witness :
  FixedProb.init (3 # 2) 1 true 0 = Raise AssertionError.
Proof.
  apply (FixedProb_init_out_of_range (3 # 2) 1 true 0).
  intros [_ H]. vm_compute in H. apply H. reflexivity.
Defined.

(** Inside the interval the connector is built with [prob] as given. *)
Lemma FixedProb_init_in_range (prob pre_ratio : Q) (include_self : bool) (seed : Z) :
  (0 <= prob)%Q -> (prob <= 1)%Q ->
  FixedProb.init prob pre_ratio include_self seed
  = Ok (FixedProb.mk prob pre_ratio include_self seed).
Proof.
  intros H0 H1. unfold FixedProb.init.
  apply Qle_bool_iff in H0, H1. rewrite H0, H1. reflexivity.
Qed.

(** C4 (the code at a draw of 0.0): [build_conn] keeps a candidate when
    its draw is [<= prob], so with [prob = 0] a draw of exactly 0 yields an
    edge: one pre node, one post node, edge (0, 0). *)
Theorem FixedProb_build_conn_prob0_edge (numba : bool) (w : World) :
  Env_ok (constant_env numba 0)
  /\ FixedProb.init 0 1 true 0 = Ok (FixedProb.mk 0 1 true 0)
  /\ value (FixedProb.build_conn (constant_env numba 0) (FixedProb.mk 0 1 true 0) 1 1 w)
     = Ok ([0%nat], [0%nat; 1%nat]).
Proof.
  split; [|split].
  - intros z. apply constant_rng_unit; [apply Qle_refl | reflexivity].
  - reflexivity.
  - destruct numba; reflexivity.
Qed.

(** ** FixedPreNum and FixedPostNum *)

(** The guard [i <= num_total] lets [i = num_total] through to [prob[i]]. *)
Lemma fixed_num_prob_guard_off_by_one (s : RandomState) (num_need n : nat) :
  fst (FixedNum._fixed_num_prob (FixedNum.mk (FixedNum.NumInt 1) false 0) num_need n n s)
  = Raise IndexError.
Proof.
  unfold FixedNum._fixed_num_prob. simpl.
  destruct (random_n n s) as [prob s1] eqn:Hr. simpl.
  rewrite Nat.leb_refl. unfold setitem.
  assert (Hlen : length prob = n).
  { clear -Hr. revert s prob s1 Hr. induction n as [|n IH]; intros s prob s1 Hr; simpl in Hr.
    - inversion Hr; reflexivity.
    - destruct (random_n n _) as [xs s2] eqn:Hx. inversion Hr; subst. simpl.
      f_equal. eapply IH. exact Hx. }
  rewrite Hlen. destruct (decide (n < n)%nat); [lia | reflexivity].
Qed.

(** C9 (the code at post_num > pre_num): FixedPreNum(num=1,
    include_self=False) over 2 pre and 3 post nodes.  At post index 2 the
    guard [2 <= 2] holds and [prob[2] = 1.] addresses a draw array of
    length 2: the build ends in an IndexError. *)
Theorem FixedPreNum_self_write_out_of_bounds (E : Env) (w : World) :
  FixedNum.init (FixedNum.NumInt 1) false 0 = Ok (FixedNum.mk (FixedNum.NumInt 1) false 0)
  /\ value (FixedPreNum.build_conn E (FixedNum.mk (FixedNum.NumInt 1) false 0) 2 3 w)
     = Raise IndexError.
Proof.
  split; [reflexivity|].
  destruct E as [[] sd]; destruct w as [z s g nb]; reflexivity.
Qed.

(** C1 (the code at pre_num > post_num): FixedPostNum(num=1,
    include_self=False) over 3 pre and 2 post nodes.  Row 2 writes
    [prob[2]] into a draw array of length 2: no CSR pair is returned, the
    build ends in an IndexError. *)
Theorem FixedPostNum_build_conn_IndexError (E : Env) (w : World) :
  FixedNum.init (FixedNum.NumInt 1) false 0 = Ok (FixedNum.mk (FixedNum.NumInt 1) false 0)
  /\ value (FixedPostNum.build_conn E (FixedNum.mk (FixedNum.NumInt 1) false 0) 3 2 w)
     = Raise IndexError.
Proof.
  split; [reflexivity|].
  destruct E as [[] sd]; destruct w as [z s g nb]; reflexivity.
Qed.

(** *** Exact degrees of FixedPostNum, where the self write stays in bounds *)

Lemma random_n_length n s : length (fst (random_n n s)) = n.
Proof.
  revert s. induction n as [|n IH]; intros s; simpl; [reflexivity|].
  specialize (IH (mkRandomState (src s) (S (pos s)))).
  destruct (random_n n _) as [xs s2]. simpl in *. lia.
Qed.

Lemma random_n_unit n s : unit_interval s -> unit_interval (snd (random_n n s)).
Proof.
  revert s. induction n as [|n IH]; intros s H; simpl; [assumption|].
  specialize (IH (mkRandomState (src s) (S (pos s))) H).
  destruct (random_n n _) as [xs s2]. simpl in *. assumption.
Qed.

Lemma insert_by_perm key i l : insert_by key i l ≡ₚ i :: l.
Proof.
  induction l as [|j l IH]; simpl; [reflexivity|].
  destruct (Qle_bool (key i) (key j)); [reflexivity|].
  rewrite IH. apply Permutation_swap.
Qed.

Lemma argsort_perm prob : argsort prob ≡ₚ seq 0 (length prob).
Proof.
  unfold argsort. generalize (fun i : nat => default 0%Q (prob !! i)) as key.
  intros key. generalize (seq 0 (length prob)) as l.
  induction l as [|i l IH]; simpl; [reflexivity|].
  rewrite insert_by_perm. constructor. exact IH.
Qed.

Lemma take_argsort_row (k : nat) (prob : list Q) :
  (k <= length prob)%nat -> exact_row k (length prob) (take k (argsort prob)).
Proof.
  intros Hk. pose proof (argsort_perm prob) as Hp.
  assert (Hnd : NoDup (argsort prob)) by (rewrite Hp; apply NoDup_seq).
  assert (Hlen : length (argsort prob) = length prob)
    by (rewrite Hp; apply length_seq).
  repeat split.
  - rewrite length_take. lia.
  - apply (sublist_NoDup _ _ Hnd (sublist_take _ _)).
  - apply Forall_take. rewrite Hp. apply Forall_forall. intros x Hx.
    apply elem_of_seq in Hx. lia.
Qed.

Lemma setitem_in_range {A} (i : nat) (x : A) (l : list A) :
  (i < length l)%nat -> setitem i x l = Ok (<[i := x]> l).
Proof. intros H. unfold setitem. destruct (decide (i < length l)%nat); [reflexivity | lia]. Qed.

Lemma fixed_num_prob_row (c : FixedNum.t) (k n i : nat) (s : RandomState) :
  (k <= n)%nat ->
  FixedNum.include_self c = true \/ (i < n)%nat ->
  exists ids, fst (FixedNum._fixed_num_prob c k n i s) = Ok ids /\ exact_row k n ids.
Proof.
  intros Hk Hi. unfold FixedNum._fixed_num_prob.
  pose proof (random_n_length n s) as Hlen.
  destruct (random_n n s) as [prob s1]. simpl in *.
  destruct (negb (FixedNum.include_self c) && (i <=? n)%nat) eqn:Hg.
  - apply andb_true_iff in Hg as [Hs _]. apply negb_true_iff in Hs.
    destruct Hi as [Hi|Hi]; [congruence|].
    rewrite setitem_in_range by lia. simpl. eexists. split; [reflexivity|].
    subst n. rewrite <- (length_insert prob i 1%Q).
    apply take_argsort_row. rewrite length_insert. lia.
  - simpl. eexists. split; [reflexivity|].
    subst n. apply take_argsort_row. lia.
Qed.

Lemma connect_unfold (E : Env) (c : FixedNum.t) (k n i : nat) (w : World) :
  FixedNum._connect E c k n i w =
  match fst (FixedNum._fixed_num_prob c k n i (get_rng (closure_rng E) w)) with
  | Ok ids => Ok (ids, set_rng (closure_rng E)
                         (snd (FixedNum._fixed_num_prob c k n i (get_rng (closure_rng E) w))) w)
  | Raise e => Raise e
  | Diverge => Diverge
  end.
Proof.
  unfold FixedNum._connect, bind, with_rng, lift.
  destruct (FixedNum._fixed_num_prob c k n i _) as [[ids| |] s']; reflexivity.
Qed.

Lemma connect_all_rows (E : Env) (c : FixedNum.t) (k n todo i : nat) (w : World) :
  (k <= n)%nat ->
  FixedNum.include_self c = true \/ (i + todo <= n)%nat ->
  exists rows w', FixedNum.connect_all E c k n todo i w = Ok (rows, w')
    /\ length rows = todo /\ Forall (exact_row k n) rows.
Proof.
  intros Hk. revert i w. induction todo as [|todo IH]; intros i w Hi; simpl.
  - exists [], w. repeat split; constructor.
  - unfold bind. rewrite connect_unfold.
    destruct (fixed_num_prob_row c k n i (get_rng (closure_rng E) w) Hk) as (ids & Hids & Hrow).
    { destruct Hi; [left; assumption | right; lia]. }
    rewrite Hids.
    destruct (IH (S i) (set_rng (closure_rng E)
                (snd (FixedNum._fixed_num_prob c k n i (get_rng (closure_rng E) w))) w))
      as (rows & w' & Hrows & Hlen & Hall).
    { destruct Hi; [left; assumption | right; lia]. }
    rewrite Hrows. exists (ids :: rows), w'. repeat split; simpl; auto.
Qed.

Lemma cumsum_from_replicate (acc n k i : nat) :
  (i < n)%nat -> cumsum_from acc (replicate n k) !! i = Some (acc + S i * k)%nat.
Proof.
  revert acc i. induction n as [|n IH]; intros acc i Hi; [lia|].
  destruct i as [|i]; simpl.
  - f_equal. lia.
  - rewrite IH by lia. f_equal. lia.
Qed.

Lemma indptr_replicate (n k i : nat) :
  (i <= n)%nat -> indptr_of (replicate n k) !! i = Some (i * k)%nat.
Proof.
  intros Hi. unfold indptr_of. destruct i as [|i]; simpl; [reflexivity|].
  rewrite cumsum_from_replicate by lia. f_equal; lia.
Qed.

Lemma indptr_length (count : list nat) : length (indptr_of count) = S (length count).
Proof.
  unfold indptr_of. simpl. f_equal. generalize 0%nat.
  induction count as [|x l IH]; intros acc; simpl; [reflexivity|]. f_equal. apply IH.
Qed.

Lemma concat_uniform_row (rows : list (list nat)) (k i : nat) (r : list nat) :
  Forall (fun r => length r = k) rows -> rows !! i = Some r ->
  take k (drop (i * k) (concat rows)) = r.
Proof.
  intros Hall. revert i. induction Hall as [|r0 rows Hr0 Hall IH]; intros i Hi.
  - discriminate.
  - destruct i as [|i]; simpl in Hi.
    + inversion Hi; subst. simpl. apply take_app_length'. reflexivity.
    + change (concat (r0 :: rows)) with (r0 ++ concat rows).
      replace (S i * k)%nat with (length r0 + i * k)%nat by lia.
      rewrite drop_app_add. apply IH. exact Hi.
Qed.

Lemma csr_row_uniform (rows : list (list nat)) (k i : nat) (r : list nat) :
  Forall (fun r => length r = k) rows -> rows !! i = Some r ->
  csr_row (concat rows) (indptr_of (replicate (length rows) k)) i = r.
Proof.
  intros Hall Hi. unfold csr_row.
  assert (i < length rows)%nat by (eapply lookup_lt_Some; eassumption).
  rewrite !indptr_replicate by lia. simpl.
  replace (k + i * k - i * k)%nat with k by lia.
  apply concat_uniform_row; assumption.
Qed.

(** X17: FixedPostNum with an integer [num] within post_num, where the
    self write stays in bounds ([include_self] True, or no more pre than
    post nodes): the build returns a CSR pair in which every pre node has
    exactly [num] distinct post indices, all below post_num. *)
Lemma FixedPostNum_rows_exact (E : Env) (k : nat) (include_self : bool) (seed : Z)
    (pre_num post_num : nat) (w : World) :
  (k <= post_num)%nat -> (1 <= pre_num)%nat ->
  include_self = true \/ (pre_num <= post_num)%nat ->
  exists post_ids indptr,
    value (FixedPostNum.build_conn E
             (FixedNum.mk (FixedNum.NumInt (Z.of_nat k)) include_self seed)
             pre_num post_num w) = Ok (post_ids, indptr)
    /\ length indptr = S pre_num
    /\ forall i, (i < pre_num)%nat -> exact_row k post_num (csr_row post_ids indptr i).
Proof.
  intros Hk Hpre Hself. unfold FixedPostNum.build_conn, FixedNum.check_num. simpl.
  replace (0 <=? Z.of_nat k)%Z with true by (symmetry; apply Z.leb_le; lia).
  replace (Z.of_nat k <=? Z.of_nat post_num)%Z with true by (symmetry; apply Z.leb_le; lia).
  simpl. rewrite Nat2Z.id. unfold bind at 1. unfold lift at 1.
  unfold bind at 1. destruct (reseed_total E w) as [w1 Hw1]. rewrite Hw1.
  unfold bind at 1.
  destruct (connect_all_rows E (FixedNum.mk (FixedNum.NumInt (Z.of_nat k)) include_self seed)
              k post_num pre_num 0 w1 Hk) as (rows & w2 & Hrows & Hlen & Hall).
  { destruct Hself; [left; assumption | right; simpl; lia]. }
  rewrite Hrows. unfold bind, lift, FixedNum.np_concatenate.
  destruct rows as [|r0 rows0] eqn:Erows; [simpl in Hlen; lia|].
  rewrite <- Erows in *. simpl.
  exists (concat rows), (indptr_of (replicate pre_num k)). split; [reflexivity|]. split.
  - rewrite indptr_length, length_replicate. reflexivity.
  - intros i Hi. destruct (lookup_lt_is_Some_2 rows i) as [r Hr]; [lia|].
    rewrite <- Hlen. rewrite (csr_row_uniform rows k i r); auto.
    + eapply Forall_lookup_1 in Hall; eauto.
    + eapply Forall_impl; [exact Hall|]. intros x Hx. apply Hx.
Qed.


(** ** SmallWorld *)

Lemma Qlt_bool_false_of_le (u p : Q) : (p <= u)%Q -> Qlt_bool u p = false.
Proof. intros H. unfold Qlt_bool. apply Qle_bool_iff in H. rewrite H. reflexivity. Qed.

Lemma smallworld_rewire_never (fuel : nat) (h : handle) (c : SmallWorld.t) (i : nat)
    (all_j : list bool) (w : World) :
  (SmallWorld.prob c <= 0)%Q -> World_ok w ->
  exists w', SmallWorld._smallworld_rewire fuel h c i all_j w = Ok ((-1)%Z, w')
             /\ World_ok w'.
Proof.
  intros Hp Hw. unfold SmallWorld._smallworld_rewire, bind, with_rng. simpl.
  pose proof (get_rng_ok h w Hw) as Hs.
  rewrite Qlt_bool_false_of_le.
  - eexists. split; [reflexivity|]. apply set_rng_ok; [assumption|].
    intros n. apply (Hs n).
  - eapply Qle_trans; [exact Hp | apply (Hs (pos (get_rng h w)))].
Qed.

Lemma rewire_nodes_noop (fuel : nat) (E : Env) (c : SmallWorld.t)
    (uvs : list (nat * nat)) (conn : mat) (w : World) :
  (SmallWorld.prob c <= 0)%Q -> SmallWorld.directed c = false -> World_ok w ->
  exists w', SmallWorld.rewire_nodes fuel E c uvs conn w = Ok (conn, w') /\ World_ok w'.
Proof.
  intros Hp Hd. revert w. induction uvs as [|[u v] rest IH]; intros w Hw; simpl.
  - exists w. split; [reflexivity | assumption].
  - unfold bind at 1. unfold SmallWorld.rewire_edge. rewrite Hd. unfold bind at 1.
    destruct (smallworld_rewire_never fuel (closure_rng E) c u (default [] (conn !! u)) w Hp Hw)
      as (w1 & H1 & Hw1).
    rewrite H1. simpl. apply IH. exact Hw1.
Qed.

Lemma rewire_noop (fuel : nat) (E : Env) (c : SmallWorld.t) (js nodes : list nat)
    (conn : mat) (w : World) :
  (SmallWorld.prob c <= 0)%Q -> SmallWorld.directed c = false -> World_ok w ->
  exists w', SmallWorld.rewire fuel E c js nodes conn w = Ok (conn, w') /\ World_ok w'.
Proof.
  intros Hp Hd. revert w. induction js as [|j js IH]; intros w Hw; simpl.
  - exists w. split; [reflexivity | assumption].
  - unfold bind at 1.
    destruct (rewire_nodes_noop fuel E c (zip nodes (SmallWorld.shifted j nodes)) conn w Hp Hd Hw)
      as (w1 & H1 & Hw1).
    rewrite H1. apply IH. exact Hw1.
Qed.

Lemma ring_lattice_20 :
  SmallWorld.lattice (seq 1 2) (seq 0 20) (full 20 20 false) = Ok (ring_lattice 20).
Proof. vm_compute. reflexivity. Qed.

(** C3: SmallWorld(num_neighbor=4, prob=0, include_self=False) over a 1-D
    population of 20 nodes returns the ring lattice, entry [i][j] true iff
    [j] is [i-2], [i-1], [i+1] or [i+2] modulo 20, whatever the generators
    hold: a draw is never below [prob = 0], so no edge is rewired. *)
Theorem SmallWorld_prob0_ring_lattice (fuel : nat) (E : Env) (seed : Z)
    (sz : size_t) (w : World) :
  Env_ok E -> World_ok w -> sz = SizeInt 20 \/ sz = SizeTuple [20%nat] ->
  value (SmallWorld.build_conn fuel E (SmallWorld.mk 4 0 false false seed) sz sz w)
  = Ok (ring_lattice 20).
Proof.
  intros HE Hw Hsz. unfold SmallWorld.build_conn.
  destruct (decide (sz = sz)) as [_|Hne]; [|congruence].
  unfold bind at 1. destruct (reseed_ok E w HE Hw) as (w1 & H1 & Hw1). rewrite H1.
  assert (Hone : SmallWorld.one_dim sz = true) by (destruct Hsz; subst; reflexivity).
  assert (Hnum : size_num sz = 20%nat) by (destruct Hsz; subst; reflexivity).
  rewrite Hone, Hnum. cbn [SmallWorld.num_neighbor].
  change (Z.of_nat 20 <? 4)%Z with false. change (4 =? Z.of_nat 20)%Z with false.
  cbv iota zeta. change (Z.to_nat (4 / 2)) with 2%nat.
  unfold bind at 1. rewrite ring_lattice_20. unfold lift.
  destruct (rewire_noop fuel E (SmallWorld.mk 4 0 false false seed) (seq 1 2) (seq 0 20)
              (ring_lattice 20) w1) as (w2 & H2 & _).
  - simpl. apply Qle_refl.
  - reflexivity.
  - exact Hw1.
  - rewrite H2. reflexivity.
Qed.

Lemma SmallWorld_prob0_ring_lattice_witness :
  value (SmallWorld.build_conn 0 (sample_env false) (SmallWorld.mk 4 0 false false 7)
           (SizeInt 20) (SizeInt 20)
           (fresh (sample_env false) 7 (constant_rng 0) (constant_rng 0)))
  = Ok (ring_lattice 20).
Proof.
  apply (SmallWorld_prob0_ring_lattice 0 (sample_env false) 7 (SizeInt 20)).
  - apply sample_env_ok.
  - repeat split; simpl; try apply sample_stream_unit; try apply Qle_refl; reflexivity.
  - left. reflexivity.
Defined.

Lemma full_entry (rows cols : nat) (b : bool) (i j : nat) :
  (i < rows)%nat -> (j < cols)%nat -> entry (full rows cols b) i j = Some b.
Proof.
  intros Hi Hj. unfold entry, full.
  rewrite (lookup_replicate_2 rows (replicate cols b) i Hi).
  apply lookup_replicate_2. assumption.
Qed.

(** C10: with [num_neighbor == N] on a 1-D population of size N,
    [build_conn] returns the N x N matrix of ones, diagonal included,
    whatever [include_self], [prob] and [directed] are: the shortcut skips
    both the rewiring and the exclusion of self loops. *)
Theorem SmallWorld_num_neighbor_eq_N_complete (fuel : nat) (E : Env) (N : nat)
    (prob : Q) (directed include_self : bool) (seed : Z) (sz : size_t) (w : World) :
  sz = SizeInt N \/ sz = SizeTuple [N] ->
  value (SmallWorld.build_conn fuel E
           (SmallWorld.mk (Z.of_nat N) prob directed include_self seed) sz sz w)
  = Ok (full N N true)
  /\ forall i j, (i < N)%nat -> (j < N)%nat -> entry (full N N true) i j = Some true.
Proof.
  intros Hsz. split; [|intros i j Hi Hj; apply full_entry; assumption].
  unfold SmallWorld.build_conn.
  destruct (decide (sz = sz)) as [_|Hne]; [|congruence].
  unfold bind at 1. destruct (reseed_total E w) as (w1 & H1). rewrite H1.
  assert (Hone : SmallWorld.one_dim sz = true) by (destruct Hsz; subst; reflexivity).
  assert (Hnum : size_num sz = N) by (destruct Hsz; subst; simpl; lia).
  rewrite Hone, Hnum. cbn [SmallWorld.num_neighbor].
  rewrite Z.ltb_irrefl, Z.eqb_refl. reflexivity.
Qed.

Lemma SmallWorld_num_neighbor_eq_N_complete_witness :
  value (SmallWorld.build_conn 0 (sample_env true)
           (SmallWorld.mk (Z.of_nat 3) (1 # 2) true false 5) (SizeInt 3) (SizeInt 3)
           (fresh (sample_env true) 5 (constant_rng 0) (constant_rng 0)))
  = Ok (full 3 3 true)
  /\ entry (full 3 3 true) 1 1 = Some true.
Proof.
  pose proof (SmallWorld_num_neighbor_eq_N_complete 0 (sample_env true) 3 (1 # 2) true
                false 5 (SizeInt 3)
                (fresh (sample_env true) 5 (constant_rng 0) (constant_rng 0))
                (or_introl eq_refl)) as [H1 H2].
  split; [exact H1 | apply H2; lia].
Defined.

(** ** ProbDist *)

(** C6 (the code without numba, 2-D, 3-D and 4-D shapes): two fresh
    ProbDist(dist=1, prob=0.5, seed=0) connectors over populations of one
    node build different edge lists when numpy's global generator differs:
    the per-edge draw of [_connect_2d], [_connect_3d] and [_connect_4d] is
    [np.random.random()], not [rng.random()]. *)
Theorem ProbDist_2d_depends_on_global_rng (nb : RandomState) (shape : list nat) :
  shape = [1%nat; 1%nat] \/ shape = [1%nat; 1%nat; 1%nat]
  \/ shape = [1%nat; 1%nat; 1%nat; 1%nat] ->
  value (ProbDist.build_conn (sample_env false) (ProbDist.mk 1 (1 # 2) 1 0 true)
           shape shape (fresh (sample_env false) 0 (constant_rng 0) nb))
  = Ok ([0%nat], [0%nat])
  /\ value (ProbDist.build_conn (sample_env false) (ProbDist.mk 1 (1 # 2) 1 0 true)
           shape shape (fresh (sample_env false) 0 (constant_rng (3 # 4)) nb))
  = Ok ([], []).
Proof. intros [-> | [-> | ->]]; split; vm_compute; reflexivity. Qed.

Lemma ProbDist_2d_depends_on_global_rng_witness :
  value (ProbDist.build_conn (sample_env false) (ProbDist.mk 1 (1 # 2) 1 0 true)
           [1%nat; 1%nat] [1%nat; 1%nat]
           (fresh (sample_env false) 0 (constant_rng 0) (constant_rng 0)))
  = Ok ([0%nat], [0%nat])
  /\ value (ProbDist.build_conn (sample_env false) (ProbDist.mk 1 (1 # 2) 1 0 true)
           [1%nat; 1%nat] [1%nat; 1%nat]
           (fresh (sample_env false) 0 (constant_rng (3 # 4)) (constant_rng 0)))
  = Ok ([], []).
Proof.
  apply (ProbDist_2d_depends_on_global_rng (constant_rng 0) [1%nat; 1%nat]).
  left. reflexivity.
Defined.


(** ** GaussianProb *)

Lemma random_mat_shape (rows cols : nat) (s : RandomState) :
  has_shape rows cols (fst (random_mat rows cols s)).
Proof.
  revert s. induction rows as [|rows IH]; intros s; simpl.
  - split; [reflexivity | constructor].
  - pose proof (random_n_length cols s) as Hl.
    destruct (random_n cols s) as [r s1]. specialize (IH s1).
    destruct (random_mat rows cols s1) as [rs s2]. simpl in *.
    destruct IH as [IH1 IH2]. split; [simpl; lia | constructor; assumption].
Qed.

Lemma prob_mat_shape (F : Numeric) (c : GaussianProb.t) (pre_size : list nat)
    (ranges : list (Q * Q)) :
  has_shape (prod_list pre_size) (prod_list pre_size)
            (GaussianProb.prob_mat F c pre_size ranges).
Proof.
  unfold GaussianProb.prob_mat. cbv zeta.
  set (n := prod_list pre_size).
  set (m := map _ (seq 0 n)).
  assert (Hm : has_shape n n m).
  { subst m. split.
    - rewrite length_map, length_seq. reflexivity.
    - apply Forall_map. apply Forall_forall. intros i _. simpl.
      rewrite length_map, length_seq. reflexivity. }
  destruct (GaussianProb.normalize c); [|exact Hm].
  destruct Hm as [H1 H2]. split.
  - rewrite length_map. exact H1.
  - apply Forall_map. eapply Forall_impl; [exact H2|]. intros r Hr. simpl.
    rewrite length_map. exact Hr.
Qed.

Lemma zip_with_shape {A B C} (f : A -> B -> C) (rows cols : nat)
    (m1 : list (list A)) (m2 : list (list B)) :
  has_shape rows cols m1 -> has_shape rows cols m2 ->
  has_shape rows cols (zip_with (zip_with f) m1 m2).
Proof.
  intros [H1 H2] [H3 H4]. split.
  - rewrite length_zip_with; lia.
  - subst rows. revert m2 H3 H4. induction H2 as [|r1 m1 Hr1 H2 IH]; intros m2 H3 H4.
    + constructor.
    + destruct m2 as [|r2 m2]; [discriminate|]. inversion H4; subst. simpl.
      constructor.
      * rewrite length_zip_with; lia.
      * apply IH; [simpl in H3; lia | assumption].
Qed.

Lemma fill_diagonal_from_lookup (k : nat) (m : mat) (i : nat) :
  fill_diagonal_from k m !! i = (fun r => <[(k + i)%nat := false]> r) <$> (m !! i).
Proof.
  revert k i. induction m as [|r m IH]; intros k i; simpl; [reflexivity|].
  destruct i as [|i]; simpl.
  - rewrite Nat.add_0_r. reflexivity.
  - rewrite IH. replace (S k + i)%nat with (k + S i)%nat by lia. reflexivity.
Qed.

Lemma fill_diagonal_entry (n : nat) (m : mat) (i : nat) :
  has_shape n n m -> (i < n)%nat -> entry (fill_diagonal m) i i = Some false.
Proof.
  intros [H1 H2] Hi. unfold entry, fill_diagonal.
  rewrite fill_diagonal_from_lookup.
  destruct (lookup_lt_is_Some_2 m i) as [r Hr]; [lia|]. rewrite Hr. simpl.
  apply list_lookup_insert_eq.
  eapply Forall_lookup_1 in H2; [|exact Hr]. simpl in H2. lia.
Qed.

Lemma fill_diagonal_shape (rows cols : nat) (m : mat) :
  has_shape rows cols m -> has_shape rows cols (fill_diagonal m).
Proof.
  intros [H1 H2]. unfold fill_diagonal. generalize 0%nat. subst rows.
  induction H2 as [|r m Hr H2 IH]; intros k; simpl.
  - split; [reflexivity | constructor].
  - destruct (IH (S k)) as [IH1 IH2]. split; [simpl; lia|].
    constructor; [rewrite length_insert; exact Hr | exact IH2].
Qed.

(** C8: with [include_self=False], whatever the shape, the parameters and
    the generators, the matrix [GaussianProb.build_conn] returns is square
    (pre_num x pre_num) and every diagonal entry [i][i] is False. *)
Theorem GaussianProb_diagonal_false (F : Numeric) (sigma : Q)
    (enc : GaussianProb.encoding) (normalize periodic : bool) (seed : Z)
    (pre_size : list nat) (w : World) (conn : mat) :
  value (GaussianProb.build_conn F
           (GaussianProb.mk sigma enc normalize false periodic seed) pre_size w)
  = Ok conn ->
  has_shape (prod_list pre_size) (prod_list pre_size) conn
  /\ forall i, (i < prod_list pre_size)%nat -> entry conn i i = Some false.
Proof.
  unfold GaussianProb.build_conn. unfold bind at 1. unfold lift at 1.
  destruct (GaussianProb.value_ranges _ pre_size) as [ranges| |]; try discriminate.
  cbv zeta.
  destruct (decide (pre_size = [] \/ prod_list pre_size = 0%nat)); [discriminate|].
  unfold bind, with_rng, ret. cbn [GaussianProb.include_self].
  pose proof (random_mat_shape (prod_list pre_size) (prod_list pre_size)
                (get_rng SelfRng w)) as Hd.
  destruct (random_mat _ _ (get_rng SelfRng w)) as [draws s1]. simpl in Hd.
  simpl. intros H. inversion H; subst conn. clear H.
  pose proof (zip_with_shape (fun (p u : Q) => Qle_bool u p) _ _ _ _
                (prob_mat_shape F (GaussianProb.mk sigma enc normalize false periodic seed)
                   pre_size ranges) Hd) as Hs.
  split.
  - apply fill_diagonal_shape. exact Hs.
  - intros i Hi. eapply fill_diagonal_entry; eassumption.
Qed.


Lemma GaussianProb_diagonal_false_witness :
  entry [[false; false; true; false]; [false; false; true; false];
         [false; true; false; true]; [false; true; true; false]] 1 1 = Some false.
Proof.
  refine (proj2 (GaussianProb_diagonal_false sample_numeric 1 GaussianProb.EncNone
                   true false 3 [2%nat; 2%nat]
                   (fresh (sample_env false) 3 (constant_rng 0) (constant_rng 0))
                   _ _) 1%nat _).
  - vm_compute. reflexivity.
  - simpl. lia.
Defined.


(** ** ScaleFreeBA *)

Lemma row_le_refl r : row_le r r.
Proof. induction r; constructor; [auto | assumption]. Qed.

Lemma row_le_trans r1 r2 r3 : row_le r1 r2 -> row_le r2 r3 -> row_le r1 r3.
Proof.
  intros H12. revert r3.
  induction H12 as [|b1 b2 r1 r2 Hb _ IH]; intros r3 H23; inversion H23; subst;
    constructor; try (apply IH; assumption); auto.
Qed.

Lemma mat_le_refl m : mat_le m m.
Proof. induction m; constructor; [apply row_le_refl | assumption]. Qed.

Lemma mat_le_trans m1 m2 m3 : mat_le m1 m2 -> mat_le m2 m3 -> mat_le m1 m3.
Proof.
  intros H12. revert m3.
  induction H12 as [|a1 a2 m1 m2 Ha _ IH]; intros m3 H23; inversion H23; subst;
    constructor; try (apply IH; assumption); eauto using row_le_trans.
Qed.

Lemma row_le_insert_true r j : row_le r (<[j := true]> r).
Proof.
  revert j. induction r as [|b r IH]; intros j; [constructor|].
  destruct j; simpl; constructor; auto; try apply row_le_refl; apply IH.
Qed.

Lemma mat_le_insert m i r r' : m !! i = Some r -> row_le r r' -> mat_le m (<[i := r']> m).
Proof.
  revert i. induction m as [|r0 m IH]; intros i Hi Hr; [discriminate|].
  destruct i; simpl in *.
  - inversion Hi; subst. constructor; [exact Hr | apply mat_le_refl].
  - constructor; [apply row_le_refl | eapply IH; eassumption].
Qed.

Lemma count_true_cons b r : count_true (b :: r) = ((if b then 1 else 0) + count_true r)%nat.
Proof.
  unfold count_true. destruct b.
  - rewrite filter_cons_True by reflexivity. reflexivity.
  - rewrite filter_cons_False by discriminate. reflexivity.
Qed.

Lemma count_true_mono r r' : row_le r r' -> (count_true r <= count_true r')%nat.
Proof.
  induction 1 as [|b b' r r' Hb _ IH]; [reflexivity|].
  rewrite !count_true_cons. destruct b, b'; try lia; specialize (Hb eq_refl); discriminate.
Qed.

Lemma where_from_length k p : length (where_from k p) = count_true p.
Proof.
  revert k. induction p as [|b p IH]; intros k; [reflexivity|].
  rewrite count_true_cons. simpl. destruct b; simpl; rewrite IH; reflexivity.
Qed.

Lemma where_from_elem k p t :
  p !! t = Some true -> (k + t)%nat ∈ where_from k p.
Proof.
  revert k t. induction p as [|b p IH]; intros k t Ht; [discriminate|].
  destruct t as [|t]; simpl in *.
  - inversion Ht; subst. rewrite Nat.add_0_r. left.
  - replace (k + S t)%nat with (S k + t)%nat by lia.
    destruct b; [right|]; apply IH; exact Ht.
Qed.

(** A row that is True at [k] distinct positions counts at least [k]. *)
Lemma count_true_at_least (r : list bool) (l : list nat) :
  NoDup l -> (forall t, t ∈ l -> r !! t = Some true) ->
  (length l <= count_true r)%nat.
Proof.
  intros Hnd Hall. rewrite <- (where_from_length 0 r).
  apply submseteq_length, NoDup_submseteq; [exact Hnd|].
  intros t Ht. apply (where_from_elem 0 r t). auto.
Qed.

Lemma mat_le_entry m m' i j :
  mat_le m m' -> entry m i j = Some true -> entry m' i j = Some true.
Proof.
  intros Hle. unfold entry. destruct (m !! i) as [r|] eqn:Hr; [|discriminate].
  destruct (Forall2_lookup_l _ _ _ _ _ Hle Hr) as (r' & Hr' & Hrr).
  rewrite Hr'. intros Hj.
  destruct (Forall2_lookup_l _ _ _ _ _ Hrr Hj) as (b' & Hb' & Himp).
  rewrite Hb'. f_equal. auto.
Qed.

Lemma mat_set_true m i j m' :
  mat_set i j true m = Ok m' -> mat_le m m' /\ entry m' i j = Some true.
Proof.
  unfold mat_set. destruct (m !! i) as [r|] eqn:Hr; [|discriminate].
  destruct (decide (j < length r)%nat) as [Hj|]; [|discriminate].
  intros H; inversion H; subst m'. split.
  - eapply mat_le_insert; [exact Hr | apply row_le_insert_true].
  - unfold entry. rewrite list_lookup_insert_eq by (eapply lookup_lt_Some; exact Hr).
    apply list_lookup_insert_eq. exact Hj.
Qed.

Lemma mat_set_pairs_true ijs m m' :
  mat_set_pairs ijs true m = Ok m' ->
  mat_le m m' /\ forall i j, (i, j) ∈ ijs -> entry m' i j = Some true.
Proof.
  revert m. induction ijs as [|[i j] ijs IH]; intros m H; simpl in H.
  - inversion H; subst. split; [apply mat_le_refl|]. intros i j Hin. inversion Hin.
  - destruct (mat_set i j true m) as [m1| |] eqn:H1; try discriminate. simpl in H.
    apply mat_set_true in H1 as [Hle1 He1]. apply IH in H as [Hle2 He2]. split.
    + eapply mat_le_trans; eassumption.
    + intros a b Hin. apply elem_of_cons in Hin as [Heq|Hin].
      * inversion Heq; subst. eapply mat_le_entry; eassumption.
      * apply He2. exact Hin.
Qed.

Lemma fancy_set_mono ii jj m m' : fancy_set ii jj true m = Ok m' -> mat_le m m'.
Proof.
  unfold fancy_set. destruct (broadcast2 ii jj) as [ijs| |]; try discriminate. simpl.
  intros H. apply mat_set_pairs_true in H. tauto.
Qed.

Lemma fancy_set_row (k source : nat) (targets : list nat) (m m' : mat) :
  length targets = k ->
  fancy_set (replicate k source) targets true m = Ok m' ->
  forall t, t ∈ targets -> entry m' source t = Some true.
Proof.
  intros Hlen. unfold fancy_set, broadcast2.
  destruct (decide (length (replicate k source) = length targets)) as [_|Hne];
    [|rewrite length_replicate in Hne; lia].
  simpl. intros H t Ht. apply mat_set_pairs_true in H as [_ H]. apply H.
  apply list_elem_of_lookup in Ht as [n Hn].
  apply list_elem_of_lookup. exists n. apply lookup_zip_with_Some.
  exists source, t. split; [reflexivity|]. split; [|exact Hn].
  apply lookup_replicate_2. apply lookup_lt_Some in Hn. lia.
Qed.

Lemma out_degree_mono m m' i : mat_le m m' -> (out_degree m i <= out_degree m' i)%nat.
Proof.
  intros Hle. unfold out_degree. destruct (m !! i) as [r|] eqn:Hr.
  - destruct (Forall2_lookup_l _ _ _ _ _ Hle Hr) as (r' & Hr' & Hrr).
    rewrite Hr'. simpl. apply count_true_mono. exact Hrr.
  - simpl. unfold count_true. simpl. lia.
Qed.

Lemma out_degree_at_least (m : mat) (source : nat) (targets : list nat) :
  NoDup targets -> (forall t, t ∈ targets -> entry m source t = Some true) ->
  (length targets <= out_degree m source)%nat.
Proof.
  intros Hnd Hall. unfold out_degree. destruct targets as [|t0 ts] eqn:Et; [simpl; lia|].
  rewrite <- Et in *. assert (Ht0 : t0 ∈ targets) by (rewrite Et; left).
  pose proof (Hall t0 Ht0) as H0. unfold entry in *.
  destruct (m !! source) as [r|]; [|discriminate]. simpl.
  apply count_true_at_least; [exact Hnd|]. intros t Ht. apply (Hall t Ht).
Qed.

Lemma rng_choice_elem (h : handle) (a : list nat) (w w' : World) (x : nat) :
  rng_choice h a w = Ok (x, w') -> x ∈ a.
Proof.
  unfold rng_choice. destruct a as [|a0 a']; [discriminate|].
  set (a := a0 :: a'). unfold bind, with_rng.
  destruct (choice_index (length a) (get_rng h w)) as [k s1].
  destruct (a !! k) as [y|] eqn:Hy; [|discriminate].
  unfold ret. intros H; inversion H; subst. eapply list_elem_of_lookup_2. exact Hy.
Qed.

Lemma size_add_le (x : nat) (T : gset nat) : (size ({[x]} ∪ T) <= S (size T))%nat.
Proof.
  rewrite size_union_alt, size_singleton.
  assert (Hs : (size (T ∖ {[x]}) <= size T)%nat).
  { apply subseteq_size, subseteq_difference_l. reflexivity. }
  lia.
Qed.

(** [_random_subset] returns exactly [m] distinct values, each one drawn
    from [seq] or already in the set it started from. *)
Lemma random_subset_exact (fuel : nat) (h : handle) (seq : list nat) (m : nat)
    (T T' : gset nat) (w w' : World) :
  ScaleFreeBA._random_subset fuel h seq m T w = Ok (T', w') ->
  (size T <= m)%nat ->
  size T' = m /\ forall x, x ∈ T' -> x ∈ T \/ x ∈ seq.
Proof.
  revert T w. induction fuel as [|fuel IH]; intros T w H Hsz; simpl in H.
  - destruct (size T <? m)%nat eqn:Hlt; [discriminate|].
    apply Nat.ltb_ge in Hlt. inversion H; subst. split; [lia | auto].
  - destruct (size T <? m)%nat eqn:Hlt.
    + apply Nat.ltb_lt in Hlt. unfold bind in H.
      destruct (rng_choice h seq w) as [[x w1]| |] eqn:Hx; try discriminate.
      apply rng_choice_elem in Hx.
      apply IH in H as [H1 H2].
      * split; [exact H1|]. intros y Hy. destruct (H2 y Hy) as [Hy'|Hy']; [|auto].
        apply elem_of_union in Hy' as [Hy'|Hy']; [|auto].
        apply elem_of_singleton in Hy'. subst. auto.
      * pose proof (size_add_le x T). lia.
    + apply Nat.ltb_ge in Hlt. inversion H; subst. split; [lia | auto].
Qed.

Lemma grow_out_degree (fuel todo : nat) (E : Env) (c : ScaleFreeBA.t) (m source : nat)
    (targets repeated_nodes : list nat) (conn conn' : mat) (w w' : World) :
  ScaleFreeBA.grow fuel todo E c m source targets repeated_nodes conn w = Ok (conn', w') ->
  length targets = m -> NoDup targets ->
  mat_le conn conn'
  /\ forall s, (source <= s < source + todo)%nat -> (m <= out_degree conn' s)%nat.
Proof.
  revert source targets repeated_nodes conn w.
  induction todo as [|todo IH]; intros source targets rep conn w H Hlen Hnd; simpl in H.
  - inversion H; subst. split; [apply mat_le_refl | intros s Hs; lia].
  - unfold bind at 1 in H. unfold lift at 1 in H.
    destruct (fancy_set (replicate m source) targets true conn) as [conn1| |] eqn:H1;
      try discriminate.
    unfold bind at 1 in H.
    assert (Hc2 : exists conn2, mat_le conn1 conn2 /\
              exists w2 chosen,
                ScaleFreeBA._random_subset fuel (closure_rng E)
                  (rep ++ targets ++ replicate m source) m ∅ w = Ok (chosen, w2)
                /\ ScaleFreeBA.grow fuel todo E c m (S source) (elements chosen)
                     (rep ++ targets ++ replicate m source) conn2 w2 = Ok (conn', w')).
    { destruct (ScaleFreeBA.directed c).
      - unfold ret in H. exists conn1. split; [apply mat_le_refl|].
        unfold bind in H.
        destruct (ScaleFreeBA._random_subset _ _ _ _ _ w) as [[chosen w2]| |];
          try discriminate. eauto.
      - unfold lift in H.
        destruct (fancy_set targets (replicate m source) true conn1) as [conn2| |] eqn:H2;
          try discriminate.
        exists conn2. split; [eapply fancy_set_mono; exact H2|].
        unfold bind in H.
        destruct (ScaleFreeBA._random_subset _ _ _ _ _ w) as [[chosen w2]| |];
          try discriminate. eauto. }
    destruct Hc2 as (conn2 & Hle2 & w2 & chosen & Hsub & Hrest).
    apply random_subset_exact in Hsub as [Hsize _]; [|rewrite size_empty; lia].
    apply IH in Hrest as [Hle3 Hdeg]; [| exact Hsize | apply NoDup_elements].
    pose proof (fancy_set_mono _ _ _ _ H1) as Hle1.
    split.
    + eapply mat_le_trans; [exact Hle1|]. eapply mat_le_trans; eassumption.
    + intros s Hs. destruct (decide (s = source)) as [->|Hne].
      * rewrite <- Hlen.
        etransitivity; [apply (out_degree_at_least conn1 source targets Hnd)|].
        -- eapply fancy_set_row; [exact Hlen | exact H1].
        -- apply out_degree_mono. eapply mat_le_trans; eassumption.
      * apply Hdeg. lia.
Qed.

(** C7: ScaleFreeBA(m=2) over 10 nodes, directed or not.  In the matrix
    [build_conn] returns every node of index 2..9 has in-degree plus
    out-degree at least 2: its own step sets two distinct entries of its
    row, and later steps only set entries. *)
Theorem ScaleFreeBA_degree_lower_bound (fuel : nat) (E : Env) (directed : bool)
    (seed : Z) (w : World) (conn : mat) :
  value (ScaleFreeBA.build_conn fuel E (ScaleFreeBA.mk 2 directed seed) 10 10 w) = Ok conn ->
  forall node, (2 <= node < 10)%nat -> (2 <= in_degree conn node + out_degree conn node)%nat.
Proof.
  unfold ScaleFreeBA.build_conn.
  destruct (decide (10 = 10)%nat) as [_|Hne]; [|congruence].
  unfold bind at 1. destruct (reseed_total E w) as [w1 H1]. rewrite H1.
  cbn [ScaleFreeBA.m]. change (Z.to_nat 2) with 2%nat.
  change ((2 <? 1)%Z || (Z.of_nat 10 <=? 2)%Z) with false. cbv iota zeta.
  change (10 - 2)%nat with 8%nat.
  destruct (ScaleFreeBA.grow fuel 8 E _ 2 2 (seq 0 2) [] (full 10 10 false) w1)
    as [[conn' w2]| |] eqn:Hg; try discriminate.
  simpl. intros H; inversion H; subst conn'. intros node Hnode.
  apply grow_out_degree in Hg as [_ Hdeg]; [| reflexivity | apply NoDup_seq].
  specialize (Hdeg node). lia.
Qed.


Lemma ScaleFreeBA_degree_lower_bound_witness :
  (2 <= in_degree sample_ba_graph 5 + out_degree sample_ba_graph 5)%nat.
Proof.
  apply (ScaleFreeBA_degree_lower_bound 40 (sample_env true) true 1
           (fresh (sample_env true) 1 (constant_rng 0) (constant_rng 0))
           sample_ba_graph).
  - vm_compute. reflexivity.
  - lia.
Defined.


(** ** Which generator a build reads *)

Lemma frames_value {A} (t : World -> World) (c : M A) (w : World) :
  frames t c -> value (c (t w)) = value (c w).
Proof. intros H. rewrite H. destruct (c w) as [[a w']| |]; reflexivity. Qed.

Lemma frames_ret {A} (t : World -> World) (a : A) : frames t (ret a).
Proof. intros w. reflexivity. Qed.

Lemma frames_raise {A} (t : World -> World) (e : exn) : frames t (@raise A e).
Proof. intros w. reflexivity. Qed.

Lemma frames_diverge {A} (t : World -> World) : frames t (@diverge A).
Proof. intros w. reflexivity. Qed.

Lemma frames_lift {A} (t : World -> World) (o : outcome A) : frames t (lift o).
Proof. intros w. destruct o; reflexivity. Qed.

Lemma frames_bind {A B} (t : World -> World) (c : M A) (k : A -> M B) :
  frames t c -> (forall a, frames t (k a)) -> frames t (bind c k).
Proof.
  intros Hc Hk w. unfold bind. rewrite Hc.
  destruct (c w) as [[a w']| |]; simpl; [apply Hk | reflexivity | reflexivity].
Qed.

Lemma frames_with_rng {A} (h0 h : handle) (g : RandomState)
    (f : RandomState -> A * RandomState) :
  h <> h0 -> frames (set_rng h0 g) (with_rng h f).
Proof.
  intros Hne w. unfold with_rng.
  assert (Hget : get_rng h (set_rng h0 g w) = get_rng h w)
    by (destruct h, h0; try reflexivity; congruence).
  rewrite Hget. destruct (f (get_rng h w)) as [a s']. simpl.
  destruct h, h0; try reflexivity; congruence.
Qed.

Lemma frames_set_seed (h0 : handle) (g : RandomState) (z : Z) :
  frames (set_rng h0 g) (fun w => Ok (tt, set_seed z w)).
Proof. intros w. destruct h0; reflexivity. Qed.

(** [numba_seed] writes numba's generator, and only under numba. *)
Lemma frames_numba_seed (E : Env) (h0 : handle) (g : RandomState) (z : Z) :
  h0 = NumbaRandom -> SUPPORT_NUMBA E = false ->
  frames (set_rng h0 g) (numba_seed E z).
Proof. intros -> Hn w. unfold numba_seed. rewrite Hn. reflexivity. Qed.

Lemma frames_numba_seed_np (E : Env) (g : RandomState) (z : Z) :
  frames (set_rng NpRandom g) (numba_seed E z).
Proof. intros w. unfold numba_seed. destruct (SUPPORT_NUMBA E); reflexivity. Qed.


Lemma outside_self E h0 : outside E h0 -> SelfRng <> h0.
Proof. intros [->|[-> _]]; discriminate. Qed.

Lemma outside_closure E h0 : outside E h0 -> closure_rng E <> h0.
Proof.
  unfold closure_rng. intros [->|[-> Hn]].
  - destruct (SUPPORT_NUMBA E); discriminate.
  - rewrite Hn. discriminate.
Qed.

Lemma frames_reseed (E : Env) (h0 : handle) (g : RandomState) :
  outside E h0 -> frames (set_rng h0 g) (reseed E).
Proof.
  intros Ho. unfold reseed. apply frames_bind.
  - apply frames_with_rng. eapply outside_self; eassumption.
  - intros z. apply frames_bind; [apply frames_set_seed|]. intros _.
    destruct Ho as [->|[-> Hn]]; [apply frames_numba_seed_np | apply frames_numba_seed; auto].
Qed.

(** Under numba, [reseed] overwrites numba's generator. *)
Lemma reseed_absorbs (E : Env) (nb : RandomState) (w : World) :
  SUPPORT_NUMBA E = true ->
  reseed E (set_rng NumbaRandom nb w) = reseed E w.
Proof.
  intros Hn. unfold reseed, bind, with_rng, numba_seed. simpl. rewrite Hn. reflexivity.
Qed.

Lemma bind_reseed_absorbs {A} (E : Env) (k : unit -> M A) (nb : RandomState) (w : World) :
  SUPPORT_NUMBA E = true ->
  bind (reseed E) k (set_rng NumbaRandom nb w) = bind (reseed E) k w.
Proof. intros Hn. unfold bind. rewrite reseed_absorbs by exact Hn. reflexivity. Qed.

Lemma bind_lift_eq {A B} (o : outcome A) (k : A -> M B) (w : World) :
  bind (lift o) k w = match o with
                      | Ok a => k a w
                      | Raise e => Raise e
                      | Diverge => Diverge
                      end.
Proof. unfold bind, lift. destruct o; reflexivity. Qed.

Ltac frames_step :=
  first
    [ apply frames_ret | apply frames_raise | apply frames_diverge | apply frames_lift
    | apply frames_reseed; assumption
    | apply frames_with_rng;
      first [ assumption | eapply outside_self; eassumption
            | eapply outside_closure; eassumption ]
    | apply frames_bind; [| intros ?]
    | match goal with
      | |- frames _ (if ?b then _ else _) => destruct b
      | |- frames _ (match ?x with _ => _ end) => destruct x
      end ].

Ltac frames_auto := repeat frames_step.

(** Two fresh connectors with the same seed differ at most in the
    generators they do not own; a build that reads neither is a function
    of the seed. *)
Lemma first_build_seeded {A} (E : Env) (c : M A) (seed : Z) :
  (forall g, frames (set_rng NpRandom g) c) ->
  (forall nb w, value (c (set_rng NumbaRandom nb w)) = value (c w)) ->
  forall g nb g' nb',
    value (c (fresh E seed g nb)) = value (c (fresh E seed g' nb')).
Proof.
  intros Hnp Hnb g nb g' nb'.
  change (fresh E seed g nb)
    with (set_rng NpRandom g (set_rng NumbaRandom nb (fresh E seed g' nb'))).
  rewrite (frames_value _ _ _ (Hnp g)). apply Hnb.
Qed.

(** *** ProbDist *)

Lemma frames_visit h0 g c h within zero pre_pos post_pos pre_size post_size acc :
  h <> h0 ->
  frames (set_rng h0 g)
         (ProbDist.visit c h within zero pre_pos post_pos pre_size post_size acc).
Proof. intros Hh. unfold ProbDist.visit. frames_auto. Qed.

Lemma frames_scan t step posts acc :
  (forall p a, frames t (step p a)) -> frames t (ProbDist.scan step posts acc).
Proof.
  intros Hs. revert acc. induction posts as [|p rest IH]; intros acc; simpl.
  - apply frames_ret.
  - apply frames_bind; [apply Hs | intros a; apply IH].
Qed.

Lemma frames_connect_1d E h0 g c pre_pos pre_size post_size n_dim :
  outside E h0 ->
  frames (set_rng h0 g) (ProbDist._connect_1d E c pre_pos pre_size post_size n_dim).
Proof.
  intros Ho. unfold ProbDist._connect_1d. frames_auto.
  apply frames_scan. intros ? ?. apply frames_visit. eapply outside_closure; eassumption.
Qed.

Lemma frames_connect_nd k E h0 g c pre_pos pre_size post_size n_dim :
  outside E h0 -> module_rng E <> h0 ->
  frames (set_rng h0 g) (ProbDist._connect_nd k E c pre_pos pre_size post_size n_dim).
Proof.
  intros Ho Hm. unfold ProbDist._connect_nd. frames_auto.
  apply frames_scan. intros ? ?. apply frames_visit. exact Hm.
Qed.

Lemma frames_ProbDist_connect_all t f pre_size todo i :
  (forall p, frames t (f p)) -> frames t (ProbDist.connect_all f pre_size todo i).
Proof.
  intros Hf. revert i. induction todo as [|todo IH]; intros i; simpl.
  - apply frames_ret.
  - apply frames_bind; [apply Hf | intros r].
    apply frames_bind; [apply IH | intros rest; apply frames_ret].
Qed.

Lemma frames_ProbDist_build_conn E h0 g c pre_size post_size :
  outside E h0 -> module_rng E <> h0 \/ length pre_size = 1%nat ->
  frames (set_rng h0 g) (ProbDist.build_conn E c pre_size post_size).
Proof.
  intros Ho Hm. unfold ProbDist.build_conn.
  destruct (decide (length pre_size = length post_size)); [|apply frames_raise].
  apply frames_bind; [apply frames_reseed; assumption | intros _].
  cbv zeta.
  destruct (length pre_size) as [|[|[|[|[|n]]]]] eqn:Hn; try apply frames_raise;
    apply frames_ProbDist_connect_all; intros p;
    first [ apply frames_connect_1d; assumption
          | apply frames_connect_nd; [assumption | destruct Hm; [assumption | discriminate]] ].
Qed.

(** X21: where the per-edge draw comes from the connector's generator
    (under numba, or for 1-D shapes), the first build of ProbDist is the
    same for two fresh connectors with the same seed, whatever numpy's
    global generator and numba's generator hold when they are created. *)
Theorem ProbDist_first_build_seeded (E : Env) (c : ProbDist.t)
    (pre_size post_size : list nat) (seed : Z) (g nb g' nb' : RandomState) :
  SUPPORT_NUMBA E = true \/ length pre_size = 1%nat ->
  value (ProbDist.build_conn E c pre_size post_size (fresh E seed g nb))
  = value (ProbDist.build_conn E c pre_size post_size (fresh E seed g' nb')).
Proof.
  intros H. apply first_build_seeded.
  - intros g0. apply frames_ProbDist_build_conn; [left; reflexivity|].
    destruct H as [Hn|H1]; [left | right; exact H1].
    unfold module_rng. rewrite Hn. discriminate.
  - intros nb0 w. destruct (SUPPORT_NUMBA E) eqn:Hn.
    + unfold ProbDist.build_conn.
      destruct (decide (length pre_size = length post_size)); [|reflexivity].
      rewrite bind_reseed_absorbs by exact Hn. reflexivity.
    + apply frames_value. apply frames_ProbDist_build_conn.
      * right. split; [reflexivity | exact Hn].
      * left. unfold module_rng. rewrite Hn. discriminate.
Qed.

(** *** The other connectors: the first build is a function of the seed *)

Lemma frames_rng_choice h0 g h a :
  h <> h0 -> frames (set_rng h0 g) (rng_choice h a).
Proof. intros Hh. unfold rng_choice. frames_auto. Qed.

Lemma frames_FixedNum_connect E h0 g c k n i :
  outside E h0 -> frames (set_rng h0 g) (FixedNum._connect E c k n i).
Proof. intros Ho. unfold FixedNum._connect. frames_auto. Qed.

Lemma frames_FixedNum_connect_all E h0 g c k n todo i :
  outside E h0 -> frames (set_rng h0 g) (FixedNum.connect_all E c k n todo i).
Proof.
  intros Ho. revert i. induction todo as [|todo IH]; intros i; simpl.
  - apply frames_ret.
  - apply frames_bind; [apply frames_FixedNum_connect; assumption | intros ids].
    apply frames_bind; [apply IH | intros rest; apply frames_ret].
Qed.

Lemma frames_FixedPreNum_build_conn E h0 g c pre_num post_num :
  outside E h0 -> frames (set_rng h0 g) (FixedPreNum.build_conn E c pre_num post_num).
Proof.
  intros Ho. unfold FixedPreNum.build_conn.
  apply frames_bind; [apply frames_lift | intros num].
  apply frames_bind; [apply frames_reseed; assumption | intros _].
  apply frames_bind; [apply frames_FixedNum_connect_all; assumption | intros ids].
  apply frames_ret.
Qed.

Lemma frames_FixedPostNum_build_conn E h0 g c pre_num post_num :
  outside E h0 -> frames (set_rng h0 g) (FixedPostNum.build_conn E c pre_num post_num).
Proof.
  intros Ho. unfold FixedPostNum.build_conn.
  apply frames_bind; [apply frames_lift | intros num].
  apply frames_bind; [apply frames_reseed; assumption | intros _].
  apply frames_bind; [apply frames_FixedNum_connect_all; assumption | intros ids].
  apply frames_bind; [apply frames_lift | intros ids']. apply frames_ret.
Qed.

Lemma outside_np E : outside E NpRandom.
Proof. left. reflexivity. Qed.

Lemma outside_numba E : SUPPORT_NUMBA E = false -> outside E NumbaRandom.
Proof. right. split; [reflexivity | assumption]. Qed.

Theorem FixedPreNum_first_build_seeded (E : Env) (c : FixedNum.t) (pre_num post_num : nat)
    (seed : Z) (g nb g' nb' : RandomState) :
  value (FixedPreNum.build_conn E c pre_num post_num (fresh E seed g nb))
  = value (FixedPreNum.build_conn E c pre_num post_num (fresh E seed g' nb')).
Proof.
  apply first_build_seeded.
  - intros g0. apply frames_FixedPreNum_build_conn, outside_np.
  - intros nb0 w. destruct (SUPPORT_NUMBA E) eqn:Hn.
    + unfold FixedPreNum.build_conn.
      rewrite !bind_lift_eq.
      destruct (FixedNum.check_num c pre_num) as [num| |]; try reflexivity.
      rewrite bind_reseed_absorbs by exact Hn. reflexivity.
    + apply frames_value, frames_FixedPreNum_build_conn, outside_numba, Hn.
Qed.

Theorem FixedPostNum_first_build_seeded (E : Env) (c : FixedNum.t) (pre_num post_num : nat)
    (seed : Z) (g nb g' nb' : RandomState) :
  value (FixedPostNum.build_conn E c pre_num post_num (fresh E seed g nb))
  = value (FixedPostNum.build_conn E c pre_num post_num (fresh E seed g' nb')).
Proof.
  apply first_build_seeded.
  - intros g0. apply frames_FixedPostNum_build_conn, outside_np.
  - intros nb0 w. destruct (SUPPORT_NUMBA E) eqn:Hn.
    + unfold FixedPostNum.build_conn.
      rewrite !bind_lift_eq.
      destruct (FixedNum.check_num c post_num) as [num| |]; try reflexivity.
      rewrite bind_reseed_absorbs by exact Hn. reflexivity.
    + apply frames_value, frames_FixedPostNum_build_conn, outside_numba, Hn.
Qed.

Lemma frames_redraw fuel h0 g h c i non_connected w0 :
  h <> h0 -> frames (set_rng h0 g) (SmallWorld.redraw fuel h c i non_connected w0).
Proof.
  intros Hh. revert w0. induction fuel as [|fuel IH]; intros w0; simpl.
  - frames_auto.
  - destruct (negb (SmallWorld.include_self c) && (w0 =? i)%nat); [|apply frames_ret].
    apply frames_bind; [apply frames_rng_choice; assumption | intros w1; apply IH].
Qed.

Lemma frames_smallworld_rewire fuel h0 g h c i all_j :
  h <> h0 -> frames (set_rng h0 g) (SmallWorld._smallworld_rewire fuel h c i all_j).
Proof.
  intros Hh. unfold SmallWorld._smallworld_rewire.
  apply frames_bind; [apply frames_with_rng; assumption | intros u].
  destruct (Qlt_bool u (SmallWorld.prob c)); [|apply frames_ret].
  destruct (length _ <=? 1)%nat; [apply frames_ret|].
  apply frames_bind; [apply frames_rng_choice; assumption | intros w1].
  apply frames_bind; [apply frames_redraw; assumption | intros w2; apply frames_ret].
Qed.

Lemma frames_rewire_edge fuel E h0 g c u v conn :
  outside E h0 -> frames (set_rng h0 g) (SmallWorld.rewire_edge fuel E c u v conn).
Proof.
  intros Ho. unfold SmallWorld.rewire_edge.
  destruct (SmallWorld.directed c); [apply frames_raise|].
  apply frames_bind.
  - apply frames_smallworld_rewire. eapply outside_closure; eassumption.
  - intros w1. destruct (w1 =? -1)%Z; [apply frames_ret | apply frames_lift].
Qed.

Lemma frames_rewire_nodes fuel E h0 g c uvs conn :
  outside E h0 -> frames (set_rng h0 g) (SmallWorld.rewire_nodes fuel E c uvs conn).
Proof.
  intros Ho. revert conn. induction uvs as [|[u v] rest IH]; intros conn; simpl.
  - apply frames_ret.
  - apply frames_bind; [apply frames_rewire_edge; assumption | intros conn1; apply IH].
Qed.

Lemma frames_rewire fuel E h0 g c js nodes conn :
  outside E h0 -> frames (set_rng h0 g) (SmallWorld.rewire fuel E c js nodes conn).
Proof.
  intros Ho. revert conn. induction js as [|j js IH]; intros conn; simpl.
  - apply frames_ret.
  - apply frames_bind; [apply frames_rewire_nodes; assumption | intros conn1; apply IH].
Qed.

Lemma frames_SmallWorld_build_conn fuel E h0 g c pre_size post_size :
  outside E h0 ->
  frames (set_rng h0 g) (SmallWorld.build_conn fuel E c pre_size post_size).
Proof.
  intros Ho. unfold SmallWorld.build_conn.
  destruct (decide (pre_size = post_size)); [|apply frames_raise].
  apply frames_bind; [apply frames_reseed; assumption | intros _].
  destruct (SmallWorld.one_dim pre_size); [|apply frames_raise]. cbv zeta.
  destruct (_ <? _)%Z; [apply frames_raise|].
  destruct (_ =? _)%Z; [apply frames_ret|].
  apply frames_bind; [apply frames_lift | intros conn].
  apply frames_rewire. assumption.
Qed.

Theorem SmallWorld_first_build_seeded (fuel : nat) (E : Env) (c : SmallWorld.t)
    (pre_size post_size : size_t) (seed : Z) (g nb g' nb' : RandomState) :
  value (SmallWorld.build_conn fuel E c pre_size post_size (fresh E seed g nb))
  = value (SmallWorld.build_conn fuel E c pre_size post_size (fresh E seed g' nb')).
Proof.
  apply first_build_seeded.
  - intros g0. apply frames_SmallWorld_build_conn, outside_np.
  - intros nb0 w. destruct (SUPPORT_NUMBA E) eqn:Hn.
    + unfold SmallWorld.build_conn.
      destruct (decide (pre_size = post_size)); [|reflexivity].
      rewrite bind_reseed_absorbs by exact Hn. reflexivity.
    + apply frames_value, frames_SmallWorld_build_conn, outside_numba, Hn.
Qed.

Lemma frames_random_subset fuel h0 g h seq m T :
  h <> h0 -> frames (set_rng h0 g) (ScaleFreeBA._random_subset fuel h seq m T).
Proof.
  intros Hh. revert T. induction fuel as [|fuel IH]; intros T; simpl.
  - frames_auto.
  - destruct (size T <? m)%nat; [|apply frames_ret].
    apply frames_bind; [apply frames_rng_choice; assumption | intros x; apply IH].
Qed.

Lemma frames_grow fuel todo E h0 g c m source targets repeated_nodes conn :
  outside E h0 ->
  frames (set_rng h0 g)
         (ScaleFreeBA.grow fuel todo E c m source targets repeated_nodes conn).
Proof.
  intros Ho. revert source targets repeated_nodes conn.
  induction todo as [|todo IH]; intros source targets rep conn; simpl.
  - apply frames_ret.
  - apply frames_bind; [apply frames_lift | intros conn1].
    apply frames_bind.
    + destruct (ScaleFreeBA.directed c); [apply frames_ret | apply frames_lift].
    + intros conn2. apply frames_bind.
      * apply frames_random_subset. eapply outside_closure; eassumption.
      * intros chosen. apply IH.
Qed.

Lemma frames_ScaleFreeBA_build_conn fuel E h0 g c pre_num post_num :
  outside E h0 ->
  frames (set_rng h0 g) (ScaleFreeBA.build_conn fuel E c pre_num post_num).
Proof.
  intros Ho. unfold ScaleFreeBA.build_conn.
  destruct (decide (pre_num = post_num)); [|apply frames_raise].
  apply frames_bind; [apply frames_reseed; assumption | intros _]. cbv zeta.
  destruct (_ || _); [apply frames_raise | apply frames_grow; assumption].
Qed.

Theorem ScaleFreeBA_first_build_seeded (fuel : nat) (E : Env) (c : ScaleFreeBA.t)
    (pre_num post_num : nat) (seed : Z) (g nb g' nb' : RandomState) :
  value (ScaleFreeBA.build_conn fuel E c pre_num post_num (fresh E seed g nb))
  = value (ScaleFreeBA.build_conn fuel E c pre_num post_num (fresh E seed g' nb')).
Proof.
  apply first_build_seeded.
  - intros g0. apply frames_ScaleFreeBA_build_conn, outside_np.
  - intros nb0 w. destruct (SUPPORT_NUMBA E) eqn:Hn.
    + unfold ScaleFreeBA.build_conn.
      destruct (decide (pre_num = post_num)); [|reflexivity].
      rewrite bind_reseed_absorbs by exact Hn. reflexivity.
    + apply frames_value, frames_ScaleFreeBA_build_conn, outside_numba, Hn.
Qed.

Theorem GaussianProb_first_build_seeded (E : Env) (F : Numeric) (c : GaussianProb.t)
    (pre_size : list nat) (seed : Z) (g nb g' nb' : RandomState) :
  value (GaussianProb.build_conn F c pre_size (fresh E seed g nb))
  = value (GaussianProb.build_conn F c pre_size (fresh E seed g' nb')).
Proof.
  assert (Hf : forall h0 g0, h0 <> SelfRng ->
                 frames (set_rng h0 g0) (GaussianProb.build_conn F c pre_size)).
  { intros h0 g0 Hh. unfold GaussianProb.build_conn.
    apply frames_bind; [apply frames_lift | intros ranges]. cbv zeta.
    destruct (decide _); [apply frames_raise|].
    apply frames_bind; [apply frames_with_rng; congruence | intros draws].
    apply frames_ret. }
  apply first_build_seeded.
  - intros g0. apply Hf. discriminate.
  - intros nb0 w. apply frames_value, Hf. discriminate.
Qed.

Theorem FixedProb_build_mat_first_build_seeded (E : Env) (c : FixedProb.t)
    (pre_num post_num : nat) (seed : Z) (g nb g' nb' : RandomState) :
  value (FixedProb.build_mat c pre_num post_num (fresh E seed g nb))
  = value (FixedProb.build_mat c pre_num post_num (fresh E seed g' nb')).
Proof.
  assert (Hf : forall h0 g0, h0 <> SelfRng ->
                 frames (set_rng h0 g0) (FixedProb.build_mat c pre_num post_num)).
  { intros h0 g0 Hh. unfold FixedProb.build_mat.
    apply frames_bind; [apply frames_with_rng; congruence | intros pre_draws]. cbv zeta.
    apply frames_bind; [apply frames_with_rng; congruence | intros draws].
    apply frames_ret. }
  apply first_build_seeded.
  - intros g0. apply Hf. discriminate.
  - intros nb0 w. apply frames_value, Hf. discriminate.
Qed.

(** [FixedProb.build_conn] reseeds numba's generator, or draws from a
    generator of its own: its result depends on the seed alone. *)
Theorem FixedProb_build_conn_seeded (E : Env) (c : FixedProb.t)
    (pre_num post_num : nat) (w w' : World) :
  value (FixedProb.build_conn E c pre_num post_num w)
  = value (FixedProb.build_conn E c pre_num post_num w').
Proof.
  unfold FixedProb.build_conn. destruct (SUPPORT_NUMBA E) eqn:Hn.
  - unfold bind, numba_seed, with_rng, ret. rewrite Hn. simpl.
    destruct (FixedProb.connect_rows c pre_num 0 post_num (seeded E (FixedProb.seed c)))
      as [r s']. reflexivity.
  - destruct (FixedProb.connect_rows c pre_num 0 post_num (seeded E (FixedProb.seed c)))
      as [r s']. reflexivity.
Qed.

(** ** FixedProb at the ends of the probability range *)

Lemma random_n_range (n : nat) (s : RandomState) :
  unit_interval s ->
  Forall (fun x => (0 <= x)%Q /\ (x < 1)%Q) (fst (random_n n s)).
Proof.
  intros Hs. revert s Hs. induction n as [|n IH]; intros s Hs; simpl; [constructor|].
  specialize (IH (mkRandomState (src s) (S (pos s))) Hs).
  destruct (random_n n _) as [xs s2]. simpl in *. constructor; [apply Hs | exact IH].
Qed.

Lemma random_mat_range (rows cols : nat) (s : RandomState) :
  unit_interval s ->
  Forall (Forall (fun x => (0 <= x)%Q /\ (x < 1)%Q)) (fst (random_mat rows cols s)).
Proof.
  revert s. induction rows as [|rows IH]; intros s Hs; simpl; [constructor|].
  pose proof (random_n_range cols s Hs) as Hr.
  pose proof (random_n_unit cols s Hs) as Hu.
  destruct (random_n cols s) as [r s1]. specialize (IH s1 Hu).
  destruct (random_mat rows cols s1) as [rs s2]. simpl in *. constructor; assumption.
Qed.

Lemma random_mat_unit (rows cols : nat) (s : RandomState) :
  unit_interval s -> unit_interval (snd (random_mat rows cols s)).
Proof.
  revert s. induction rows as [|rows IH]; intros s Hs; simpl; [assumption|].
  pose proof (random_n_unit cols s Hs) as Hu.
  destruct (random_n cols s) as [r s1]. specialize (IH s1 Hu).
  destruct (random_mat rows cols s1) as [rs s2]. simpl in *. assumption.
Qed.

Lemma Qlt_bool_true_of_lt (u p : Q) : (u < p)%Q -> Qlt_bool u p = true.
Proof.
  intros H. unfold Qlt_bool. destruct (Qle_bool p u) eqn:Hle; [|reflexivity].
  apply Qle_bool_iff in Hle. exfalso. eapply Qlt_not_le; eassumption.
Qed.

Lemma where_from_all_true (k n : nat) : where_from k (replicate n true) = seq k n.
Proof.
  revert k. induction n as [|n IH]; intros k; simpl; [reflexivity|]. f_equal. apply IH.
Qed.

Lemma map_all {A B} (f : A -> B) (b : B) (l : list A) :
  Forall (fun x => f x = b) l -> map f l = replicate (length l) b.
Proof. induction 1 as [|x l Hx _ IH]; simpl; [reflexivity|]. rewrite Hx, IH. reflexivity. Qed.

(** With [prob = 1], [pre_ratio = 1] and [include_self = True] every row
    of [build_conn] holds every post index. *)
Lemma f_connect_complete (c : FixedProb.t) (pre_i num_post : nat) (s : RandomState) :
  FixedProb.prob c = 1%Q -> FixedProb.pre_ratio c = 1%Q ->
  FixedProb.include_self c = true -> unit_interval s ->
  fst (FixedProb.f_connect c pre_i num_post s) = Some (seq 0 num_post)
  /\ unit_interval (snd (FixedProb.f_connect c pre_i num_post s)).
Proof.
  intros Hp Hr Hi Hs. unfold FixedProb.f_connect. simpl.
  rewrite Hr, Hp, Hi. rewrite Qlt_bool_true_of_lt by apply Hs.
  pose proof (random_n_range num_post (mkRandomState (src s) (S (pos s))) Hs) as Hx.
  pose proof (random_n_length num_post (mkRandomState (src s) (S (pos s)))) as Hl.
  pose proof (random_n_unit num_post (mkRandomState (src s) (S (pos s))) Hs) as Hu.
  destruct (random_n num_post _) as [xs s2]. simpl in *. split; [|exact Hu].
  f_equal. rewrite (map_all _ true).
  - rewrite Hl. apply where_from_all_true.
  - eapply Forall_impl; [exact Hx|]. intros x [_ H1]. simpl.
    apply Qle_bool_iff. apply Qlt_le_weak. exact H1.
Qed.

Lemma connect_rows_complete (c : FixedProb.t) (todo i post_num : nat) (s : RandomState) :
  FixedProb.prob c = 1%Q -> FixedProb.pre_ratio c = 1%Q ->
  FixedProb.include_self c = true -> unit_interval s ->
  fst (FixedProb.connect_rows c todo i post_num s)
  = (replicate todo (seq 0 post_num), replicate todo post_num).
Proof.
  intros Hp Hr Hi. revert i s. induction todo as [|todo IH]; intros i s Hs; simpl.
  - reflexivity.
  - destruct (f_connect_complete c i post_num s Hp Hr Hi Hs) as [H1 H2].
    destruct (FixedProb.f_connect c i post_num s) as [posts s1]. simpl in *. subst posts.
    specialize (IH (S i) s1 H2).
    destruct (FixedProb.connect_rows c todo (S i) post_num s1) as [[ind count] s2].
    simpl in *. inversion IH; subst. rewrite length_seq. reflexivity.
Qed.

(** X12: FixedProb(prob=1, pre_ratio=1, include_self=True) connects every
    pre node to every post node in [build_conn]: draws of [0, 1) pass both
    the strict pre_ratio test and the prob test. *)
Theorem FixedProb_build_conn_complete (E : Env) (seed : Z) (pre_num post_num : nat)
    (w : World) :
  Env_ok E ->
  value (FixedProb.build_conn E (FixedProb.mk 1 1 true seed) pre_num post_num w)
  = Ok (concat (replicate pre_num (seq 0 post_num)),
        indptr_of (replicate pre_num post_num)).
Proof.
  intros HE. unfold FixedProb.build_conn.
  pose proof (connect_rows_complete (FixedProb.mk 1 1 true seed) pre_num 0 post_num
                (seeded E seed) eq_refl eq_refl eq_refl (HE seed)) as Hrows.
  destruct (SUPPORT_NUMBA E) eqn:Hn.
  - unfold bind, numba_seed, with_rng, ret. rewrite Hn. simpl.
    destruct (FixedProb.connect_rows _ pre_num 0 post_num (seeded E seed)) as [r s'].
    simpl in *. subst r. reflexivity.
  - simpl. destruct (FixedProb.connect_rows _ pre_num 0 post_num (seeded E seed)) as [r s'].
    simpl in *. subst r. reflexivity.
Qed.

(** Every ordered pair is an edge of that CSR pair. *)
Lemma complete_csr_row (pre_num post_num i : nat) :
  (i < pre_num)%nat ->
  csr_row (concat (replicate pre_num (seq 0 post_num)))
          (indptr_of (replicate pre_num post_num)) i = seq 0 post_num.
Proof.
  intros Hi.
  rewrite <- (length_replicate pre_num (seq 0 post_num)) at 2.
  apply csr_row_uniform.
  - apply Forall_replicate. apply length_seq.
  - apply lookup_replicate_2. exact Hi.
Qed.

Lemma zip_with_rows_const {A} (f : A -> bool -> bool) (b : bool) (st : bool)
    (draws : list (list A)) (cols : nat) :
  Forall (fun r => length r = cols /\ Forall (fun x => f x st = b) r) draws ->
  zip_with (fun r st => map (fun x => f x st) r) draws (replicate (length draws) st)
  = replicate (length draws) (replicate cols b).
Proof.
  induction 1 as [|r draws [Hlen Hr] _ IH]; simpl; [reflexivity|].
  rewrite IH. f_equal. rewrite (map_all _ b) by exact Hr. rewrite Hlen. reflexivity.
Qed.

(** X13: [build_mat] of FixedProb(prob=1, pre_ratio=1, include_self=True)
    returns the all-True pre_num x post_num matrix, for every generator
    drawing from [0, 1). *)
Theorem FixedProb_build_mat_complete (seed : Z) (pre_num post_num : nat) (w : World) :
  World_ok w ->
  value (FixedProb.build_mat (FixedProb.mk 1 1 true seed) pre_num post_num w)
  = Ok (full pre_num post_num true).
Proof.
  intros (Hs & _ & _). unfold FixedProb.build_mat, bind, with_rng, ret. simpl.
  pose proof (random_n_range pre_num (self_rng w) Hs) as Hp.
  pose proof (random_n_length pre_num (self_rng w)) as Hl.
  pose proof (random_n_unit pre_num (self_rng w) Hs) as Hu.
  destruct (random_n pre_num (self_rng w)) as [pre_draws s1]. simpl in *.
  pose proof (random_mat_range pre_num post_num s1 Hu) as Hm.
  pose proof (random_mat_shape pre_num post_num s1) as [Hrows Hcols].
  destruct (random_mat pre_num post_num s1) as [draws s2]. simpl in *.
  f_equal. unfold full.
  rewrite (map_all _ true pre_draws).
  - rewrite Hl, <- Hrows. apply (zip_with_rows_const (fun x st => Qlt_bool x 1 && st)).
    apply Forall_forall. intros r Hr. split.
    + eapply Forall_forall in Hcols; [exact Hcols | exact Hr].
    + eapply Forall_forall in Hm; [|exact Hr]. eapply Forall_impl; [exact Hm|].
      intros x [_ H1]. simpl. rewrite Qlt_bool_true_of_lt by exact H1. reflexivity.
  - eapply Forall_impl; [exact Hp|]. intros x [_ H1]. simpl.
    apply Qlt_bool_true_of_lt. exact H1.
Qed.

Lemma fill_diagonal_from_all_false (k : nat) (m : mat) :
  Forall (Forall (fun b => b = false)) m ->
  Forall (Forall (fun b => b = false)) (fill_diagonal_from k m).
Proof.
  intros H. revert k. induction H as [|r m Hr _ IH]; intros k; simpl; constructor.
  - apply Forall_insert; [exact Hr | reflexivity].
  - apply IH.
Qed.

Lemma count_true_all_false (r : list bool) :
  Forall (fun b => b = false) r -> count_true r = 0%nat.
Proof.
  induction 1 as [|b r Hb _ IH]; [reflexivity|]. rewrite count_true_cons, IH, Hb. reflexivity.
Qed.

Lemma mat_edges_all_false (m : mat) :
  Forall (Forall (fun b => b = false)) m -> mat_edges m = 0%nat.
Proof.
  unfold mat_edges. induction 1 as [|r m Hr _ IH]; [reflexivity|]. simpl.
  rewrite count_true_all_false by exact Hr. exact IH.
Qed.

(** X14: [build_mat] tests [draw < prob]: with [prob = 0] it yields no
    edge, whatever pre_ratio, include_self and the draws are. *)
Theorem FixedProb_build_mat_prob0 (pre_ratio : Q) (include_self : bool) (seed : Z)
    (pre_num post_num : nat) (w : World) :
  World_ok w ->
  exists conn,
    value (FixedProb.build_mat (FixedProb.mk 0 pre_ratio include_self seed)
             pre_num post_num w) = Ok conn
    /\ mat_edges conn = 0%nat.
Proof.
  intros (Hs & _ & _). unfold FixedProb.build_mat, bind, with_rng, ret. simpl.
  pose proof (random_n_unit pre_num (self_rng w) Hs) as Hu.
  destruct (random_n pre_num (self_rng w)) as [pre_draws s1]. simpl in *.
  pose proof (random_mat_range pre_num post_num s1 Hu) as Hm.
  destruct (random_mat pre_num post_num s1) as [draws s2]. simpl in *.
  eexists. split; [reflexivity|]. apply mat_edges_all_false.
  assert (Hall : Forall (Forall (fun b => b = false))
            (zip_with (fun r st => map (fun x => Qlt_bool x 0 && st) r) draws
               (map (fun x => Qlt_bool x pre_ratio) pre_draws))).
  { generalize (map (fun x => Qlt_bool x pre_ratio) pre_draws) as sts.
    induction Hm as [|r draws Hr _ IH]; intros sts; [constructor|].
    destruct sts as [|st sts]; simpl; constructor; [|apply IH].
    apply Forall_map. eapply Forall_impl; [exact Hr|]. intros x [H0 _]. simpl.
    rewrite Qlt_bool_false_of_le by exact H0. reflexivity. }
  destruct include_self; [exact Hall|]. apply fill_diagonal_from_all_false. exact Hall.
Qed.


Lemma random_n_positive (n : nat) (s : RandomState) :
  positive_draws s ->
  Forall (fun x => (0 < x)%Q) (fst (random_n n s))
  /\ positive_draws (snd (random_n n s)).
Proof.
  revert s. induction n as [|n IH]; intros s Hs; simpl; [split; [constructor | exact Hs]|].
  destruct (IH (mkRandomState (src s) (S (pos s))) Hs) as [H1 H2].
  destruct (random_n n _) as [xs s2]. simpl in *.
  split; [constructor; [apply Hs | exact H1] | exact H2].
Qed.

Lemma where_from_all_false (k : nat) (p : list bool) :
  Forall (fun b => b = false) p -> where_from k p = [].
Proof.
  intros H. revert k. induction H as [|b p Hb _ IH]; intros k; simpl; [reflexivity|].
  rewrite Hb. apply IH.
Qed.

Lemma f_connect_prob0 (c : FixedProb.t) (pre_i num_post : nat) (s : RandomState) :
  FixedProb.prob c = 0%Q -> positive_draws s ->
  (fst (FixedProb.f_connect c pre_i num_post s) = None
   \/ fst (FixedProb.f_connect c pre_i num_post s) = Some [])
  /\ positive_draws (snd (FixedProb.f_connect c pre_i num_post s)).
Proof.
  intros Hp Hs. unfold FixedProb.f_connect. simpl.
  destruct (Qlt_bool _ _); [|split; [left; reflexivity | exact Hs]].
  destruct (random_n_positive num_post (mkRandomState (src s) (S (pos s))) Hs) as [H1 H2].
  destruct (random_n num_post _) as [xs s2]. simpl in *. split; [right | exact H2].
  f_equal. apply where_from_all_false.
  assert (Hall : Forall (fun b => b = false) (map (fun x => Qle_bool x (FixedProb.prob c)) xs)).
  { apply Forall_map. eapply Forall_impl; [exact H1|]. intros x Hx. simpl. rewrite Hp.
    destruct (Qle_bool x 0) eqn:Hle; [|reflexivity].
    apply Qle_bool_iff in Hle. exfalso. eapply Qlt_not_le; eassumption. }
  destruct (negb _ && _); [apply Forall_insert; [exact Hall | reflexivity] | exact Hall].
Qed.

Lemma connect_rows_prob0 (c : FixedProb.t) (todo i post_num : nat) (s : RandomState) :
  FixedProb.prob c = 0%Q -> positive_draws s ->
  concat (fst (fst (FixedProb.connect_rows c todo i post_num s))) = [].
Proof.
  intros Hp. revert i s. induction todo as [|todo IH]; intros i s Hs; simpl; [reflexivity|].
  destruct (f_connect_prob0 c i post_num s Hp Hs) as [H1 H2].
  destruct (FixedProb.f_connect c i post_num s) as [posts s1]. simpl in *.
  specialize (IH (S i) s1 H2).
  destruct (FixedProb.connect_rows c todo (S i) post_num s1) as [[ind count] s2].
  simpl in *. destruct H1 as [->| ->]; simpl; exact IH.
Qed.

(** X15: [build_conn] tests [draw <= prob]: with [prob = 0] it yields no
    edge as long as no draw is exactly 0. *)
Theorem FixedProb_build_conn_prob0_positive (E : Env) (pre_ratio : Q)
    (include_self : bool) (seed : Z) (pre_num post_num : nat) (w : World) :
  positive_draws (seeded E seed) ->
  exists r,
    value (FixedProb.build_conn E (FixedProb.mk 0 pre_ratio include_self seed)
             pre_num post_num w) = Ok r
    /\ csr_edges r = 0%nat.
Proof.
  intros Hs. unfold FixedProb.build_conn.
  pose proof (connect_rows_prob0 (FixedProb.mk 0 pre_ratio include_self seed) pre_num 0
                post_num (seeded E seed) eq_refl Hs) as Hrows.
  destruct (SUPPORT_NUMBA E) eqn:Hn.
  - unfold bind, numba_seed, with_rng, ret. rewrite Hn. simpl.
    destruct (FixedProb.connect_rows _ pre_num 0 post_num (seeded E seed)) as [r s'].
    simpl in *. eexists. split; [reflexivity|]. unfold csr_edges, FixedProb.csr_of_rows.
    simpl. rewrite Hrows. reflexivity.
  - simpl. destruct (FixedProb.connect_rows _ pre_num 0 post_num (seeded E seed)) as [r s'].
    simpl in *. eexists. split; [reflexivity|]. unfold csr_edges, FixedProb.csr_of_rows.
    simpl. rewrite Hrows. reflexivity.
Qed.


(** *** ProbDist with [prob = 1]: the distance test alone decides *)

Lemma bind_ok {A B} (c : M A) (k : A -> M B) (w w' : World) (a : A) :
  c w = Ok (a, w') -> bind c k w = k a w'.
Proof. intros H. unfold bind. rewrite H. reflexivity. Qed.

Lemma draw_ok (h : handle) (w : World) :
  World_ok w ->
  exists u w', with_rng h random w = Ok (u, w') /\ World_ok w'
               /\ (0 <= u)%Q /\ (u < 1)%Q.
Proof.
  intros Hw. pose proof (get_rng_ok h w Hw) as Hs.
  unfold with_rng. simpl. eexists _, _. split; [reflexivity|]. split.
  - apply set_rng_ok; [exact Hw | intros n; apply (Hs n)].
  - apply Hs.
Qed.

Lemma visit_sure (c : ProbDist.t) (h : handle) (pre_pos post_pos pre_size post_size : list nat)
    (acc : list nat * list nat) (w : World) :
  ProbDist.prob c = 1%Q -> World_ok w ->
  exists w',
    ProbDist.visit c h
      (Qle_bool (inject_Z (ProbDist.manhattan pre_pos post_pos)) (ProbDist.dist c))
      (ProbDist.manhattan pre_pos post_pos =? 0)%Z
      pre_pos post_pos pre_size post_size acc w
    = Ok (sure_visit c pre_pos pre_size post_size acc post_pos, w')
    /\ World_ok w'.
Proof.
  intros Hp Hw. unfold ProbDist.visit, sure_visit. cbv zeta.
  destruct (Qle_bool _ (ProbDist.dist c)); simpl; [|exists w; split; [reflexivity | exact Hw]].
  destruct ((_ =? 0)%Z && negb (ProbDist.include_self c)); simpl;
    [exists w; split; [reflexivity | exact Hw]|].
  destruct (draw_ok h w Hw) as (u & w' & Hd & Hw' & _ & Hu1).
  unfold bind. rewrite Hd. rewrite Hp.
  replace (Qle_bool u 1) with true
    by (symmetry; apply Qle_bool_iff, Qlt_le_weak; exact Hu1).
  exists w'. split; [reflexivity | exact Hw'].
Qed.

Lemma scan_sure (c : ProbDist.t) (h : handle) (pre_pos pre_size post_size : list nat)
    (posts : list (list nat)) (acc : list nat * list nat) (w : World) :
  ProbDist.prob c = 1%Q -> World_ok w ->
  exists w',
    ProbDist.scan
      (fun post_pos =>
         let d := ProbDist.manhattan pre_pos post_pos in
         ProbDist.visit c h (Qle_bool (inject_Z d) (ProbDist.dist c)) (d =? 0)%Z
                        pre_pos post_pos pre_size post_size)
      posts acc w
    = Ok (foldl (sure_visit c pre_pos pre_size post_size) acc posts, w')
    /\ World_ok w'.
Proof.
  intros Hp. revert acc w. induction posts as [|p rest IH]; intros acc w Hw; simpl.
  - exists w. split; [reflexivity | exact Hw].
  - unfold bind at 1.
    destruct (visit_sure c h pre_pos p pre_size post_size acc w Hp Hw) as (w1 & H1 & Hw1).
    rewrite H1. apply IH. exact Hw1.
Qed.

Lemma connect_1d_sure (E : Env) (c : ProbDist.t) (pre_pos pre_size post_size : list nat)
    (n_dim : nat) (w : World) :
  ProbDist.prob c = 1%Q -> ProbDist.pre_ratio c = 1%Q -> World_ok w ->
  exists w',
    ProbDist._connect_1d E c pre_pos pre_size post_size n_dim w
    = Ok (sure_connect_1d c pre_pos pre_size post_size, w')
    /\ World_ok w'.
Proof.
  intros Hp Hr Hw. unfold ProbDist._connect_1d.
  destruct (draw_ok (closure_rng E) w Hw) as (u & w1 & Hd & Hw1 & _ & Hu1).
  unfold bind at 1. rewrite Hd. rewrite Hr.
  rewrite Qlt_bool_true_of_lt by exact Hu1. cbv zeta.
  apply scan_sure; assumption.
Qed.

Lemma connect_all_sure (E : Env) (c : ProbDist.t) (pre_size post_size : list nat)
    (n_dim todo i : nat) (w : World) :
  ProbDist.prob c = 1%Q -> ProbDist.pre_ratio c = 1%Q -> World_ok w ->
  exists w',
    ProbDist.connect_all
      (fun pre_pos => ProbDist._connect_1d E c pre_pos pre_size post_size n_dim)
      pre_size todo i w
    = Ok (sure_connect_all c pre_size post_size todo i, w')
    /\ World_ok w'.
Proof.
  intros Hp Hr. revert i w. induction todo as [|todo IH]; intros i w Hw; simpl.
  - exists w. split; [reflexivity | exact Hw].
  - unfold bind at 1.
    destruct (connect_1d_sure E c (unravel pre_size i) pre_size post_size n_dim w Hp Hr Hw)
      as (w1 & H1 & Hw1).
    rewrite H1. unfold bind at 1.
    destruct (IH (S i) w1 Hw1) as (w2 & H2 & Hw2). rewrite H2.
    exists w2. split; [reflexivity | exact Hw2].
Qed.

(** For every generator, the 1-D build with [prob = 1] and [pre_ratio = 1]
    returns the pairs whose raw Manhattan distance is within [dist]. *)
Theorem ProbDist_1d_sure (E : Env) (c : ProbDist.t) (pre_len post_len : nat) (w : World) :
  ProbDist.prob c = 1%Q -> ProbDist.pre_ratio c = 1%Q -> Env_ok E -> World_ok w ->
  value (ProbDist.build_conn E c [pre_len] [post_len] w)
  = Ok (sure_connect_all c [pre_len] [post_len] (prod_list [pre_len]) 0).
Proof.
  intros Hp Hr HE Hw. unfold ProbDist.build_conn.
  destruct (decide (length [pre_len] = length [post_len])) as [_|Hne];
    [|exfalso; apply Hne; reflexivity].
  destruct (reseed_ok E w HE Hw) as (w1 & H1 & Hw1).
  rewrite (bind_ok _ _ _ _ _ H1). cbn [length]. cbv zeta iota.
  destruct (connect_all_sure E c [pre_len] [post_len] 1 (prod_list [pre_len]) 0 w1 Hp Hr Hw1)
    as (w2 & H2 & _).
  rewrite H2. reflexivity.
Qed.

(** The edges at pre_size=(2,), post_size=(4,), dist=0: (0,0) and (1,1). *)
Lemma ProbDist_1d_sure_2_4 (E : Env) (seed : Z) (w : World) :
  Env_ok E -> World_ok w ->
  value (ProbDist.build_conn E (ProbDist.mk 0 1 1 seed true) [2%nat] [4%nat] w)
  = Ok ([0%nat; 1%nat], [0%nat; 1%nat]).
Proof.
  intros HE Hw. rewrite ProbDist_1d_sure by (assumption || reflexivity).
  vm_compute. reflexivity.
Qed.

(** C2 (the code at pre_size=(2,), post_size=(4,)): ProbDist(dist=0,
    prob=1, include_self=True), any seed and any generator.  Pre position 1
    rescales to 1 * 4 / 2 = 2, at distance 1 from post position 1 and 0
    from post position 2; the build measures from the raw position and
    returns the edges (0, 0) and (1, 1): [normalized_pos] is computed and
    never read. *)
Theorem ProbDist_distance_not_rescaled (E : Env) (seed : Z) (w : World) :
  Env_ok E -> World_ok w ->
  value (ProbDist.build_conn E (ProbDist.mk 0 1 1 seed true) [2%nat] [4%nat] w)
  = Ok ([0%nat; 1%nat], [0%nat; 1%nat])
  /\ ProbDist.normalized_pos [1%nat] [2%nat] [4%nat] 1 = [(1 * 4 / 2)%Q]
  /\ (ProbDist.manhattan_Q (ProbDist.normalized_pos [1%nat] [2%nat] [4%nat] 1) [1%Q] == 1)%Q
  /\ (ProbDist.manhattan_Q (ProbDist.normalized_pos [1%nat] [2%nat] [4%nat] 1) [2%Q] == 0)%Q
  /\ ~ (1 <= ProbDist.dist (ProbDist.mk 0 1 1 seed true))%Q.
Proof.
  intros HE Hw. split; [apply ProbDist_1d_sure_2_4; assumption|].
  repeat split. intros H. vm_compute in H. apply H. reflexivity.
Qed.

Lemma ProbDist_distance_not_rescaled_witness :
  value (ProbDist.build_conn (sample_env false) (ProbDist.mk 0 1 1 0 true)
           [2%nat] [4%nat]
           (fresh (sample_env false) 0 (constant_rng 0) (constant_rng 0)))
  = Ok ([0%nat; 1%nat], [0%nat; 1%nat])
  /\ ProbDist.normalized_pos [1%nat] [2%nat] [4%nat] 1 = [(1 * 4 / 2)%Q]
  /\ (ProbDist.manhattan_Q (ProbDist.normalized_pos [1%nat] [2%nat] [4%nat] 1) [1%Q] == 1)%Q
  /\ (ProbDist.manhattan_Q (ProbDist.normalized_pos [1%nat] [2%nat] [4%nat] 1) [2%Q] == 0)%Q
  /\ ~ (1 <= ProbDist.dist (ProbDist.mk 0 1 1 0 true))%Q.
Proof.
  apply (ProbDist_distance_not_rescaled (sample_env false) 0
           (fresh (sample_env false) 0 (constant_rng 0) (constant_rng 0))).
  - apply sample_env_ok.
  - repeat split; simpl; try apply sample_stream_unit; try apply Qle_refl; reflexivity.
Defined.


(** ** Index assignments, entry by entry *)

Lemma entry_mat_set (i j : nat) (b : bool) (m m' : mat) (a c : nat) :
  mat_set i j b m = Ok m' ->
  entry m' a c = if decide (a = i /\ c = j) then Some b else entry m a c.
Proof.
  unfold mat_set. destruct (m !! i) as [r|] eqn:Hr; [|discriminate].
  destruct (decide (j < length r)%nat) as [Hj|]; [|discriminate].
  intros H; inversion H; subst m'. clear H. unfold entry.
  assert (Hi : (i < length m)%nat) by (eapply lookup_lt_Some; exact Hr).
  destruct (decide (a = i)) as [->|Hai].
  - rewrite list_lookup_insert_eq by exact Hi. rewrite Hr.
    destruct (decide (c = j)) as [->|Hcj].
    + rewrite list_lookup_insert_eq by exact Hj.
      destruct (decide (i = i /\ j = j)) as [_|Hn]; [reflexivity | tauto].
    + rewrite list_lookup_insert_ne by congruence.
      destruct (decide (i = i /\ c = j)) as [[_ Hn]|_]; [contradiction | reflexivity].
  - rewrite list_lookup_insert_ne by congruence.
    destruct (decide (a = i /\ c = j)) as [[Hn _]|_]; [contradiction | reflexivity].
Qed.

Lemma mat_set_shape (rows cols i j : nat) (b : bool) (m m' : mat) :
  mat_set i j b m = Ok m' -> has_shape rows cols m -> has_shape rows cols m'.
Proof.
  unfold mat_set. destruct (m !! i) as [r|] eqn:Hr; [|discriminate].
  destruct (decide (j < length r)%nat) as [Hj|]; [|discriminate].
  intros H [H1 H2]; inversion H; subst m'. split.
  - rewrite length_insert. exact H1.
  - apply Forall_insert; [exact H2|]. rewrite length_insert.
    eapply Forall_lookup_1 in H2; [|exact Hr]. exact H2.
Qed.

Lemma mat_set_in_range (rows cols i j : nat) (b : bool) (m : mat) :
  has_shape rows cols m -> (i < rows)%nat -> (j < cols)%nat ->
  exists m', mat_set i j b m = Ok m'.
Proof.
  intros [H1 H2] Hi Hj. unfold mat_set.
  destruct (lookup_lt_is_Some_2 m i) as [r Hr]; [lia|]. rewrite Hr.
  eapply Forall_lookup_1 in H2; [|exact Hr]. simpl in H2.
  destruct (decide (j < length r)%nat); [eauto | lia].
Qed.

Lemma entry_mat_set_pairs (ijs : list (nat * nat)) (b : bool) (m m' : mat) (a c : nat) :
  mat_set_pairs ijs b m = Ok m' ->
  entry m' a c = if decide ((a, c) ∈ ijs) then Some b else entry m a c.
Proof.
  revert m. induction ijs as [|[i j] ijs IH]; intros m H; simpl in H.
  - inversion H; subst. destruct (decide ((a, c) ∈ [])) as [Hin|_]; [inversion Hin | reflexivity].
  - destruct (mat_set i j b m) as [m1| |] eqn:H1; try discriminate. simpl in H.
    rewrite (IH _ H). rewrite (entry_mat_set _ _ _ _ _ a c H1).
    destruct (decide ((a, c) ∈ ijs)) as [Hin|Hnin].
    + destruct (decide ((a, c) ∈ (i, j) :: ijs)) as [_|Hn]; [reflexivity|].
      exfalso. apply Hn. right. exact Hin.
    + destruct (decide (a = i /\ c = j)) as [[-> ->]|Hne].
      * destruct (decide ((i, j) ∈ (i, j) :: ijs)) as [_|Hn]; [reflexivity|].
        exfalso. apply Hn. left.
      * destruct (decide ((a, c) ∈ (i, j) :: ijs)) as [Hin|_]; [|reflexivity].
        apply elem_of_cons in Hin as [Heq|Hin]; [|contradiction].
        inversion Heq; subst. tauto.
Qed.

Lemma mat_set_pairs_shape (rows cols : nat) (ijs : list (nat * nat)) (b : bool) (m m' : mat) :
  mat_set_pairs ijs b m = Ok m' -> has_shape rows cols m -> has_shape rows cols m'.
Proof.
  revert m. induction ijs as [|[i j] ijs IH]; intros m H Hs; simpl in H.
  - inversion H; subst. exact Hs.
  - destruct (mat_set i j b m) as [m1| |] eqn:H1; try discriminate. simpl in H.
    eapply IH; [exact H|]. eapply mat_set_shape; eassumption.
Qed.

Lemma mat_set_pairs_in_range (rows cols : nat) (ijs : list (nat * nat)) (b : bool) (m : mat) :
  has_shape rows cols m ->
  Forall (fun ij => (fst ij < rows)%nat /\ (snd ij < cols)%nat) ijs ->
  exists m', mat_set_pairs ijs b m = Ok m'.
Proof.
  intros Hs Hall. revert m Hs. induction Hall as [|[i j] ijs [Hi Hj] _ IH]; intros m Hs; simpl.
  - eauto.
  - destruct (mat_set_in_range rows cols i j b m Hs Hi Hj) as [m1 H1]. rewrite H1. simpl.
    apply IH. eapply mat_set_shape; eassumption.
Qed.

Lemma elem_of_zip_swap_1 (l k : list nat) (a c : nat) :
  (a, c) ∈ zip l k -> (c, a) ∈ zip k l.
Proof.
  revert k. induction l as [|x l IH]; intros k H; destruct k as [|y k];
    try (inversion H; fail).
  change (zip (x :: l) (y :: k)) with ((x, y) :: zip l k) in H.
  change (zip (y :: k) (x :: l)) with ((y, x) :: zip k l).
  apply elem_of_cons in H as [H|H].
  - inversion H; subst. left.
  - right. apply IH. exact H.
Qed.

Lemma elem_of_zip_swap (l k : list nat) (a c : nat) :
  (a, c) ∈ zip l k <-> (c, a) ∈ zip k l.
Proof. split; apply elem_of_zip_swap_1. Qed.

Lemma full_shape (rows cols : nat) (b : bool) : has_shape rows cols (full rows cols b).
Proof.
  unfold full. split; [apply length_replicate|].
  apply Forall_replicate. apply length_replicate.
Qed.

Lemma entry_full (rows cols : nat) (b : bool) (a c : nat) :
  entry (full rows cols b) a c
  = if decide (a < rows /\ c < cols)%nat then Some b else None.
Proof.
  unfold entry, full. destruct (decide (a < rows)%nat) as [Ha|Ha].
  - rewrite (lookup_replicate_2 rows (replicate cols b) a Ha).
    destruct (decide (c < cols)%nat) as [Hc|Hc].
    + rewrite (lookup_replicate_2 cols b c Hc).
      destruct (decide (a < rows /\ c < cols)%nat); [reflexivity | tauto].
    + destruct (decide (a < rows /\ c < cols)%nat) as [[_ Hn]|_]; [contradiction|].
      apply lookup_replicate_None. lia.
  - destruct (decide (a < rows /\ c < cols)%nat) as [[Hn _]|_]; [contradiction|].
    replace (replicate rows (replicate cols b) !! a) with (@None (list bool));
      [reflexivity|].
    symmetry. apply lookup_replicate_None. lia.
Qed.

Lemma full_symmetric (n : nat) (b : bool) : symmetric (full n n b).
Proof. intros a c. rewrite !entry_full. repeat case_decide; try reflexivity; tauto. Qed.

(** Writing [b] at the pairs of two index arrays, then at the swapped
    pairs, keeps a symmetric matrix symmetric. *)
Lemma paired_sets_symmetric (l k : list nat) (b : bool) (m m1 m2 : mat) :
  symmetric m ->
  mat_set_pairs (zip l k) b m = Ok m1 ->
  mat_set_pairs (zip k l) b m1 = Ok m2 ->
  symmetric m2.
Proof.
  intros Hs H1 H2 a c.
  rewrite (entry_mat_set_pairs _ _ _ _ a c H2), (entry_mat_set_pairs _ _ _ _ a c H1).
  rewrite (entry_mat_set_pairs _ _ _ _ c a H2), (entry_mat_set_pairs _ _ _ _ c a H1).
  pose proof (elem_of_zip_swap l k a c) as E1.
  pose proof (elem_of_zip_swap l k c a) as E2.
  rewrite (Hs a c).
  repeat case_decide; try reflexivity; tauto.
Qed.

(** ** SmallWorld: what every build keeps *)

Lemma shifted_length (j : nat) (nodes : list nat) :
  length (SmallWorld.shifted j nodes) = length nodes.
Proof.
  unfold SmallWorld.shifted. rewrite length_app, length_drop, length_take. lia.
Qed.

Lemma shifted_seq (j n : nat) :
  (j <= n)%nat -> SmallWorld.shifted j (seq 0 n) = seq j (n - j) ++ seq 0 j.
Proof.
  intros Hj. unfold SmallWorld.shifted.
  rewrite drop_seq, take_seq. simpl. f_equal. f_equal. lia.
Qed.

Lemma elem_of_zip_seq (a b n : nat) (x y : nat) :
  (x, y) ∈ zip (seq a n) (seq b n) -> (a <= x < a + n)%nat /\ (y + a = x + b)%nat.
Proof.
  revert a b. induction n as [|n IH]; intros a b H; simpl in H; [inversion H|].
  apply elem_of_cons in H as [H|H].
  - inversion H; subst. lia.
  - apply IH in H. lia.
Qed.

(** The pairs of the lattice loop: node [x] with the node [j] further on
    the ring. *)
Lemma lattice_pairs (j n x y : nat) :
  (j <= n)%nat ->
  (x, y) ∈ zip (seq 0 n) (SmallWorld.shifted j (seq 0 n)) ->
  (x < n)%nat /\ (y < n)%nat /\ (y = x + j \/ y + n = x + j)%nat.
Proof.
  intros Hj. rewrite shifted_seq by exact Hj.
  replace (seq 0 n) with (seq 0 (n - j) ++ seq (n - j) j) at 1
    by (rewrite <- seq_app; f_equal; lia).
  rewrite zip_with_app by (rewrite !length_seq; reflexivity).
  intros H. apply elem_of_app in H as [H|H]; apply elem_of_zip_seq in H; lia.
Qed.

Lemma lattice_shape (n : nat) (js : list nat) (conn conn' : mat) :
  SmallWorld.lattice js (seq 0 n) conn = Ok conn' ->
  has_shape n n conn -> has_shape n n conn'.
Proof.
  revert conn. induction js as [|j js IH]; intros conn H Hs; simpl in H.
  - inversion H; subst. exact Hs.
  - destruct (mat_set_pairs (zip _ _) true conn) as [c1| |] eqn:H1; try discriminate.
    simpl in H.
    destruct (mat_set_pairs (zip _ _) true c1) as [c2| |] eqn:H2; try discriminate.
    simpl in H. eapply IH; [exact H|].
    eapply mat_set_pairs_shape; [exact H2|]. eapply mat_set_pairs_shape; eassumption.
Qed.

Lemma lattice_symmetric (nodes js : list nat) (conn conn' : mat) :
  SmallWorld.lattice js nodes conn = Ok conn' -> symmetric conn -> symmetric conn'.
Proof.
  revert conn. induction js as [|j js IH]; intros conn H Hs; simpl in H.
  - inversion H; subst. exact Hs.
  - destruct (mat_set_pairs (zip _ _) true conn) as [c1| |] eqn:H1; try discriminate.
    simpl in H.
    destruct (mat_set_pairs (zip _ _) true c1) as [c2| |] eqn:H2; try discriminate.
    simpl in H. eapply IH; [exact H|]. eapply paired_sets_symmetric; eassumption.
Qed.

(** The lattice loop never fails on the ring it builds. *)
Lemma lattice_total (n : nat) (js : list nat) (conn : mat) :
  has_shape n n conn -> Forall (fun j => (j <= n)%nat) js ->
  exists conn', SmallWorld.lattice js (seq 0 n) conn = Ok conn'.
Proof.
  intros Hs Hjs. revert conn Hs. induction Hjs as [|j js Hj _ IH]; intros conn Hs; simpl.
  - eauto.
  - destruct (mat_set_pairs_in_range n n (zip (seq 0 n) (SmallWorld.shifted j (seq 0 n)))
                true conn Hs) as [c1 H1].
    { apply Forall_forall. intros [x y] Hxy. apply lattice_pairs in Hxy; [|exact Hj].
      simpl. lia. }
    rewrite H1. simpl.
    pose proof (mat_set_pairs_shape n n _ _ _ _ H1 Hs) as Hs1.
    destruct (mat_set_pairs_in_range n n (zip (SmallWorld.shifted j (seq 0 n)) (seq 0 n))
                true c1 Hs1) as [c2 H2].
    { apply Forall_forall. intros [x y] Hxy. apply elem_of_zip_swap in Hxy.
      apply lattice_pairs in Hxy; [|exact Hj]. simpl. lia. }
    rewrite H2. simpl. apply IH. eapply mat_set_pairs_shape; eassumption.
Qed.

Lemma lattice_diagonal (n : nat) (js : list nat) (conn conn' : mat) (i : nat) :
  SmallWorld.lattice js (seq 0 n) conn = Ok conn' ->
  Forall (fun j => (1 <= j < n)%nat) js ->
  entry conn' i i = entry conn i i.
Proof.
  intros H Hjs. revert conn H. induction Hjs as [|j js Hj _ IH]; intros conn H; simpl in H.
  - inversion H; subst. reflexivity.
  - destruct (mat_set_pairs (zip _ _) true conn) as [c1| |] eqn:H1; try discriminate.
    simpl in H.
    destruct (mat_set_pairs (zip _ _) true c1) as [c2| |] eqn:H2; try discriminate.
    simpl in H. rewrite (IH _ H).
    rewrite (entry_mat_set_pairs _ _ _ _ i i H2), (entry_mat_set_pairs _ _ _ _ i i H1).
    destruct (decide ((i, i) ∈ zip (SmallWorld.shifted j (seq 0 n)) (seq 0 n))) as [Hin|_].
    { apply elem_of_zip_swap in Hin. apply lattice_pairs in Hin; lia. }
    destruct (decide ((i, i) ∈ zip (seq 0 n) (SmallWorld.shifted j (seq 0 n)))) as [Hin|_].
    { apply lattice_pairs in Hin; lia. }
    reflexivity.
Qed.

Lemma redraw_not_self (fuel : nat) (h : handle) (c : SmallWorld.t) (i : nat)
    (non_connected : list nat) (w0 : nat) (wd wd' : World) (w : nat) :
  SmallWorld.redraw fuel h c i non_connected w0 wd = Ok (w, wd') ->
  SmallWorld.include_self c = false -> w <> i.
Proof.
  intros H Hs. revert w0 wd H. induction fuel as [|fuel IH]; intros w0 wd H; simpl in H;
    rewrite Hs in H; simpl in H.
  - destruct (w0 =? i)%nat eqn:Hw; [discriminate|].
    inversion H; subst. apply Nat.eqb_neq. exact Hw.
  - destruct (w0 =? i)%nat eqn:Hw.
    + unfold bind in H. destruct (rng_choice h non_connected wd) as [[w1 wd1]| |];
        try discriminate. eapply IH. exact H.
    + inversion H; subst. apply Nat.eqb_neq. exact Hw.
Qed.

Lemma smallworld_rewire_result (fuel : nat) (h : handle) (c : SmallWorld.t) (i : nat)
    (all_j : list bool) (wd wd' : World) (z : Z) :
  SmallWorld._smallworld_rewire fuel h c i all_j wd = Ok (z, wd') ->
  z = (-1)%Z \/ exists w, z = Z.of_nat w /\ (SmallWorld.include_self c = false -> w <> i).
Proof.
  unfold SmallWorld._smallworld_rewire, bind, with_rng. simpl.
  destruct (Qlt_bool _ _); [|intros H; inversion H; auto].
  destruct (length _ <=? 1)%nat; [intros H; inversion H; auto|].
  destruct (rng_choice h _ _) as [[w1 wd1]| |]; try discriminate.
  destruct (SmallWorld.redraw fuel h c i _ w1 wd1) as [[w2 wd2]| |] eqn:Hr; try discriminate.
  intros H; inversion H; subst. right. exists w2. split; [reflexivity|].
  intros Hs. eapply redraw_not_self; eassumption.
Qed.

(** One pass of the undirected rewiring loop leaves the matrix as it was or
    moves the edge u-v to u-w, both directions at once. *)
Lemma rewire_edge_cases (fuel : nat) (E : Env) (c : SmallWorld.t) (u v : nat)
    (conn conn' : mat) (wd wd' : World) :
  SmallWorld.directed c = false ->
  SmallWorld.rewire_edge fuel E c u v conn wd = Ok (conn', wd') ->
  conn' = conn
  \/ exists w c1 c2 c3,
       (SmallWorld.include_self c = false -> w <> u)
       /\ mat_set u v false conn = Ok c1 /\ mat_set v u false c1 = Ok c2
       /\ mat_set u w true c2 = Ok c3 /\ mat_set w u true c3 = Ok conn'.
Proof.
  intros Hd. unfold SmallWorld.rewire_edge. rewrite Hd. unfold bind.
  destruct (SmallWorld._smallworld_rewire _ _ _ _ _ wd) as [[z wd1]| |] eqn:Hz;
    try discriminate.
  apply smallworld_rewire_result in Hz as [->|(w & -> & Hw)].
  - simpl. intros H; inversion H; auto.
  - destruct (Z.of_nat w =? -1)%Z eqn:Hneg; [apply Z.eqb_eq in Hneg; lia|].
    rewrite Nat2Z.id. unfold lift.
    destruct (mat_set u v false conn) as [c1| |] eqn:H1; try discriminate. simpl.
    destruct (mat_set v u false c1) as [c2| |] eqn:H2; try discriminate. simpl.
    destruct (mat_set u w true c2) as [c3| |] eqn:H3; try discriminate. simpl.
    destruct (mat_set w u true c3) as [c4| |] eqn:H4; try discriminate.
    intros H; inversion H; subst. right. exists w, c1, c2, c3. auto.
Qed.

Lemma rewire_edge_symmetric fuel E c u v conn conn' wd wd' :
  SmallWorld.directed c = false ->
  SmallWorld.rewire_edge fuel E c u v conn wd = Ok (conn', wd') ->
  symmetric conn -> symmetric conn'.
Proof.
  intros Hd H Hs. apply rewire_edge_cases in H as [->|(w & c1 & c2 & c3 & _ & H1 & H2 & H3 & H4)];
    [exact Hs | | exact Hd].
  intros a b.
  rewrite (entry_mat_set _ _ _ _ _ a b H4), (entry_mat_set _ _ _ _ _ a b H3),
    (entry_mat_set _ _ _ _ _ a b H2), (entry_mat_set _ _ _ _ _ a b H1).
  rewrite (entry_mat_set _ _ _ _ _ b a H4), (entry_mat_set _ _ _ _ _ b a H3),
    (entry_mat_set _ _ _ _ _ b a H2), (entry_mat_set _ _ _ _ _ b a H1).
  rewrite (Hs a b). repeat case_decide; try reflexivity; try lia; exfalso; lia.
Qed.

Lemma rewire_edge_shape n fuel E c u v conn conn' wd wd' :
  SmallWorld.directed c = false ->
  SmallWorld.rewire_edge fuel E c u v conn wd = Ok (conn', wd') ->
  has_shape n n conn -> has_shape n n conn'.
Proof.
  intros Hd H Hs. apply rewire_edge_cases in H as [->|(w & c1 & c2 & c3 & _ & H1 & H2 & H3 & H4)];
    [exact Hs | | exact Hd].
  eapply mat_set_shape; [exact H4|]. eapply mat_set_shape; [exact H3|].
  eapply mat_set_shape; [exact H2|]. eapply mat_set_shape; eassumption.
Qed.

Lemma rewire_edge_diagonal fuel E c u v conn conn' wd wd' i :
  SmallWorld.directed c = false -> SmallWorld.include_self c = false ->
  SmallWorld.rewire_edge fuel E c u v conn wd = Ok (conn', wd') ->
  entry conn i i <> Some true -> entry conn' i i <> Some true.
Proof.
  intros Hd Hi H Hs.
  apply rewire_edge_cases in H as [->|(w & c1 & c2 & c3 & Hw & H1 & H2 & H3 & H4)];
    [exact Hs | | exact Hd].
  specialize (Hw Hi).
  rewrite (entry_mat_set _ _ _ _ _ i i H4), (entry_mat_set _ _ _ _ _ i i H3),
    (entry_mat_set _ _ _ _ _ i i H2), (entry_mat_set _ _ _ _ _ i i H1).
  repeat case_decide; try discriminate; try exact Hs; exfalso; lia.
Qed.

Lemma rewire_nodes_keeps (P : mat -> Prop) fuel E c uvs conn conn' wd wd' :
  (forall u v m m' w1 w2,
      SmallWorld.rewire_edge fuel E c u v m w1 = Ok (m', w2) -> P m -> P m') ->
  SmallWorld.rewire_nodes fuel E c uvs conn wd = Ok (conn', wd') -> P conn -> P conn'.
Proof.
  intros Hstep. revert conn wd. induction uvs as [|[u v] rest IH]; intros conn wd H Hp;
    simpl in H.
  - inversion H; subst. exact Hp.
  - unfold bind in H.
    destruct (SmallWorld.rewire_edge fuel E c u v conn wd) as [[c1 w1]| |] eqn:H1;
      try discriminate.
    eapply IH; [exact H|]. eapply Hstep; eassumption.
Qed.

Lemma rewire_keeps (P : mat -> Prop) fuel E c js nodes conn conn' wd wd' :
  (forall u v m m' w1 w2,
      SmallWorld.rewire_edge fuel E c u v m w1 = Ok (m', w2) -> P m -> P m') ->
  SmallWorld.rewire fuel E c js nodes conn wd = Ok (conn', wd') -> P conn -> P conn'.
Proof.
  intros Hstep. revert conn wd. induction js as [|j js IH]; intros conn wd H Hp; simpl in H.
  - inversion H; subst. exact Hp.
  - unfold bind in H.
    destruct (SmallWorld.rewire_nodes fuel E c _ conn wd) as [[c1 w1]| |] eqn:H1;
      try discriminate.
    eapply IH; [exact H|]. eapply rewire_nodes_keeps; eassumption.
Qed.

(** What [build_conn] does once the checks passed and the shortcut is not
    taken: the lattice, then the rewiring. *)
Lemma SmallWorld_build_conn_inv fuel E c pre_size post_size wd conn :
  value (SmallWorld.build_conn fuel E c pre_size post_size wd) = Ok conn ->
  let n := size_num pre_size in
  (SmallWorld.num_neighbor c = Z.of_nat n /\ conn = full n n true)
  \/ ((SmallWorld.num_neighbor c < Z.of_nat n)%Z
      /\ exists lat w1 w2,
           SmallWorld.lattice (seq 1 (Z.to_nat (SmallWorld.num_neighbor c / 2)))
                              (seq 0 n) (full n n false) = Ok lat
           /\ SmallWorld.rewire fuel E c
                (seq 1 (Z.to_nat (SmallWorld.num_neighbor c / 2))) (seq 0 n) lat w1
              = Ok (conn, w2)).
Proof.
  unfold SmallWorld.build_conn.
  destruct (decide (pre_size = post_size)); [|discriminate].
  destruct (reseed_total E wd) as [w1 H1]. rewrite (bind_ok _ _ _ _ _ H1).
  destruct (SmallWorld.one_dim pre_size); [|discriminate]. cbv zeta.
  destruct (Z.of_nat (size_num pre_size) <? SmallWorld.num_neighbor c)%Z eqn:Hlt;
    [discriminate|].
  apply Z.ltb_ge in Hlt.
  destruct (SmallWorld.num_neighbor c =? Z.of_nat (size_num pre_size))%Z eqn:Heq.
  - apply Z.eqb_eq in Heq. simpl. intros H; inversion H; subst. left. auto.
  - apply Z.eqb_neq in Heq. rewrite bind_lift_eq.
    destruct (SmallWorld.lattice _ _ _) as [lat| |] eqn:Hl; try discriminate.
    destruct (SmallWorld.rewire fuel E c _ _ lat w1) as [[conn' w2]| |] eqn:Hr;
      try discriminate.
    simpl. intros H; inversion H; subst. right. split; [lia|]. eauto.
Qed.


(** X1: an undirected SmallWorld build returns a symmetric matrix, whatever
    [prob], [num_neighbor] and the generator are: the lattice and every
    rewiring write both directions of an edge. *)
Theorem SmallWorld_undirected_symmetric (fuel : nat) (E : Env) (c : SmallWorld.t)
    (pre_size post_size : size_t) (wd : World) (conn : mat) (a b : nat) :
  SmallWorld.directed c = false ->
  value (SmallWorld.build_conn fuel E c pre_size post_size wd) = Ok conn ->
  entry conn a b = entry conn b a.
Proof.
  intros Hd H. revert a b. change (symmetric conn).
  apply SmallWorld_build_conn_inv in H as [[_ ->]|(_ & lat & w1 & w2 & Hl & Hr)].
  - apply full_symmetric.
  - eapply (rewire_keeps symmetric); [| exact Hr |].
    + intros u v m m' x y Hstep. eapply rewire_edge_symmetric; eassumption.
    + eapply lattice_symmetric; [exact Hl | apply full_symmetric].
Qed.

Lemma SmallWorld_undirected_symmetric_witness :
  entry sample_sw_graph 0 3 = entry sample_sw_graph 3 0.
Proof.
  apply (SmallWorld_undirected_symmetric 20 (sample_env false)
           (SmallWorld.mk 2 (1 # 2) false false 3) (SizeInt 6) (SizeInt 6)
           (fresh (sample_env false) 3 (constant_rng 0) (constant_rng 0))).
  - reflexivity.
  - vm_compute. reflexivity.
Defined.

(** X2: with [include_self=False] and [num_neighbor] below the number of
    nodes, an undirected SmallWorld build returns an N x N matrix whose
    diagonal is False: the lattice joins distinct nodes and a rewired edge
    never ends on the node it starts from. *)
Theorem SmallWorld_no_self_loops (fuel : nat) (E : Env) (c : SmallWorld.t)
    (pre_size post_size : size_t) (wd : World) (conn : mat) (i : nat) :
  SmallWorld.directed c = false -> SmallWorld.include_self c = false ->
  (SmallWorld.num_neighbor c < Z.of_nat (size_num pre_size))%Z ->
  value (SmallWorld.build_conn fuel E c pre_size post_size wd) = Ok conn ->
  (i < size_num pre_size)%nat ->
  entry conn i i = Some false.
Proof.
  intros Hd Hs Hk H Hi.
  apply SmallWorld_build_conn_inv in H as [[Heq _]|(_ & lat & w1 & w2 & Hl & Hr)]; [lia|].
  set (n := size_num pre_size) in *.
  set (js := seq 1 (Z.to_nat (SmallWorld.num_neighbor c / 2))) in *.
  assert (Hjs : Forall (fun j => (1 <= j < n)%nat) js).
  { apply Forall_forall. intros j Hj. apply elem_of_seq in Hj.
    assert (Z.to_nat (SmallWorld.num_neighbor c / 2) < n)%nat; [|lia].
    destruct (Z_lt_le_dec (SmallWorld.num_neighbor c) 0) as [Hneg|Hpos].
    - assert (SmallWorld.num_neighbor c / 2 < 0)%Z
        by (apply Z.div_lt_upper_bound; lia). lia.
    - assert (SmallWorld.num_neighbor c / 2 <= SmallWorld.num_neighbor c)%Z
        by (apply Z.div_le_upper_bound; lia). lia. }
  assert (Hshape : has_shape n n conn).
  { eapply (rewire_keeps (has_shape n n)); [| exact Hr |].
    - intros u v m m' x y Hstep. eapply rewire_edge_shape; eassumption.
    - eapply lattice_shape; [exact Hl | apply full_shape]. }
  assert (Hdiag : entry conn i i <> Some true).
  { eapply (rewire_keeps (fun m => entry m i i <> Some true)); [| exact Hr |].
    - intros u v m m' x y Hstep. eapply rewire_edge_diagonal; eassumption.
    - rewrite (lattice_diagonal n js _ _ i Hl Hjs). rewrite entry_full.
      case_decide; discriminate. }
  destruct Hshape as [Hrows Hcols]. unfold entry in *.
  destruct (lookup_lt_is_Some_2 conn i) as [r Hr']; [lia|]. rewrite Hr' in *.
  eapply Forall_lookup_1 in Hcols; [|exact Hr']. simpl in Hcols.
  destruct (lookup_lt_is_Some_2 r i) as [b Hb]; [lia|]. rewrite Hb in *.
  destruct b; [contradiction | reflexivity].
Qed.

Lemma SmallWorld_no_self_loops_witness : entry sample_sw_graph 3 3 = Some false.
Proof.
  apply (SmallWorld_no_self_loops 20 (sample_env false)
           (SmallWorld.mk 2 (1 # 2) false false 3) (SizeInt 6) (SizeInt 6)
           (fresh (sample_env false) 3 (constant_rng 0) (constant_rng 0))).
  - reflexivity.
  - reflexivity.
  - simpl. lia.
  - vm_compute. reflexivity.
  - simpl. lia.
Defined.

Lemma rewire_directed_fails (fuel : nat) (E : Env) (c : SmallWorld.t) (j : nat)
    (js nodes : list nat) (conn : mat) (wd : World) :
  SmallWorld.directed c = true -> nodes <> [] ->
  SmallWorld.rewire fuel E c (j :: js) nodes conn wd = Raise TypeError.
Proof.
  intros Hd Hn. cbn [SmallWorld.rewire].
  destruct (zip nodes (SmallWorld.shifted j nodes)) as [|[u v] rest] eqn:Hz.
  - exfalso. apply (f_equal length) in Hz.
    rewrite length_zip_with, shifted_length in Hz. destruct nodes; [congruence|].
    simpl in Hz. lia.
  - cbn [SmallWorld.rewire_nodes]. unfold bind, SmallWorld.rewire_edge.
    rewrite Hd. reflexivity.
Qed.

(** X3: a directed SmallWorld build over a 1-D population with
    [2 <= num_neighbor < N] always fails with a TypeError: its first
    rewiring step calls [self._connect(prob=..., i=..., all_j=...)], and
    [_smallworld_rewire(i, all_j)] takes no [prob]. *)
Theorem SmallWorld_directed_TypeError (fuel : nat) (E : Env) (c : SmallWorld.t)
    (pre_size : size_t) (wd : World) :
  SmallWorld.directed c = true -> SmallWorld.one_dim pre_size = true ->
  (2 <= SmallWorld.num_neighbor c < Z.of_nat (size_num pre_size))%Z ->
  value (SmallWorld.build_conn fuel E c pre_size pre_size wd) = Raise TypeError.
Proof.
  intros Hd Hone Hk. unfold SmallWorld.build_conn.
  destruct (decide (pre_size = pre_size)) as [_|Hne]; [|congruence].
  destruct (reseed_total E wd) as [w1 H1]. rewrite (bind_ok _ _ _ _ _ H1).
  rewrite Hone. cbv zeta. set (n := size_num pre_size) in *.
  replace (Z.of_nat n <? SmallWorld.num_neighbor c)%Z with false
    by (symmetry; apply Z.ltb_ge; lia).
  replace (SmallWorld.num_neighbor c =? Z.of_nat n)%Z with false
    by (symmetry; apply Z.eqb_neq; lia).
  assert (Hhalf : (1 <= SmallWorld.num_neighbor c / 2 <= SmallWorld.num_neighbor c)%Z).
  { split; [apply Z.div_le_lower_bound; lia | apply Z.div_le_upper_bound; lia]. }
  destruct (Z.to_nat (SmallWorld.num_neighbor c / 2)) as [|k] eqn:Ek; [lia|].
  destruct (lattice_total n (seq 1 (S k)) (full n n false) (full_shape n n false))
    as [lat Hl].
  { apply Forall_forall. intros j Hj. apply elem_of_seq in Hj. lia. }
  rewrite bind_lift_eq, Hl. cbn [seq].
  rewrite rewire_directed_fails; [reflexivity | exact Hd |].
  destruct n as [|n']; [lia | discriminate].
Qed.

Lemma SmallWorld_directed_TypeError_witness :
  value (SmallWorld.build_conn 20 (sample_env false)
           (SmallWorld.mk 2 (1 # 2) true false 3) (SizeInt 6) (SizeInt 6)
           (fresh (sample_env false) 3 (constant_rng 0) (constant_rng 0)))
  = Raise TypeError.
Proof.
  apply (SmallWorld_directed_TypeError 20 (sample_env false)
           (SmallWorld.mk 2 (1 # 2) true false 3) (SizeInt 6)).
  - reflexivity.
  - reflexivity.
  - simpl. lia.
Defined.

(** ** ScaleFreeBA: what every build keeps *)

Lemma elem_of_zip_both (l k : list nat) (x y : nat) :
  (x, y) ∈ zip l k -> x ∈ l /\ y ∈ k.
Proof.
  revert k. induction l as [|a l IH]; intros k H; destruct k as [|b k];
    try (inversion H; fail).
  change (zip (a :: l) (b :: k)) with ((a, b) :: zip l k) in H.
  apply elem_of_cons in H as [H|H].
  - inversion H; subst. split; left.
  - apply IH in H as [H1 H2]. split; right; assumption.
Qed.

Lemma elem_of_map_pair_l (i : nat) (jj : list nat) (x y : nat) :
  (x, y) ∈ map (fun j => (i, j)) jj -> x = i /\ y ∈ jj.
Proof.
  induction jj as [|j jj IH]; simpl; intros H; [inversion H|].
  apply elem_of_cons in H as [H|H].
  - inversion H; subst. split; [reflexivity | left].
  - apply IH in H as [H1 H2]. split; [exact H1 | right; exact H2].
Qed.

Lemma elem_of_map_pair_r (j : nat) (ii : list nat) (x y : nat) :
  (x, y) ∈ map (fun i => (i, j)) ii -> x ∈ ii /\ y = j.
Proof.
  induction ii as [|i ii IH]; simpl; intros H; [inversion H|].
  apply elem_of_cons in H as [H|H].
  - inversion H; subst. split; [left | reflexivity].
  - apply IH in H as [H1 H2]. split; [right; exact H1 | exact H2].
Qed.

Lemma broadcast2_elem (ii jj : list nat) (ijs : list (nat * nat)) (x y : nat) :
  broadcast2 ii jj = Ok ijs -> (x, y) ∈ ijs -> x ∈ ii /\ y ∈ jj.
Proof.
  unfold broadcast2. destruct (decide (length ii = length jj)) as [_|_].
  - intros H Hin; inversion H; subst. apply elem_of_zip_both. exact Hin.
  - destruct ii as [|i ii'].
    + destruct jj as [|j [|j' jj']]; try discriminate.
      intros H Hin; injection H as <-. inversion Hin.
    + destruct ii' as [|i' ii''].
      * intros H Hin; injection H as <-.
        apply elem_of_map_pair_l in Hin as [-> Hy]. split; [left | exact Hy].
      * destruct jj as [|j [|j' jj']]; try discriminate.
        intros H Hin; injection H as <-.
        apply (elem_of_map_pair_r j (i :: i' :: ii'')) in Hin as [Hx ->].
        split; [exact Hx | left].
Qed.

Lemma fancy_set_entry (ii jj : list nat) (m m' : mat) (a b : nat) :
  fancy_set ii jj true m = Ok m' ->
  entry m' a b = Some true -> entry m a b = Some true \/ (a ∈ ii /\ b ∈ jj).
Proof.
  unfold fancy_set. destruct (broadcast2 ii jj) as [ijs| |] eqn:Hb; try discriminate.
  simpl. intros H. rewrite (entry_mat_set_pairs _ _ _ _ a b H).
  destruct (decide ((a, b) ∈ ijs)) as [Hin|_]; [|auto].
  intros _. right. eapply broadcast2_elem; eassumption.
Qed.

Lemma fancy_set_shape (rows cols : nat) (ii jj : list nat) (b : bool) (m m' : mat) :
  fancy_set ii jj b m = Ok m' -> has_shape rows cols m -> has_shape rows cols m'.
Proof.
  unfold fancy_set. destruct (broadcast2 ii jj) as [ijs| |]; try discriminate. simpl.
  apply mat_set_pairs_shape.
Qed.

Lemma fancy_set_symmetric (ii jj : list nat) (b : bool) (m m1 m2 : mat) :
  length ii = length jj -> symmetric m ->
  fancy_set ii jj b m = Ok m1 -> fancy_set jj ii b m1 = Ok m2 -> symmetric m2.
Proof.
  intros Hlen Hs. unfold fancy_set, broadcast2.
  destruct (decide (length ii = length jj)); [|congruence].
  destruct (decide (length jj = length ii)); [|congruence].
  simpl. intros H1 H2. eapply paired_sets_symmetric; eassumption.
Qed.


Lemma grow_invariant (fuel todo : nat) (E : Env) (c : ScaleFreeBA.t) (n m source : nat)
    (targets repeated_nodes : list nat) (conn conn' : mat) (w w' : World) :
  ScaleFreeBA.grow fuel todo E c m source targets repeated_nodes conn w = Ok (conn', w') ->
  length targets = m ->
  Forall (fun t => (t < source)%nat) targets ->
  Forall (fun t => (t < source)%nat) repeated_nodes ->
  has_shape n n conn -> grown (ScaleFreeBA.directed c) conn ->
  (ScaleFreeBA.directed c = false -> symmetric conn) ->
  has_shape n n conn' /\ grown (ScaleFreeBA.directed c) conn'
  /\ (ScaleFreeBA.directed c = false -> symmetric conn').
Proof.
  revert source targets repeated_nodes conn w.
  induction todo as [|todo IH]; intros source targets rep conn w H Hlen Ht Hrep Hs Hg Hsym;
    simpl in H.
  - inversion H; subst. auto.
  - rewrite bind_lift_eq in H.
    destruct (fancy_set (replicate m source) targets true conn) as [conn1| |] eqn:H1;
      try discriminate.
    assert (Hs1 : has_shape n n conn1) by (eapply fancy_set_shape; eassumption).
    assert (Hg1 : grown (ScaleFreeBA.directed c) conn1).
    { intros a b Hab. destruct (fancy_set_entry _ _ _ _ a b H1 Hab) as [Hold|[Ha Hb]];
        [apply Hg; exact Hold|].
      apply elem_of_replicate in Ha as [-> _].
      eapply Forall_forall in Ht; [|exact Hb]. split; [lia | intros _; exact Ht]. }
    assert (Hstep : exists conn2,
               has_shape n n conn2 /\ grown (ScaleFreeBA.directed c) conn2
               /\ (ScaleFreeBA.directed c = false -> symmetric conn2)
               /\ exists w2 chosen,
                    ScaleFreeBA._random_subset fuel (closure_rng E)
                      (rep ++ targets ++ replicate m source) m ∅ w = Ok (chosen, w2)
                    /\ ScaleFreeBA.grow fuel todo E c m (S source) (elements chosen)
                         (rep ++ targets ++ replicate m source) conn2 w2 = Ok (conn', w')).
    { unfold bind in H. destruct (ScaleFreeBA.directed c) eqn:Hd.
      - unfold ret in H. exists conn1. split; [exact Hs1|]. split; [exact Hg1|].
        split; [intros Hf; discriminate|].
        destruct (ScaleFreeBA._random_subset _ _ _ _ _ w) as [[chosen w2]| |];
          try discriminate. eauto.
      - unfold lift in H.
        destruct (fancy_set targets (replicate m source) true conn1) as [conn2| |] eqn:H2;
          try discriminate.
        exists conn2. split; [eapply fancy_set_shape; eassumption|]. split; [|split].
        + intros a b Hab. destruct (fancy_set_entry _ _ _ _ a b H2 Hab) as [Hold|[Ha Hb]];
            [apply Hg1; exact Hold|].
          apply elem_of_replicate in Hb as [-> _].
          eapply Forall_forall in Ht; [|exact Ha]. split; [lia | discriminate].
        + intros _. eapply fancy_set_symmetric; [| apply Hsym; reflexivity | exact H1 | exact H2].
          rewrite length_replicate. symmetry. exact Hlen.
        + destruct (ScaleFreeBA._random_subset _ _ _ _ _ w) as [[chosen w2]| |];
            try discriminate. eauto. }
    destruct Hstep as (conn2 & Hs2 & Hg2 & Hsym2 & w2 & chosen & Hsub & Hrest).
    apply random_subset_exact in Hsub as [Hsize Hfrom]; [|rewrite size_empty; lia].
    assert (Hrep' : Forall (fun t => (t < S source)%nat)
                      (rep ++ targets ++ replicate m source)).
    { rewrite !Forall_app. repeat split.
      - eapply Forall_impl; [exact Hrep|]. intros; simpl in *; lia.
      - eapply Forall_impl; [exact Ht|]. intros; simpl in *; lia.
      - apply Forall_replicate. lia. }
    eapply IH; [exact Hrest | exact Hsize | | exact Hrep' | exact Hs2 | exact Hg2 | exact Hsym2].
    apply Forall_forall. intros x Hx. apply elem_of_elements in Hx.
    destruct (Hfrom x Hx) as [Hin|Hin]; [set_solver|].
    eapply Forall_forall in Hrep'; [|exact Hin]. exact Hrep'.
Qed.

(** What [build_conn] runs once its checks passed *)
Lemma ScaleFreeBA_build_conn_inv fuel E c pre_num post_num wd conn :
  value (ScaleFreeBA.build_conn fuel E c pre_num post_num wd) = Ok conn ->
  (1 <= ScaleFreeBA.m c < Z.of_nat pre_num)%Z
  /\ exists w1 w2,
       ScaleFreeBA.grow fuel (pre_num - Z.to_nat (ScaleFreeBA.m c)) E c
         (Z.to_nat (ScaleFreeBA.m c)) (Z.to_nat (ScaleFreeBA.m c))
         (seq 0 (Z.to_nat (ScaleFreeBA.m c))) [] (full pre_num pre_num false) w1
       = Ok (conn, w2).
Proof.
  unfold ScaleFreeBA.build_conn.
  destruct (decide (pre_num = post_num)); [|discriminate].
  destruct (reseed_total E wd) as [w1 H1]. rewrite (bind_ok _ _ _ _ _ H1). cbv zeta.
  destruct (ScaleFreeBA.m c <? 1)%Z eqn:Hlo; [discriminate|].
  destruct (Z.of_nat pre_num <=? ScaleFreeBA.m c)%Z eqn:Hhi; [discriminate|].
  apply Z.ltb_ge in Hlo. apply Z.leb_gt in Hhi. simpl.
  destruct (ScaleFreeBA.grow _ _ _ _ _ _ _ _ _ w1) as [[conn' w2]| |] eqn:Hg; try discriminate.
  simpl. intros H; inversion H; subst. split; [lia | eauto].
Qed.

Lemma full_false_grown (d : bool) (n : nat) : grown d (full n n false).
Proof. intros a b H. rewrite entry_full in H. case_decide; discriminate. Qed.

Lemma ScaleFreeBA_build_conn_facts fuel E c pre_num post_num wd conn :
  value (ScaleFreeBA.build_conn fuel E c pre_num post_num wd) = Ok conn ->
  has_shape pre_num pre_num conn /\ grown (ScaleFreeBA.directed c) conn
  /\ (ScaleFreeBA.directed c = false -> symmetric conn).
Proof.
  intros H. apply ScaleFreeBA_build_conn_inv in H as [Hm (w1 & w2 & Hg)].
  eapply grow_invariant; [exact Hg | apply length_seq | | constructor
                          | apply full_shape | apply full_false_grown
                          | intros _; apply full_symmetric].
  apply Forall_forall. intros x Hx. apply elem_of_seq in Hx. lia.
Qed.

(** X4: in the matrix a ScaleFreeBA build returns, for any [m] and any
    number of nodes, every node added by the growth loop (index [m] and
    above) has out-degree at least [m]. *)
Theorem ScaleFreeBA_out_degree_at_least_m (fuel : nat) (E : Env) (c : ScaleFreeBA.t)
    (pre_num post_num : nat) (wd : World) (conn : mat) (node : nat) :
  value (ScaleFreeBA.build_conn fuel E c pre_num post_num wd) = Ok conn ->
  (Z.to_nat (ScaleFreeBA.m c) <= node < pre_num)%nat ->
  (Z.to_nat (ScaleFreeBA.m c) <= out_degree conn node)%nat.
Proof.
  intros H Hnode. apply ScaleFreeBA_build_conn_inv in H as [Hm (w1 & w2 & Hg)].
  apply grow_out_degree in Hg as [_ Hdeg]; [| apply length_seq | apply NoDup_seq].
  apply Hdeg. lia.
Qed.

Lemma ScaleFreeBA_out_degree_at_least_m_witness :
  (Z.to_nat 2 <= out_degree sample_ba_graph 7)%nat.
Proof.
  apply (ScaleFreeBA_out_degree_at_least_m 40 (sample_env true)
           (ScaleFreeBA.mk 2 true 1) 10 10
           (fresh (sample_env true) 1 (constant_rng 0) (constant_rng 0))).
  - vm_compute. reflexivity.
  - simpl. lia.
Defined.

(** X5: a directed ScaleFreeBA build only creates edges from a node to a
    node of smaller index: the matrix is strictly lower triangular. *)
Theorem ScaleFreeBA_directed_edges_point_back (fuel : nat) (E : Env) (c : ScaleFreeBA.t)
    (pre_num post_num : nat) (wd : World) (conn : mat) (a b : nat) :
  ScaleFreeBA.directed c = true ->
  value (ScaleFreeBA.build_conn fuel E c pre_num post_num wd) = Ok conn ->
  entry conn a b = Some true -> (b < a)%nat.
Proof.
  intros Hd H Hab. apply ScaleFreeBA_build_conn_facts in H as (_ & Hg & _).
  destruct (Hg a b Hab) as [_ Hlt]. apply Hlt. exact Hd.
Qed.

Lemma ScaleFreeBA_directed_edges_point_back_witness : (4 < 6)%nat.
Proof.
  apply (ScaleFreeBA_directed_edges_point_back 40 (sample_env true)
           (ScaleFreeBA.mk 2 true 1) 10 10
           (fresh (sample_env true) 1 (constant_rng 0) (constant_rng 0))
           sample_ba_graph 6 4).
  - reflexivity.
  - vm_compute. reflexivity.
  - reflexivity.
Defined.


(** X6: an undirected ScaleFreeBA build returns a symmetric matrix. *)
Theorem ScaleFreeBA_undirected_symmetric (fuel : nat) (E : Env) (c : ScaleFreeBA.t)
    (pre_num post_num : nat) (wd : World) (conn : mat) (a b : nat) :
  ScaleFreeBA.directed c = false ->
  value (ScaleFreeBA.build_conn fuel E c pre_num post_num wd) = Ok conn ->
  entry conn a b = entry conn b a.
Proof.
  intros Hd H. apply ScaleFreeBA_build_conn_facts in H as (_ & _ & Hsym).
  apply Hsym. exact Hd.
Qed.

Lemma ScaleFreeBA_undirected_symmetric_witness :
  entry sample_ba_graph_undirected 7 1 = entry sample_ba_graph_undirected 1 7.
Proof.
  apply (ScaleFreeBA_undirected_symmetric 40 (sample_env false)
           (ScaleFreeBA.mk 2 false 1) 10 10
           (fresh (sample_env false) 1 (constant_rng 0) (constant_rng 0))).
  - reflexivity.
  - vm_compute. reflexivity.
Defined.

(** X7: a ScaleFreeBA build, directed or not, returns an N x N matrix with
    a False diagonal: a new node attaches to nodes that exist already. *)
Theorem ScaleFreeBA_no_self_loops (fuel : nat) (E : Env) (c : ScaleFreeBA.t)
    (pre_num post_num : nat) (wd : World) (conn : mat) (i : nat) :
  value (ScaleFreeBA.build_conn fuel E c pre_num post_num wd) = Ok conn ->
  (i < pre_num)%nat ->
  entry conn i i = Some false.
Proof.
  intros H Hi. apply ScaleFreeBA_build_conn_facts in H as ([Hrows Hcols] & Hg & _).
  specialize (Hg i i). unfold entry in *.
  destruct (lookup_lt_is_Some_2 conn i) as [r Hr]; [lia|]. rewrite Hr in *.
  eapply Forall_lookup_1 in Hcols; [|exact Hr]. simpl in Hcols.
  destruct (lookup_lt_is_Some_2 r i) as [b Hb]; [lia|]. rewrite Hb in *.
  destruct b; [|reflexivity]. destruct (Hg eq_refl) as [Hne _]. congruence.
Qed.

Lemma ScaleFreeBA_no_self_loops_witness :
  entry sample_ba_graph_undirected 2 2 = Some false.
Proof.
  apply (ScaleFreeBA_no_self_loops 40 (sample_env false)
           (ScaleFreeBA.mk 2 false 1) 10 10
           (fresh (sample_env false) 1 (constant_rng 0) (constant_rng 0))).
  - vm_compute. reflexivity.
  - lia.
Defined.

(** X8: when [_random_subset(seq, m)] returns, it returns exactly [m]
    distinct values, all of them values of [seq]. *)
Theorem random_subset_returns_m_of_seq (fuel : nat) (h : handle) (seq : list nat)
    (m : nat) (chosen : gset nat) (w w' : World) :
  ScaleFreeBA._random_subset fuel h seq m ∅ w = Ok (chosen, w') ->
  length (elements chosen) = m /\ NoDup (elements chosen)
  /\ Forall (fun x => x ∈ seq) (elements chosen).
Proof.
  intros H. apply random_subset_exact in H as [Hsize Hfrom]; [|rewrite size_empty; lia].
  split; [exact Hsize|]. split; [apply NoDup_elements|].
  apply Forall_forall. intros x Hx. apply elem_of_elements in Hx.
  destruct (Hfrom x Hx) as [Hin|Hin]; [set_solver | exact Hin].
Qed.

Lemma random_subset_returns_m_of_seq_witness :
  length (elements ({[0%nat; 2%nat]} : gset nat)) = 2%nat
  /\ NoDup (elements ({[0%nat; 2%nat]} : gset nat))
  /\ Forall (fun x => x ∈ [0%nat; 1%nat; 2%nat; 2%nat]) (elements ({[0%nat; 2%nat]} : gset nat)).
Proof.
  apply (random_subset_returns_m_of_seq 10 SelfRng [0%nat; 1%nat; 2%nat; 2%nat] 2
           {[0%nat; 2%nat]}
           (fresh (sample_env false) 1 (constant_rng 0) (constant_rng 0))
           (mkWorld 1 (mkRandomState (sample_stream 1) 2) (constant_rng 0) (constant_rng 0))).
  vm_compute. reflexivity.
Defined.

(** The loop of [_random_subset] only ever adds values of [seq]: with too
    few of them the set never reaches [m] elements. *)
Lemma random_subset_stuck (fuel : nat) (h : handle) (seq : list nat) (m : nat)
    (T : gset nat) (w : World) :
  (size (T ∪ list_to_set seq) < m)%nat ->
  forall r, ScaleFreeBA._random_subset fuel h seq m T w <> Ok r.
Proof.
  revert T w. induction fuel as [|fuel IH]; intros T w Hsz r; simpl.
  - assert (Hlt : (size T < m)%nat).
    { assert (size T <= size (T ∪ list_to_set seq))%nat
        by (apply subseteq_size; set_solver). lia. }
    apply Nat.ltb_lt in Hlt. rewrite Hlt. discriminate.
  - assert (Hlt : (size T < m)%nat).
    { assert (size T <= size (T ∪ list_to_set seq))%nat
        by (apply subseteq_size; set_solver). lia. }
    apply Nat.ltb_lt in Hlt. rewrite Hlt. unfold bind.
    destruct (rng_choice h seq w) as [[x w1]| |] eqn:Hx; try discriminate.
    apply rng_choice_elem in Hx. apply IH.
    replace ({[x]} ∪ T ∪ list_to_set seq) with (T ∪ list_to_set seq); [exact Hsz|].
    apply set_eq. intros y. rewrite !elem_of_union, elem_of_singleton, elem_of_list_to_set.
    split; [tauto|]. intros [[->|Hy]|Hy]; auto.
Qed.

(** X9: [_random_subset(seq, m)] never returns when [seq] holds fewer than
    [m] distinct values: the loop has no way out, whatever is drawn. *)
Theorem random_subset_too_few_values (fuel : nat) (h : handle) (seq : list nat) (m : nat)
    (w : World) :
  (size (list_to_set seq : gset nat) < m)%nat ->
  forall r, ScaleFreeBA._random_subset fuel h seq m ∅ w <> Ok r.
Proof.
  intros Hsz. apply random_subset_stuck.
  rewrite (left_id_L ∅ (∪)). exact Hsz.
Qed.

Lemma random_subset_too_few_values_witness :
  ScaleFreeBA._random_subset 50 SelfRng [0%nat; 3%nat; 3%nat] 3 ∅
    (fresh (sample_env false) 1 (constant_rng 0) (constant_rng 0))
  <> Ok (∅, fresh (sample_env false) 1 (constant_rng 0) (constant_rng 0)).
Proof.
  apply (random_subset_too_few_values 50 SelfRng [0%nat; 3%nat; 3%nat] 3).
  vm_compute. lia.
Defined.

(** ** FixedProb: the CSR pair of [build_conn] *)

Lemma where_from_spec (k : nat) (p : list bool) (t : nat) :
  t ∈ where_from k p <-> (k <= t)%nat /\ p !! (t - k)%nat = Some true.
Proof.
  revert k. induction p as [|b p IH]; intros k; simpl.
  - split; [intros H; inversion H | intros [_ H]; discriminate].
  - assert (Htail : t ∈ where_from (S k) p <-> (k < t)%nat /\ (b :: p) !! (t - k)%nat = Some true).
    { rewrite IH. split; intros [H1 H2]; (split; [lia|]).
      - replace (t - k)%nat with (S (t - S k)) by lia. exact H2.
      - replace (t - k)%nat with (S (t - S k)) in H2 by lia. exact H2. }
    destruct b.
    + rewrite elem_of_cons, Htail. split.
      * intros [->|[H1 H2]]; [split; [lia|]; rewrite Nat.sub_diag; reflexivity|].
        split; [lia | exact H2].
      * intros [H1 H2]. destruct (decide (t = k)) as [->|Hne]; [left; reflexivity|].
        right. split; [lia | exact H2].
    + rewrite Htail. split; intros [H1 H2]; (split; [|exact H2]); [lia|].
      destruct (decide (t = k)) as [->|Hne]; [|lia].
      rewrite Nat.sub_diag in H2. discriminate.
Qed.

Lemma where_from_sorted (k : nat) (p : list bool) : StronglySorted lt (where_from k p).
Proof.
  revert k. induction p as [|b p IH]; intros k; simpl; [constructor|].
  destruct b; [|apply IH]. constructor; [apply IH|].
  apply Forall_forall. intros t Ht. apply where_from_spec in Ht. lia.
Qed.


Lemma f_connect_row (c : FixedProb.t) (pre_i num_post : nat) (s : RandomState)
    (ps : list nat) :
  fst (FixedProb.f_connect c pre_i num_post s) = Some ps ->
  prob_row (FixedProb.include_self c) num_post pre_i ps.
Proof.
  unfold FixedProb.f_connect. simpl.
  destruct (Qlt_bool _ _); [|discriminate].
  pose proof (random_n_length num_post (mkRandomState (src s) (S (pos s)))) as Hl.
  destruct (random_n num_post _) as [xs s2]. simpl in *.
  intros H; inversion H; subst ps. clear H.
  set (p0 := map (fun x => Qle_bool x (FixedProb.prob c)) xs).
  assert (Hp0 : length p0 = num_post) by (subst p0; rewrite length_map; exact Hl).
  set (p := if negb (FixedProb.include_self c) && (pre_i <? num_post)%nat
            then <[pre_i := false]> p0 else p0).
  assert (Hp : length p = num_post).
  { subst p. destruct (_ && _); [rewrite length_insert|]; exact Hp0. }
  split; [apply where_from_sorted|]. split.
  - apply Forall_forall. intros t Ht. apply where_from_spec in Ht as [_ Ht].
    apply lookup_lt_Some in Ht. lia.
  - intros Hs Hin. apply where_from_spec in Hin as [_ Hin].
    rewrite Nat.sub_0_r in Hin. pose proof (lookup_lt_Some _ _ _ Hin) as Hlt.
    subst p. rewrite Hs in Hin. simpl in Hin.
    replace (pre_i <? num_post)%nat with true in Hin
      by (symmetry; apply Nat.ltb_lt; rewrite Hs in Hlt; simpl in Hlt;
          destruct (pre_i <? num_post)%nat eqn:E; [apply Nat.ltb_lt in E; lia|];
          rewrite Hp0 in Hlt; exact Hlt).
    rewrite list_lookup_insert_eq in Hin by lia. discriminate.
Qed.

Lemma connect_rows_rows (c : FixedProb.t) (todo i post_num : nat) (s : RandomState) :
  exists rows,
    length rows = todo
    /\ concat (fst (fst (FixedProb.connect_rows c todo i post_num s))) = concat rows
    /\ snd (fst (FixedProb.connect_rows c todo i post_num s)) = map length rows
    /\ forall k r, rows !! k = Some r ->
                   prob_row (FixedProb.include_self c) post_num (i + k) r.
Proof.
  revert i s. induction todo as [|todo IH]; intros i s; simpl.
  - exists []. split; [reflexivity|]. split; [reflexivity|]. split; [reflexivity|].
    intros k r H. discriminate.
  - pose proof (f_connect_row c i post_num s) as Hrow.
    destruct (FixedProb.f_connect c i post_num s) as [posts s1]. simpl in Hrow.
    destruct (IH (S i) s1) as (rows & Hlen & Hcat & Hcount & Hall).
    destruct (FixedProb.connect_rows c todo (S i) post_num s1) as [[ind count] s2].
    simpl in *.
    assert (Hrest : forall k r, rows !! k = Some r ->
              prob_row (FixedProb.include_self c) post_num (i + S k) r).
    { intros k r Hk. replace (i + S k)%nat with (S i + k)%nat by lia. eauto. }
    destruct posts as [ps|].
    + exists (ps :: rows). simpl. split; [lia|]. split; [congruence|].
      split; [congruence|]. intros [|k] r Hk; simpl in Hk.
      * inversion Hk; subst. rewrite Nat.add_0_r. apply Hrow. reflexivity.
      * apply Hrest. exact Hk.
    + exists ([] :: rows). simpl. split; [lia|]. split; [congruence|].
      split; [congruence|]. intros [|k] r Hk; simpl in Hk.
      * inversion Hk; subst. split; [constructor|]. split; [constructor|].
        intros _ Hin. inversion Hin.
      * apply Hrest. exact Hk.
Qed.

Lemma cumsum_from_lookup (acc : nat) (l : list nat) (i : nat) :
  (i < length l)%nat ->
  cumsum_from acc l !! i = Some (acc + sum_list (take (S i) l))%nat.
Proof.
  revert acc i. induction l as [|x l IH]; intros acc i Hi; simpl in *; [lia|].
  destruct i as [|i].
  - simpl. f_equal. lia.
  - change ((acc + x :: cumsum_from (acc + x) l) !! S i)
      with (cumsum_from (acc + x) l !! i).
    rewrite IH by lia. f_equal. lia.
Qed.

Lemma indptr_lookup (count : list nat) (i : nat) :
  (i <= length count)%nat ->
  indptr_of count !! i = Some (sum_list (take i count)).
Proof.
  intros Hi. unfold indptr_of. destruct i as [|i]; simpl; [reflexivity|].
  rewrite cumsum_from_lookup by lia. simpl. reflexivity.
Qed.

Lemma sum_list_lengths (rows : list (list nat)) :
  sum_list (map length rows) = length (concat rows).
Proof.
  induction rows as [|r rows IH]; simpl; [reflexivity|]. rewrite length_app, IH. reflexivity.
Qed.

(** The slice of row [i] of a CSR pair built from [rows] is [rows[i]]. *)
Lemma csr_row_concat (rows : list (list nat)) (i : nat) (r : list nat) :
  rows !! i = Some r ->
  csr_row (concat rows) (indptr_of (map length rows)) i = r.
Proof.
  intros Hr. pose proof (lookup_lt_Some _ _ _ Hr) as Hi. unfold csr_row.
  rewrite !indptr_lookup by (rewrite length_map; lia). simpl.
  rewrite !firstn_map, !sum_list_lengths.
  rewrite (take_S_r rows i r Hr), concat_app, length_app. simpl. rewrite app_nil_r.
  replace (length (concat (take i rows)) + length r - length (concat (take i rows)))%nat
    with (length r) by lia.
  rewrite <- (take_drop_middle rows i r Hr) at 2.
  rewrite concat_app. simpl. rewrite drop_app_length. apply take_app_length.
Qed.

Lemma cumsum_from_sorted (acc : nat) (l : list nat) :
  StronglySorted le (acc :: cumsum_from acc l).
Proof.
  revert acc. induction l as [|x l IH]; intros acc; simpl.
  - repeat constructor.
  - specialize (IH (acc + x)%nat). constructor; [exact IH|].
    inversion IH as [|? ? Hs Hall]; subst. constructor; [lia|].
    eapply Forall_impl; [exact Hall|]. intros y Hy. simpl in *. lia.
Qed.

Lemma build_conn_rows (E : Env) (c : FixedProb.t) (pre_num post_num : nat) (w : World) :
  exists rows,
    length rows = pre_num
    /\ value (FixedProb.build_conn E c pre_num post_num w)
       = Ok (concat rows, indptr_of (map length rows))
    /\ forall i r, rows !! i = Some r ->
                   prob_row (FixedProb.include_self c) post_num i r.
Proof.
  destruct (connect_rows_rows c pre_num 0 post_num (seeded E (FixedProb.seed c)))
    as (rows & Hlen & Hcat & Hcount & Hall).
  exists rows. split; [exact Hlen|]. split; [|exact Hall].
  unfold FixedProb.build_conn. destruct (SUPPORT_NUMBA E) eqn:Hn.
  - unfold bind, numba_seed, with_rng, ret. rewrite Hn. simpl.
    destruct (FixedProb.connect_rows c pre_num 0 post_num (seeded E (FixedProb.seed c)))
      as [r s']. simpl in *. unfold FixedProb.csr_of_rows. rewrite Hcat, Hcount. reflexivity.
  - destruct (FixedProb.connect_rows c pre_num 0 post_num (seeded E (FixedProb.seed c)))
      as [r s']. simpl in *. unfold FixedProb.csr_of_rows. rewrite Hcat, Hcount. reflexivity.
Qed.

(** X10: [FixedProb.build_conn] always returns, and what it returns is a
    well-formed CSR pair: [indptr] has pre_num + 1 entries, starts at 0,
    never decreases and ends at [len(ind)]. *)
Theorem FixedProb_build_conn_indptr (E : Env) (c : FixedProb.t) (pre_num post_num : nat)
    (w : World) :
  exists ind indptr,
    value (FixedProb.build_conn E c pre_num post_num w) = Ok (ind, indptr)
    /\ length indptr = S pre_num
    /\ indptr !! 0%nat = Some 0%nat
    /\ indptr !! pre_num = Some (length ind)
    /\ StronglySorted le indptr.
Proof.
  destruct (build_conn_rows E c pre_num post_num w) as (rows & Hlen & Hv & _).
  exists (concat rows), (indptr_of (map length rows)). split; [exact Hv|].
  split; [rewrite indptr_length, length_map; lia|]. split; [reflexivity|]. split.
  - rewrite indptr_lookup by (rewrite length_map; lia).
    rewrite take_ge by (rewrite length_map; lia). f_equal. apply sum_list_lengths.
  - unfold indptr_of. simpl.
    pose proof (cumsum_from_sorted 0 (0%nat :: map length rows)) as H.
    inversion H; subst. assumption.
Qed.

(** X11: each row of the CSR pair [FixedProb.build_conn] returns lists post
    indices below [post_num] in ascending order, without repetition, and
    without the row's own index when [include_self] is False. *)
Theorem FixedProb_build_conn_row (E : Env) (c : FixedProb.t) (pre_num post_num : nat)
    (w : World) (ind indptr : list nat) (i : nat) :
  value (FixedProb.build_conn E c pre_num post_num w) = Ok (ind, indptr) ->
  (i < pre_num)%nat ->
  StronglySorted lt (csr_row ind indptr i)
  /\ Forall (fun j => (j < post_num)%nat) (csr_row ind indptr i)
  /\ (FixedProb.include_self c = false -> i ∉ csr_row ind indptr i).
Proof.
  intros H Hi. destruct (build_conn_rows E c pre_num post_num w) as (rows & Hlen & Hv & Hall).
  rewrite Hv in H. inversion H; subst ind indptr.
  destruct (lookup_lt_is_Some_2 rows i) as [r Hr]; [lia|].
  rewrite (csr_row_concat rows i r Hr). apply (Hall i r Hr).
Qed.

Lemma FixedProb_build_conn_row_witness :
  StronglySorted lt (csr_row [1%nat; 0%nat; 2%nat; 0%nat] [0%nat; 1%nat; 3%nat; 4%nat] 1)
  /\ Forall (fun j => (j < 3)%nat)
            (csr_row [1%nat; 0%nat; 2%nat; 0%nat] [0%nat; 1%nat; 3%nat; 4%nat] 1)
  /\ (FixedProb.include_self (FixedProb.mk (1 # 2) 1 false 4) = false ->
      1%nat ∉ csr_row [1%nat; 0%nat; 2%nat; 0%nat] [0%nat; 1%nat; 3%nat; 4%nat] 1).
Proof.
  apply (FixedProb_build_conn_row (sample_env false) (FixedProb.mk (1 # 2) 1 false 4) 3 3
           (fresh (sample_env false) 4 (constant_rng 0) (constant_rng 0))).
  - vm_compute. reflexivity.
  - lia.
Defined.

(** ** FixedProb: the dense matrix of [build_mat] *)




Lemma FixedProb_build_conn_complete_witness :
  value (FixedProb.build_conn (sample_env true) (FixedProb.mk 1 1 true 5) 2 3
           (fresh (sample_env true) 5 (constant_rng 0) (constant_rng 0)))
  = Ok (concat (replicate 2 (seq 0 3)), indptr_of (replicate 2 3%nat)).
Proof.
  apply (FixedProb_build_conn_complete (sample_env true) 5 2 3).
  apply sample_env_ok.
Defined.

Lemma FixedProb_build_mat_complete_witness :
  value (FixedProb.build_mat (FixedProb.mk 1 1 true 5) 2 3
           (fresh (sample_env true) 5 (constant_rng 0) (constant_rng 0)))
  = Ok (full 2 3 true).
Proof.
  apply (FixedProb_build_mat_complete 5 2 3).
  repeat split; simpl; try apply sample_stream_unit; try apply Qle_refl; reflexivity.
Defined.

Lemma FixedProb_build_mat_prob0_witness :
  exists conn,
    value (FixedProb.build_mat (FixedProb.mk 0 1 true 5) 2 3
             (fresh (sample_env true) 5 (constant_rng 0) (constant_rng 0))) = Ok conn
    /\ mat_edges conn = 0%nat.
Proof.
  apply (FixedProb_build_mat_prob0 1 true 5 2 3).
  repeat split; simpl; try apply sample_stream_unit; try apply Qle_refl; reflexivity.
Defined.


Lemma FixedProb_build_conn_prob0_positive_witness :
  exists r,
    value (FixedProb.build_conn (halves_env false) (FixedProb.mk 0 1 true 5) 2 3
             (fresh (halves_env false) 5 (constant_rng 0) (constant_rng 0))) = Ok r
    /\ csr_edges r = 0%nat.
Proof.
  apply (FixedProb_build_conn_prob0_positive (halves_env false) 1 true 5 2 3).
  intros n. reflexivity.
Defined.

(** ** FixedNum: the self index and the ranking *)


Lemma insert_by_sorted (key : nat -> Q) (i : nat) (l : list nat) :
  key_sorted key l -> key_sorted key (insert_by key i l).
Proof.
  unfold key_sorted. induction 1 as [|j l Hs IH Hall]; simpl.
  - repeat constructor.
  - destruct (Qle_bool (key i) (key j)) eqn:Hle.
    + apply Qle_bool_iff in Hle. constructor; [constructor; assumption|].
      constructor; [exact Hle|]. eapply Forall_impl; [exact Hall|].
      intros x Hx. simpl in *. eapply Qle_trans; eassumption.
    + assert (Hji : (key j <= key i)%Q).
      { destruct (Qlt_le_dec (key i) (key j)) as [Hlt|Hge]; [|exact Hge].
        apply Qlt_le_weak in Hlt. apply Qle_bool_iff in Hlt. congruence. }
      constructor; [exact IH|].
      rewrite (insert_by_perm key i l). constructor; assumption.
Qed.

Lemma argsort_sorted (prob : list Q) :
  key_sorted (fun i => default 0%Q (prob !! i)) (argsort prob).
Proof.
  unfold argsort. generalize (seq 0 (length prob)) as l.
  induction l as [|i l IH]; simpl; [constructor|]. apply insert_by_sorted. exact IH.
Qed.

(** A position whose key is strictly above every other key is ranked last. *)
Lemma strict_max_last (key : nat -> Q) (l : list nat) (i : nat) (k : nat) :
  key_sorted key l -> NoDup l -> i ∈ l ->
  (forall j, j ∈ l -> j <> i -> (key j < key i)%Q) ->
  (k < length l)%nat -> i ∉ take k l.
Proof.
  intros Hs Hnd Hi Hmax Hk Hin.
  apply list_elem_of_lookup in Hin as [n Hn].
  apply lookup_take_Some in Hn as [Hn Hnk].
  destruct (lookup_lt_is_Some_2 l (S n)) as [x Hx]; [lia|].
  assert (Hle : (key i <= key x)%Q).
  { unfold key_sorted in Hs. rewrite <- (take_drop (S n) l) in Hs.
    eapply (StronglySorted_app_1_elem_of _ _ _ i x Hs).
    - apply list_elem_of_lookup. exists n. apply lookup_take_Some. split; [exact Hn | lia].
    - apply list_elem_of_lookup. exists 0%nat. rewrite lookup_drop.
      rewrite Nat.add_0_r. exact Hx. }
  assert (Hxi : x <> i).
  { intros ->. pose proof (NoDup_lookup l _ _ _ Hnd Hn Hx). lia. }
  assert (Hxl : x ∈ l) by (eapply list_elem_of_lookup_2; exact Hx).
  pose proof (Hmax x Hxl Hxi) as Hlt'.
  eapply Qlt_not_le; eassumption.
Qed.

Lemma fixed_num_prob_no_self (c : FixedNum.t) (k n i : nat) (s : RandomState)
    (ids : list nat) :
  FixedNum.include_self c = false -> (i < n)%nat -> (k < n)%nat -> unit_interval s ->
  fst (FixedNum._fixed_num_prob c k n i s) = Ok ids -> i ∉ ids.
Proof.
  intros Hs Hi Hk Hu. unfold FixedNum._fixed_num_prob.
  pose proof (random_n_length n s) as Hlen.
  pose proof (random_n_range n s Hu) as Hrange.
  destruct (random_n n s) as [prob s1]. simpl in *.
  rewrite Hs. simpl. replace (i <=? n)%nat with true by (symmetry; apply Nat.leb_le; lia).
  rewrite setitem_in_range by lia. simpl. intros H; inversion H; subst ids. clear H.
  set (prob' := <[i := 1%Q]> prob).
  assert (Hlen' : length prob' = n) by (subst prob'; rewrite length_insert; exact Hlen).
  pose proof (argsort_perm prob') as Hp. rewrite Hlen' in Hp.
  apply (strict_max_last (fun j => default 0%Q (prob' !! j))).
  - apply argsort_sorted.
  - rewrite Hp. apply NoDup_seq.
  - rewrite Hp. apply elem_of_seq. lia.
  - intros j Hj Hne. rewrite Hp in Hj. apply elem_of_seq in Hj. subst prob'.
    rewrite list_lookup_insert_eq by lia. rewrite list_lookup_insert_ne by congruence.
    destruct (lookup_lt_is_Some_2 prob j) as [x Hx]; [lia|]. rewrite Hx. simpl.
    eapply Forall_lookup_1 in Hrange; [|exact Hx]. apply Hrange.
  - rewrite (Permutation_length Hp), length_seq. exact Hk.
Qed.

Lemma fixed_num_prob_unit (c : FixedNum.t) (k n i : nat) (s : RandomState) :
  unit_interval s -> unit_interval (snd (FixedNum._fixed_num_prob c k n i s)).
Proof.
  intros Hu. unfold FixedNum._fixed_num_prob.
  pose proof (random_n_unit n s Hu) as H.
  destruct (random_n n s) as [prob s1]. exact H.
Qed.

Lemma connect_all_rows_no_self (E : Env) (c : FixedNum.t) (k n todo i : nat) (w : World) :
  FixedNum.include_self c = false -> (k < n)%nat -> (i + todo <= n)%nat -> World_ok w ->
  exists rows w', FixedNum.connect_all E c k n todo i w = Ok (rows, w')
    /\ length rows = todo /\ Forall (exact_row k n) rows
    /\ forall j r, rows !! j = Some r -> (i + j)%nat ∉ r.
Proof.
  intros Hs Hk. revert i w. induction todo as [|todo IH]; intros i w Hi Hw; simpl.
  - exists [], w. repeat split; [constructor|]. intros j r H. discriminate.
  - unfold bind. rewrite connect_unfold.
    pose proof (get_rng_ok (closure_rng E) w Hw) as Hu.
    destruct (fixed_num_prob_row c k n i (get_rng (closure_rng E) w)) as (ids & Hids & Hrow);
      [lia | right; lia |].
    pose proof (fixed_num_prob_no_self c k n i _ ids Hs ltac:(lia) Hk Hu Hids) as Hno.
    rewrite Hids.
    destruct (IH (S i) (set_rng (closure_rng E)
                (snd (FixedNum._fixed_num_prob c k n i (get_rng (closure_rng E) w))) w))
      as (rows & w' & Hrows & Hlen & Hall & Hno').
    { lia. }
    { apply set_rng_ok; [exact Hw | apply fixed_num_prob_unit; exact Hu]. }
    rewrite Hrows. exists (ids :: rows), w'.
    split; [reflexivity|]. split; [simpl; lia|]. split; [constructor; assumption|].
    intros [|j] r Hj; simpl in Hj.
    + inversion Hj; subst. rewrite Nat.add_0_r. exact Hno.
    + replace (i + S j)%nat with (S i + j)%nat by lia. eapply Hno'. exact Hj.
Qed.

(** The outcome of [FixedPostNum.build_conn] in terms of the rows drawn *)
Lemma FixedPostNum_build_conn_of_rows (E : Env) (c : FixedNum.t) (k pre_num post_num : nat)
    (w w1 w2 : World) (rows : list (list nat)) :
  FixedNum.check_num c post_num = Ok k ->
  reseed E w = Ok (tt, w1) ->
  FixedNum.connect_all E c k post_num pre_num 0 w1 = Ok (rows, w2) ->
  length rows = pre_num -> (1 <= pre_num)%nat ->
  value (FixedPostNum.build_conn E c pre_num post_num w)
  = Ok (concat rows, indptr_of (replicate pre_num k)).
Proof.
  intros Hc Hr Hrows Hlen Hpre. unfold FixedPostNum.build_conn.
  rewrite bind_lift_eq, Hc. rewrite (bind_ok _ _ _ _ _ Hr).
  rewrite (bind_ok _ _ _ _ _ Hrows). rewrite bind_lift_eq.
  unfold FixedNum.np_concatenate. destruct rows as [|r0 rows0]; [simpl in Hlen; lia|].
  reflexivity.
Qed.

Lemma check_num_int (include_self : bool) (seed : Z) (k total : nat) :
  (k <= total)%nat ->
  FixedNum.check_num (FixedNum.mk (FixedNum.NumInt (Z.of_nat k)) include_self seed) total
  = Ok k.
Proof.
  intros Hk. unfold FixedNum.check_num. simpl.
  replace (0 <=? Z.of_nat k)%Z with true by (symmetry; apply Z.leb_le; lia).
  replace (Z.of_nat k <=? Z.of_nat total)%Z with true by (symmetry; apply Z.leb_le; lia).
  simpl. rewrite Nat2Z.id. reflexivity.
Qed.

(** X18: FixedPostNum with [include_self=False], an integer [num] below
    post_num and no more pre than post nodes: no row of the CSR pair holds
    its own index.  The self draw is set to 1.0, above every draw of the
    unit interval, so it is ranked last. *)
Theorem FixedPostNum_excludes_self (E : Env) (k : nat) (seed : Z)
    (pre_num post_num : nat) (w : World) (post_ids indptr : list nat) (i : nat) :
  Env_ok E -> World_ok w ->
  (k < post_num)%nat -> (1 <= pre_num <= post_num)%nat ->
  value (FixedPostNum.build_conn E
           (FixedNum.mk (FixedNum.NumInt (Z.of_nat k)) false seed) pre_num post_num w)
  = Ok (post_ids, indptr) ->
  (i < pre_num)%nat ->
  i ∉ csr_row post_ids indptr i.
Proof.
  intros HE Hw Hk Hpre H Hi.
  set (c := FixedNum.mk (FixedNum.NumInt (Z.of_nat k)) false seed) in *.
  destruct (reseed_ok E w HE Hw) as (w1 & Hr & Hw1).
  destruct (connect_all_rows_no_self E c k post_num pre_num 0 w1 eq_refl Hk ltac:(lia) Hw1)
    as (rows & w2 & Hrows & Hlen & Hall & Hno).
  rewrite (FixedPostNum_build_conn_of_rows E c k pre_num post_num w w1 w2 rows) in H;
    [| apply check_num_int; lia | exact Hr | exact Hrows | exact Hlen | lia].
  inversion H; subst post_ids indptr.
  destruct (lookup_lt_is_Some_2 rows i) as [r Hri]; [lia|].
  rewrite <- Hlen. rewrite (csr_row_uniform rows k i r).
  - apply (Hno i r Hri).
  - eapply Forall_impl; [exact Hall|]. intros x Hx. apply Hx.
  - exact Hri.
Qed.

Lemma FixedPostNum_excludes_self_witness :
  1%nat ∉ csr_row [1%nat; 2%nat; 1%nat] [0%nat; 1%nat; 2%nat; 3%nat] 1.
Proof.
  apply (FixedPostNum_excludes_self (sample_env false) 1 2 3 3
           (fresh (sample_env false) 2 (constant_rng 0) (constant_rng 0))).
  - apply sample_env_ok.
  - repeat split; simpl; try apply sample_stream_unit; try apply Qle_refl; reflexivity.
  - lia.
  - lia.
  - vm_compute. reflexivity.
  - lia.
Defined.

Lemma full_row_has_all (n : nat) (r : list nat) (j : nat) :
  exact_row n n r -> (j < n)%nat -> j ∈ r.
Proof.
  intros (Hlen & Hnd & Hall) Hj.
  assert (Hsub : r ⊆+ seq 0 n).
  { apply NoDup_submseteq; [exact Hnd|]. intros x Hx.
    eapply Forall_forall in Hall; [|exact Hx]. apply elem_of_seq. simpl in Hall. lia. }
  assert (Hperm : r ≡ₚ seq 0 n).
  { apply submseteq_length_Permutation; [exact Hsub|]. rewrite length_seq. lia. }
  rewrite Hperm. apply elem_of_seq. lia.
Qed.

(** X19: FixedPostNum with [num] equal to post_num connects every pre node
    to every post node, its own index included, also when [include_self] is
    False: all post_num draws are taken, the one forced to 1.0 too. *)
Theorem FixedPostNum_full_degree_keeps_self (E : Env) (include_self : bool) (seed : Z)
    (pre_num post_num : nat) (w : World) (post_ids indptr : list nat) (i j : nat) :
  (1 <= pre_num <= post_num)%nat ->
  value (FixedPostNum.build_conn E
           (FixedNum.mk (FixedNum.NumInt (Z.of_nat post_num)) include_self seed)
           pre_num post_num w)
  = Ok (post_ids, indptr) ->
  (i < pre_num)%nat -> (j < post_num)%nat ->
  j ∈ csr_row post_ids indptr i.
Proof.
  intros Hpre H Hi Hj.
  set (c := FixedNum.mk (FixedNum.NumInt (Z.of_nat post_num)) include_self seed) in *.
  destruct (reseed_total E w) as (w1 & Hr).
  destruct (connect_all_rows E c post_num post_num pre_num 0 w1 ltac:(lia))
    as (rows & w2 & Hrows & Hlen & Hall); [right; simpl; lia|].
  rewrite (FixedPostNum_build_conn_of_rows E c post_num pre_num post_num w w1 w2 rows) in H;
    [| apply check_num_int; lia | exact Hr | exact Hrows | exact Hlen | lia].
  inversion H; subst post_ids indptr.
  destruct (lookup_lt_is_Some_2 rows i) as [r Hri]; [lia|].
  rewrite <- Hlen. rewrite (csr_row_uniform rows post_num i r).
  - apply (full_row_has_all post_num); [|exact Hj].
    eapply Forall_lookup_1 in Hall; [exact Hall | exact Hri].
  - eapply Forall_impl; [exact Hall|]. intros x Hx. apply Hx.
  - exact Hri.
Qed.

Lemma FixedPostNum_full_degree_keeps_self_witness :
  1%nat ∈ csr_row [1%nat; 0%nat; 0%nat; 1%nat] [0%nat; 2%nat; 4%nat] 1.
Proof.
  apply (FixedPostNum_full_degree_keeps_self (sample_env false) false 2 2 2
           (fresh (sample_env false) 2 (constant_rng 0) (constant_rng 0))).
  - lia.
  - vm_compute. reflexivity.
  - lia.
  - lia.
Defined.

Lemma FixedPostNum_rows_exact_witness :
  exists post_ids indptr,
    value (FixedPostNum.build_conn (sample_env false)
             (FixedNum.mk (FixedNum.NumInt (Z.of_nat 2)) false 2) 3 4
             (fresh (sample_env false) 2 (constant_rng 0) (constant_rng 0)))
    = Ok (post_ids, indptr)
    /\ length indptr = 4%nat
    /\ forall i, (i < 3)%nat -> exact_row 2 4 (csr_row post_ids indptr i).
Proof.
  apply (FixedPostNum_rows_exact (sample_env false) 2 false 2 3 4).
  - lia.
  - lia.
  - right. lia.
Defined.

(** ** FixedPreNum: the edge list *)

Lemma zip_block (k : nat) (r : list nat) (j : nat) (xs ys : list nat) :
  length r = k ->
  zip (r ++ xs) (replicate k j ++ ys) = map (fun p => (p, j)) r ++ zip xs ys.
Proof.
  intros <-. induction r as [|p r IH]; simpl; [reflexivity|]. f_equal. exact IH.
Qed.

Lemma elem_of_zip_blocks (k : nat) (rows : list (list nat)) (js : list nat) (p j : nat) :
  Forall (fun r => length r = k) rows ->
  (p, j) ∈ zip (concat rows) (concat (map (replicate k) js)) -> j ∈ js.
Proof.
  intros Hall. revert js. induction Hall as [|r rows Hr _ IH]; intros js H.
  - simpl in H. inversion H.
  - destruct js as [|j0 js]; [simpl in H; rewrite zip_with_nil_r in H; inversion H|].
    simpl in H. rewrite (zip_block k r j0) in H by exact Hr.
    apply elem_of_app in H as [H|H].
    + apply elem_of_map_pair_r in H as [_ ->]. left.
    + right. apply IH. exact H.
Qed.

Lemma NoDup_zip_blocks (k : nat) (rows : list (list nat)) (js : list nat) :
  Forall (fun r => length r = k /\ NoDup r) rows -> NoDup js ->
  NoDup (zip (concat rows) (concat (map (replicate k) js))).
Proof.
  intros Hall. revert js. induction Hall as [|r rows [Hr Hnd] Hall IH]; intros js Hjs.
  - simpl. constructor.
  - destruct js as [|j0 js]; [simpl; rewrite zip_with_nil_r; constructor|].
    simpl. rewrite (zip_block k r j0) by exact Hr.
    apply NoDup_cons in Hjs as [Hj0 Hjs].
    apply NoDup_app. split; [|split].
    + apply NoDup_fmap_2; [|exact Hnd]. intros a b Hab. inversion Hab. reflexivity.
    + intros [p j] Hin Hin'. apply elem_of_map_pair_r in Hin as [_ ->].
      apply elem_of_zip_blocks in Hin'; [contradiction|].
      eapply Forall_impl; [exact Hall|]. intros x [Hx _]. exact Hx.
    + apply IH. exact Hjs.
Qed.

Lemma concat_uniform_length (k : nat) (rows : list (list nat)) :
  Forall (fun r => length r = k) rows -> length (concat rows) = (length rows * k)%nat.
Proof.
  induction 1 as [|r rows Hr _ IH]; simpl; [reflexivity|]. rewrite length_app, IH, Hr. lia.
Qed.

(** X20: FixedPreNum with an integer [num] within pre_num, where the self
    write stays in bounds ([include_self] True, or no more post than pre
    nodes): the edge list has post_num * num edges, post index [j] on the
    [num] edges of block [j], pre indices below pre_num, and no edge
    occurs twice. *)
Theorem FixedPreNum_edges (E : Env) (k : nat) (include_self : bool) (seed : Z)
    (pre_num post_num : nat) (w : World) :
  (k <= pre_num)%nat -> include_self = true \/ (post_num <= pre_num)%nat ->
  exists pre_ids post_ids,
    value (FixedPreNum.build_conn E
             (FixedNum.mk (FixedNum.NumInt (Z.of_nat k)) include_self seed)
             pre_num post_num w) = Ok (pre_ids, post_ids)
    /\ post_ids = concat (map (replicate k) (seq 0 post_num))
    /\ length pre_ids = (post_num * k)%nat
    /\ Forall (fun p => (p < pre_num)%nat) pre_ids
    /\ NoDup (zip pre_ids post_ids).
Proof.
  intros Hk Hself.
  set (c := FixedNum.mk (FixedNum.NumInt (Z.of_nat k)) include_self seed).
  destruct (reseed_total E w) as (w1 & Hr).
  destruct (connect_all_rows E c k pre_num post_num 0 w1 Hk)
    as (rows & w2 & Hrows & Hlen & Hall).
  { destruct Hself; [left; assumption | right; simpl; lia]. }
  exists (concat rows), (concat (map (replicate k) (seq 0 post_num))).
  split; [|split; [reflexivity|]].
  - unfold FixedPreNum.build_conn. rewrite bind_lift_eq.
    pose proof (check_num_int include_self seed k pre_num Hk) as Hc. fold c in Hc.
    rewrite Hc. rewrite (bind_ok _ _ _ _ _ Hr). rewrite (bind_ok _ _ _ _ _ Hrows). reflexivity.
  - split; [|split].
    + rewrite (concat_uniform_length k), Hlen; [reflexivity|].
      eapply Forall_impl; [exact Hall|]. intros x Hx. apply Hx.
    + apply Forall_concat. eapply Forall_impl; [exact Hall|]. intros x Hx. apply Hx.
    + apply NoDup_zip_blocks; [|apply NoDup_seq].
      eapply Forall_impl; [exact Hall|]. intros x (H1 & H2 & _). auto.
Qed.

Lemma FixedPreNum_edges_witness :
  exists pre_ids post_ids,
    value (FixedPreNum.build_conn (sample_env false)
             (FixedNum.mk (FixedNum.NumInt (Z.of_nat 2)) false 2) 4 3
             (fresh (sample_env false) 2 (constant_rng 0) (constant_rng 0)))
    = Ok (pre_ids, post_ids)
    /\ post_ids = concat (map (replicate 2) (seq 0 3))
    /\ length pre_ids = (3 * 2)%nat
    /\ Forall (fun p => (p < 4)%nat) pre_ids
    /\ NoDup (zip pre_ids post_ids).
Proof.
  apply (FixedPreNum_edges (sample_env false) 2 false 2 4 3).
  - lia.
  - right. lia.
Defined.

(** ** Positions and flat indices *)

Lemma pos2ind_unravel_mod (shape : list nat) (j : nat) :
  pos2ind (unravel shape j) shape = (j mod prod_list shape)%nat.
Proof.
  induction shape as [|d rest IH]; simpl.
  - reflexivity.
  - rewrite IH. rewrite (Nat.mul_comm d (prod_list rest)).
    rewrite Nat.Div0.mod_mul_r. lia.
Qed.

Lemma unravel_in_range (shape : list nat) (j : nat) :
  Forall (fun d => (0 < d)%nat) shape -> Forall2 lt (unravel shape j) shape.
Proof.
  induction 1 as [|d rest Hd _ IH]; simpl; constructor; [|exact IH].
  apply Nat.mod_upper_bound. lia.
Qed.

Lemma prod_list_pos (shape : list nat) :
  (0 < prod_list shape)%nat -> Forall (fun d => (0 < d)%nat) shape.
Proof.
  induction shape as [|d rest IH]; simpl; intros H; constructor.
  - destruct d; [simpl in H; lia | lia].
  - apply IH. destruct (prod_list rest); [lia | lia].
Qed.

(** X24: for a flat index [j] below the size of the shape, [pos2ind] undoes
    the row-major decomposition into a position, and every coordinate of
    that position is within its axis. *)
Theorem pos2ind_unravel (shape : list nat) (j : nat) :
  (j < prod_list shape)%nat ->
  pos2ind (unravel shape j) shape = j /\ Forall2 lt (unravel shape j) shape.
Proof.
  intros Hj. split.
  - rewrite pos2ind_unravel_mod. apply Nat.mod_small. exact Hj.
  - apply unravel_in_range, prod_list_pos. lia.
Qed.

Lemma pos2ind_unravel_witness :
  pos2ind (unravel [2%nat; 3%nat; 4%nat] 17) [2%nat; 3%nat; 4%nat] = 17%nat
  /\ Forall2 lt (unravel [2%nat; 3%nat; 4%nat] 17) [2%nat; 3%nat; 4%nat].
Proof. apply (pos2ind_unravel [2%nat; 3%nat; 4%nat] 17). simpl. lia. Defined.

Lemma pos2ind_bound (pos shape : list nat) :
  Forall2 lt pos shape -> (pos2ind pos shape < prod_list shape)%nat.
Proof.
  induction 1 as [|p d pos shape Hp _ IH]; simpl; [lia|]. nia.
Qed.

Lemma unravel_add_multiple (shape : list nat) (k r : nat) :
  unravel shape (k * prod_list shape + r) = unravel shape r.
Proof.
  revert k. induction shape as [|d rest IH]; intros k; simpl; [reflexivity|].
  f_equal.
  - destruct (Nat.eq_dec (prod_list rest) 0) as [H0|H0].
    + rewrite H0. simpl. reflexivity.
    + replace (k * (d * prod_list rest) + r)%nat
        with (k * d * prod_list rest + r)%nat by lia.
      rewrite Nat.div_add_l by exact H0.
      rewrite Nat.add_comm. rewrite Nat.Div0.mod_add. reflexivity.
  - replace (k * (d * prod_list rest) + r)%nat
      with (k * d * prod_list rest + r)%nat by lia.
    apply IH.
Qed.

Lemma unravel_pos2ind (pos shape : list nat) :
  Forall2 lt pos shape ->
  unravel shape (pos2ind pos shape) = pos
  /\ (pos2ind pos shape < prod_list shape)%nat.
Proof.
  intros H. split; [|apply pos2ind_bound; exact H].
  induction H as [|p d pos shape Hp Hrest IH]; simpl; [reflexivity|].
  pose proof (pos2ind_bound pos shape Hrest) as Hb.
  rewrite Nat.div_add_l by lia. rewrite (Nat.div_small _ _ Hb).
  rewrite Nat.add_0_r. rewrite Nat.mod_small by exact Hp. f_equal.
  rewrite unravel_add_multiple. exact IH.
Qed.

(** [pos2ind] stays below the size of the shape on positions within the
    shape, and tells any two of them apart. *)
Theorem pos2ind_injective (pos pos' shape : list nat) :
  Forall2 lt pos shape -> Forall2 lt pos' shape ->
  (pos2ind pos shape < prod_list shape)%nat
  /\ (pos2ind pos shape = pos2ind pos' shape -> pos = pos').
Proof.
  intros H H'. split; [apply pos2ind_bound; exact H|]. intros Heq.
  destruct (unravel_pos2ind pos shape H) as [<- _].
  destruct (unravel_pos2ind pos' shape H') as [<- _].
  rewrite Heq. reflexivity.
Qed.

Lemma pos2ind_injective_witness :
  (pos2ind [1%nat; 2%nat] [2%nat; 3%nat] < prod_list [2%nat; 3%nat])%nat
  /\ (pos2ind [1%nat; 2%nat] [2%nat; 3%nat] = pos2ind [0%nat; 1%nat] [2%nat; 3%nat]
      -> [1%nat; 2%nat] = [0%nat; 1%nat]).
Proof.
  apply (pos2ind_injective [1%nat; 2%nat] [0%nat; 1%nat] [2%nat; 3%nat]);
    repeat constructor.
Defined.


(** ** ProbDist: every returned edge passed the distance test *)

















(** ** ProbDist on one axis with [prob = 1]: the edges in closed form *)

Lemma grid_1d (n : nat) : grid [n] = map (fun k => [k]) (seq 0 n).
Proof.
  simpl. generalize 0%nat. induction n as [|n IH]; intros a; simpl; [reflexivity|].
  rewrite IH. reflexivity.
Qed.

Lemma sure_visit_1d (c : ProbDist.t) (i n m k : nat) (acc : list nat * list nat) :
  sure_visit c [i] [n] [m] acc [k]
  = if passes_1d c (i, k) then (fst acc ++ [i], snd acc ++ [k]) else acc.
Proof.
  unfold sure_visit, passes_1d. cbv zeta. cbn [fst snd].
  assert (Hm : ProbDist.manhattan [i] [k] = Z.abs (Z.of_nat i - Z.of_nat k)).
  { unfold ProbDist.manhattan. simpl. lia. }
  rewrite Hm.
  assert (Hz : (Z.abs (Z.of_nat i - Z.of_nat k) =? 0)%Z = (i =? k)%nat).
  { destruct (Nat.eqb_spec i k) as [->|Hne].
    - apply Z.eqb_eq. lia.
    - apply Z.eqb_neq. lia. }
  rewrite Hz. simpl. rewrite !Nat.add_0_r, !Nat.mul_1_r. reflexivity.
Qed.

Lemma sure_scan_1d (c : ProbDist.t) (i n m : nat) (ks : list nat)
    (acc : list nat * list nat) :
  length (fst acc) = length (snd acc) ->
  let r := foldl (sure_visit c [i] [n] [m]) acc (map (fun k => [k]) ks) in
  length (fst r) = length (snd r)
  /\ zip (fst r) (snd r)
     = zip (fst acc) (snd acc) ++ List.filter (passes_1d c) (map (pair i) ks).
Proof.
  revert acc. induction ks as [|k ks IH]; intros acc Hacc; simpl.
  - split; [exact Hacc | rewrite app_nil_r; reflexivity].
  - rewrite sure_visit_1d. destruct (passes_1d c (i, k)) eqn:Hp.
    + destruct (IH (fst acc ++ [i], snd acc ++ [k])) as [Hl Hz].
      { simpl. rewrite !length_app. simpl. lia. }
      split; [exact Hl|]. rewrite Hz. cbn [fst snd].
      rewrite (zip_with_app pair _ _ _ _ Hacc). simpl. rewrite <- app_assoc. reflexivity.
    + apply IH. exact Hacc.
Qed.

Lemma sure_connect_all_1d (c : ProbDist.t) (n m todo i : nat) :
  (i + todo <= n)%nat ->
  let r := sure_connect_all c [n] [m] todo i in
  length (fst r) = length (snd r)
  /\ zip (fst r) (snd r)
     = List.filter (passes_1d c) (list_prod (seq i todo) (seq 0 m)).
Proof.
  revert i. induction todo as [|todo IH]; intros i Hb.
  - split; reflexivity.
  - cbn [sure_connect_all seq list_prod]. cbv zeta. cbn [fst snd].
    destruct (IH (S i) ltac:(lia)) as [Hl Hz]. cbv zeta in Hl, Hz.
    assert (Hu : unravel [n] i = [i]).
    { change (unravel [n] i) with [((i / 1) mod n)%nat].
      rewrite Nat.div_1_r. rewrite Nat.mod_small by lia. reflexivity. }
    rewrite Hu. unfold sure_connect_1d. cbn [take]. rewrite grid_1d.
    destruct (sure_scan_1d c i n m (seq 0 m) ([], []) eq_refl) as [Hl1 Hz1].
    cbv zeta in Hl1, Hz1. simpl in Hz1.
    split.
    + rewrite !length_app. lia.
    + rewrite (zip_with_app pair _ _ _ _ Hl1).
      rewrite List.filter_app. f_equal; assumption.
Qed.

(** X26: with prob=1 and pre_ratio=1 no draw of the unit interval fails a
    test, and the build on one axis returns exactly the pairs (i, j), i
    below pre_len and j below post_len in row-major order, with |i - j| <=
    dist, without the pairs i = j when include_self=False. *)
Theorem ProbDist_1d_closed_form (E : Env) (c : ProbDist.t) (pre_len post_len : nat)
    (w : World) :
  ProbDist.prob c = 1%Q -> ProbDist.pre_ratio c = 1%Q -> Env_ok E -> World_ok w ->
  exists pres posts,
    value (ProbDist.build_conn E c [pre_len] [post_len] w) = Ok (pres, posts)
    /\ length pres = length posts
    /\ zip pres posts
       = List.filter (passes_1d c) (list_prod (seq 0 pre_len) (seq 0 post_len)).
Proof.
  intros Hp Hr HE Hw.
  rewrite (ProbDist_1d_sure E c pre_len post_len w Hp Hr HE Hw).
  destruct (sure_connect_all_1d c pre_len post_len pre_len 0 ltac:(lia)) as [Hl Hz].
  cbv zeta in Hl, Hz.
  replace (prod_list [pre_len]) with pre_len by (simpl; lia).
  destruct (sure_connect_all c [pre_len] [post_len] pre_len 0) as [pres posts].
  exists pres, posts. split; [reflexivity|]. split; assumption.
Qed.

Lemma ProbDist_1d_closed_form_witness :
  exists pres posts,
    value (ProbDist.build_conn (sample_env false) (ProbDist.mk 1 1 1 0 false)
             [3%nat] [4%nat]
             (fresh (sample_env false) 0 (constant_rng 0) (constant_rng 0)))
    = Ok (pres, posts)
    /\ length pres = length posts
    /\ zip pres posts
       = List.filter (passes_1d (ProbDist.mk 1 1 1 0 false))
                     (list_prod (seq 0 3) (seq 0 4)).
Proof.
  apply (ProbDist_1d_closed_form (sample_env false) (ProbDist.mk 1 1 1 0 false) 3 4
           (fresh (sample_env false) 0 (constant_rng 0) (constant_rng 0))).
  - reflexivity.
  - reflexivity.
  - apply sample_env_ok.
  - repeat split; simpl; try apply sample_stream_unit; try apply Qle_refl; reflexivity.
Defined.

(** ** ProbDist: shapes it refuses, and nothing to connect *)

(** X27: [ProbDist.build_conn] raises ValueError when the two shapes have
    different numbers of axes, before any draw, and NotImplementedError when
    they agree on no axis at all or on more than four. *)
Theorem ProbDist_build_conn_rejects (E : Env) (c : ProbDist.t)
    (pre_size post_size : list nat) (w : World) :
  length pre_size <> length post_size
  \/ length pre_size = 0%nat \/ (4 < length pre_size)%nat ->
  value (ProbDist.build_conn E c pre_size post_size w)
  = Raise (if decide (length pre_size = length post_size)
           then NotImplementedError else ValueError).
Proof.
  intros H. unfold ProbDist.build_conn.
  destruct (decide (length pre_size = length post_size)) as [Heq|Hne]; [|reflexivity].
  destruct H as [H|H]; [contradiction|].
  destruct (reseed_total E w) as (w1 & H1).
  rewrite (bind_ok _ _ _ _ _ H1). cbv zeta.
  destruct (length pre_size) as [|[|[|[|[|n]]]]]; try reflexivity; lia.
Qed.

Lemma ProbDist_build_conn_rejects_witness :
  value (ProbDist.build_conn (sample_env true) (ProbDist.mk 1 1 1 0 true)
           [2%nat; 2%nat] [4%nat]
           (fresh (sample_env true) 0 (constant_rng 0) (constant_rng 0)))
  = Raise ValueError.
Proof.
  apply (ProbDist_build_conn_rejects (sample_env true) (ProbDist.mk 1 1 1 0 true)
           [2%nat; 2%nat] [4%nat]).
  left. simpl. lia.
Defined.

Lemma scan_keeps (step : list nat -> list nat * list nat -> M (list nat * list nat))
    (posts : list (list nat)) (acc : list nat * list nat) (w : World) :
  (forall p a w0, World_ok w0 -> exists w', step p a w0 = Ok (a, w') /\ World_ok w') ->
  World_ok w ->
  exists w', ProbDist.scan step posts acc w = Ok (acc, w') /\ World_ok w'.
Proof.
  intros Hstep. revert w. induction posts as [|p rest IH]; intros w Hw; simpl.
  - exists w. split; [reflexivity | exact Hw].
  - destruct (Hstep p acc w Hw) as (w1 & H1 & Hw1).
    rewrite (bind_ok _ _ _ _ _ H1). apply IH. exact Hw1.
Qed.

Lemma visit_keeps (c : ProbDist.t) (h : handle) (within zero : bool)
    (pre_pos post_pos pre_size post_size : list nat) (acc : list nat * list nat)
    (w : World) :
  (ProbDist.prob c < 0)%Q -> World_ok w ->
  exists w',
    ProbDist.visit c h within zero pre_pos post_pos pre_size post_size acc w
    = Ok (acc, w') /\ World_ok w'.
Proof.
  intros Hp Hw. unfold ProbDist.visit.
  destruct within; [|exists w; split; [reflexivity | exact Hw]].
  destruct (zero && negb (ProbDist.include_self c));
    [exists w; split; [reflexivity | exact Hw]|].
  destruct (draw_ok h w Hw) as (u & w' & Hd & Hw' & Hu0 & _).
  rewrite (bind_ok _ _ _ _ _ Hd).
  destruct (Qle_bool u (ProbDist.prob c)) eqn:Hle.
  - apply Qle_bool_iff in Hle. exfalso.
    apply (Qlt_irrefl 0). eapply Qle_lt_trans; [exact Hu0|].
    eapply Qle_lt_trans; [exact Hle | exact Hp].
  - exists w'. split; [reflexivity | exact Hw'].
Qed.

Lemma connect_none (E : Env) (c : ProbDist.t)
    (step : list nat -> list nat * list nat -> M (list nat * list nat))
    (posts : list (list nat)) (w : World) :
  (ProbDist.pre_ratio c <= 0)%Q
  \/ (forall p a w0, World_ok w0 -> exists w', step p a w0 = Ok (a, w') /\ World_ok w') ->
  World_ok w ->
  exists w',
    (let* u := with_rng (closure_rng E) random in
     if Qlt_bool u (ProbDist.pre_ratio c)
     then ProbDist.scan step posts ([], [])
     else ret ([], [])) w = Ok (([], []), w') /\ World_ok w'.
Proof.
  intros H Hw.
  destruct (draw_ok (closure_rng E) w Hw) as (u & w1 & Hd & Hw1 & Hu0 & _).
  rewrite (bind_ok _ _ _ _ _ Hd).
  destruct (Qlt_bool u (ProbDist.pre_ratio c)) eqn:Hlt;
    [|exists w1; split; [reflexivity | exact Hw1]].
  destruct H as [Hr|Hs].
  - exfalso. unfold Qlt_bool in Hlt. apply negb_true_iff in Hlt.
    assert (Hle : Qle_bool (ProbDist.pre_ratio c) u = true).
    { apply Qle_bool_iff. eapply Qle_trans; [exact Hr | exact Hu0]. }
    rewrite Hle in Hlt. discriminate.
  - apply scan_keeps; assumption.
Qed.

Lemma connect_all_none (f : list nat -> M (list nat * list nat)) (pre_size : list nat)
    (todo i : nat) (w : World) :
  (forall p w0, World_ok w0 -> exists w', f p w0 = Ok (([], []), w') /\ World_ok w') ->
  World_ok w ->
  exists w', ProbDist.connect_all f pre_size todo i w = Ok (([], []), w') /\ World_ok w'.
Proof.
  intros Hf. revert i w. induction todo as [|todo IH]; intros i w Hw; simpl.
  - exists w. split; [reflexivity | exact Hw].
  - destruct (Hf (unravel pre_size i) w Hw) as (w1 & H1 & Hw1).
    rewrite (bind_ok _ _ _ _ _ H1).
    destruct (IH (S i) w1 Hw1) as (w2 & H2 & Hw2).
    rewrite (bind_ok _ _ _ _ _ H2). exists w2. split; [reflexivity | exact Hw2].
Qed.

(** X28: with pre_ratio <= 0 no pre neuron takes part, and with prob < 0 no
    per-edge draw passes: on shapes of one to four axes the build returns
    two empty index arrays, for every generator drawing from [0, 1). *)
Theorem ProbDist_no_edges (E : Env) (c : ProbDist.t)
    (pre_size post_size : list nat) (w : World) :
  Env_ok E -> World_ok w ->
  length pre_size = length post_size -> (1 <= length pre_size <= 4)%nat ->
  (ProbDist.pre_ratio c <= 0)%Q \/ (ProbDist.prob c < 0)%Q ->
  value (ProbDist.build_conn E c pre_size post_size w) = Ok ([], []).
Proof.
  intros HE Hw Hlen Hdim Hc. unfold ProbDist.build_conn.
  destruct (decide (length pre_size = length post_size)) as [_|Hne]; [|contradiction].
  destruct (reseed_ok E w HE Hw) as (w1 & H1 & Hw1).
  rewrite (bind_ok _ _ _ _ _ H1). cbv zeta.
  assert (H1d : forall nd p w0, World_ok w0 ->
            exists w', ProbDist._connect_1d E c p pre_size post_size nd w0
                       = Ok (([], []), w') /\ World_ok w').
  { intros nd p w0 Hw0. unfold ProbDist._connect_1d. cbv zeta.
    apply connect_none; [|exact Hw0].
    destruct Hc as [Hr|Hp]; [left; exact Hr | right].
    intros q a w2 Hw2. apply visit_keeps; assumption. }
  assert (Hnd : forall k nd p w0, World_ok w0 ->
            exists w', ProbDist._connect_nd k E c p pre_size post_size nd w0
                       = Ok (([], []), w') /\ World_ok w').
  { intros k nd p w0 Hw0. unfold ProbDist._connect_nd. cbv zeta.
    apply connect_none; [|exact Hw0].
    destruct Hc as [Hr|Hp]; [left; exact Hr | right].
    intros q a w2 Hw2. apply visit_keeps; assumption. }
  destruct (length pre_size) as [|[|[|[|[|n]]]]]; try lia.
  - destruct (connect_all_none
                (fun pre_pos => ProbDist._connect_1d E c pre_pos pre_size post_size 1)
                pre_size (prod_list pre_size) 0 w1 (H1d 1%nat) Hw1)
      as (w2 & H2 & _).
    rewrite H2. reflexivity.
  - destruct (connect_all_none
                (fun pre_pos => ProbDist._connect_nd 2 E c pre_pos pre_size post_size 2)
                pre_size (prod_list pre_size) 0 w1 (Hnd 2%nat 2%nat) Hw1)
      as (w2 & H2 & _).
    rewrite H2. reflexivity.
  - destruct (connect_all_none
                (fun pre_pos => ProbDist._connect_nd 3 E c pre_pos pre_size post_size 3)
                pre_size (prod_list pre_size) 0 w1 (Hnd 3%nat 3%nat) Hw1)
      as (w2 & H2 & _).
    rewrite H2. reflexivity.
  - destruct (connect_all_none
                (fun pre_pos => ProbDist._connect_nd 4 E c pre_pos pre_size post_size 4)
                pre_size (prod_list pre_size) 0 w1 (Hnd 4%nat 4%nat) Hw1)
      as (w2 & H2 & _).
    rewrite H2. reflexivity.
Qed.

Lemma ProbDist_no_edges_witness :
  value (ProbDist.build_conn (sample_env false) (ProbDist.mk 2 1 0 0 true)
           [2%nat; 3%nat] [3%nat; 2%nat]
           (fresh (sample_env false) 0 (constant_rng 0) (constant_rng 0)))
  = Ok ([], []).
Proof.
  apply (ProbDist_no_edges (sample_env false) (ProbDist.mk 2 1 0 0 true)
           [2%nat; 3%nat] [3%nat; 2%nat]
           (fresh (sample_env false) 0 (constant_rng 0) (constant_rng 0))).
  - apply sample_env_ok.
  - repeat split; simpl; try apply sample_stream_unit; try apply Qle_refl; reflexivity.
  - reflexivity.
  - simpl. lia.
  - left. simpl. apply Qle_refl.
Defined.

Lemma ProbDist_first_build_seeded_witness :
  value (ProbDist.build_conn (sample_env false) (ProbDist.mk 1 (1 # 2) 1 0 true)
           [3%nat] [3%nat] (fresh (sample_env false) 0 (constant_rng 0) (constant_rng 0)))
  = value (ProbDist.build_conn (sample_env false) (ProbDist.mk 1 (1 # 2) 1 0 true)
           [3%nat] [3%nat]
           (fresh (sample_env false) 0 (constant_rng (1 # 2)) (constant_rng (1 # 3)))).
Proof.
  apply (ProbDist_first_build_seeded (sample_env false) (ProbDist.mk 1 (1 # 2) 1 0 true)
           [3%nat] [3%nat] 0).
  right. reflexivity.
Defined.


(** ** ScaleFreeBADual *)

Lemma pick_m_cases (c : ScaleFreeBADual.t) (w : World) :
  exists m w', ScaleFreeBADual.pick_m c w = Ok (m, w')
    /\ (m = Z.to_nat (ScaleFreeBADual.m1 c) \/ m = Z.to_nat (ScaleFreeBADual.m2 c)).
Proof.
  unfold ScaleFreeBADual.pick_m, bind, with_rng, ret. simpl.
  destruct (Qlt_bool _ _); eexists _, _; split; try reflexivity; auto.
Qed.

Lemma dual_grow_out_degree (fuel todo : nat) (E : Env) (c : ScaleFreeBADual.t)
    (lo m source : nat) (targets repeated_nodes : list nat) (conn conn' : mat)
    (w w' : World) :
  ScaleFreeBADual.grow fuel todo E c m source targets repeated_nodes conn w
  = Ok (conn', w') ->
  (lo <= Z.to_nat (ScaleFreeBADual.m1 c))%nat ->
  (lo <= Z.to_nat (ScaleFreeBADual.m2 c))%nat ->
  (lo <= m)%nat -> length targets = m -> NoDup targets ->
  mat_le conn conn'
  /\ forall s, (source <= s < source + todo)%nat -> (lo <= out_degree conn' s)%nat.
Proof.
  intros H Hlo1 Hlo2. revert m source targets repeated_nodes conn w H.
  induction todo as [|todo IH]; intros m source targets rep conn w H Hm Hlen Hnd;
    simpl in H.
  - inversion H; subst. split; [apply mat_le_refl | intros s Hs; lia].
  - rewrite bind_lift_eq in H.
    destruct (fancy_set (replicate m source) targets true conn) as [conn1| |] eqn:H1;
      try discriminate.
    assert (Hc2 : exists conn2 w1, mat_le conn1 conn2 /\
              (let* m' := ScaleFreeBADual.pick_m c in
               let* chosen := ScaleFreeBA._random_subset fuel (closure_rng E)
                                (rep ++ targets ++ replicate m source) m' ∅ in
               ScaleFreeBADual.grow fuel todo E c m' (S source) (elements chosen)
                 (rep ++ targets ++ replicate m source) conn2) w1 = Ok (conn', w')).
    { destruct (ScaleFreeBADual.directed c).
      - exists conn1, w. split; [apply mat_le_refl | exact H].
      - rewrite bind_lift_eq in H.
        destruct (fancy_set targets (replicate m source) true conn1) as [conn2| |] eqn:H2;
          try discriminate.
        exists conn2, w. split; [eapply fancy_set_mono; exact H2 | exact H]. }
    destruct Hc2 as (conn2 & w1 & Hle2 & Hrest).
    destruct (pick_m_cases c w1) as (m' & w2 & Hpick & Hm').
    rewrite (bind_ok _ _ _ _ _ Hpick) in Hrest. unfold bind at 1 in Hrest.
    destruct (ScaleFreeBA._random_subset fuel (closure_rng E) _ m' ∅ w2)
      as [[chosen w3]| |] eqn:Hsub; try discriminate.
    apply random_subset_exact in Hsub as [Hsize _]; [|rewrite size_empty; lia].
    apply IH in Hrest as [Hle3 Hdeg];
      [| destruct Hm' as [->| ->]; assumption | exact Hsize | apply NoDup_elements].
    pose proof (fancy_set_mono _ _ _ _ H1) as Hle1.
    split.
    + eapply mat_le_trans; [exact Hle1|]. eapply mat_le_trans; eassumption.
    + intros s Hs. destruct (decide (s = source)) as [->|Hne].
      * etransitivity; [exact Hm|]. rewrite <- Hlen.
        etransitivity; [apply (out_degree_at_least conn1 source targets Hnd)|].
        -- eapply fancy_set_row; [exact Hlen | exact H1].
        -- apply out_degree_mono. eapply mat_le_trans; eassumption.
      * apply Hdeg. lia.
Qed.

(** What [build_conn] runs once its checks passed *)
Lemma ScaleFreeBADual_build_conn_inv fuel E c pre_num post_num wd conn :
  value (ScaleFreeBADual.build_conn fuel E c pre_num post_num wd) = Ok conn ->
  (1 <= ScaleFreeBADual.m1 c < Z.of_nat pre_num)%Z
  /\ (1 <= ScaleFreeBADual.m2 c < Z.of_nat pre_num)%Z
  /\ exists m w1 w2,
       (m = Z.to_nat (ScaleFreeBADual.m1 c) \/ m = Z.to_nat (ScaleFreeBADual.m2 c))
       /\ ScaleFreeBADual.grow fuel
            (pre_num - Z.to_nat (Z.max (ScaleFreeBADual.m1 c) (ScaleFreeBADual.m2 c)))
            E c m (Z.to_nat (Z.max (ScaleFreeBADual.m1 c) (ScaleFreeBADual.m2 c)))
            (seq 0 m) [] (full pre_num pre_num false) w1
          = Ok (conn, w2).
Proof.
  unfold ScaleFreeBADual.build_conn.
  destruct (decide (pre_num = post_num)); [|discriminate].
  destruct (reseed_total E wd) as [w1 H1]. rewrite (bind_ok _ _ _ _ _ H1). cbv zeta.
  destruct (ScaleFreeBADual.m1 c <? 1)%Z eqn:Hlo1; [discriminate|].
  destruct (Z.of_nat pre_num <=? ScaleFreeBADual.m1 c)%Z eqn:Hhi1; [discriminate|].
  destruct (ScaleFreeBADual.m2 c <? 1)%Z eqn:Hlo2; [discriminate|].
  destruct (Z.of_nat pre_num <=? ScaleFreeBADual.m2 c)%Z eqn:Hhi2; [discriminate|].
  apply Z.ltb_ge in Hlo1, Hlo2. apply Z.leb_gt in Hhi1, Hhi2. cbn [orb].
  destruct (Qlt_bool (ScaleFreeBADual.p c) 0 || Qlt_bool 1 (ScaleFreeBADual.p c));
    [discriminate|].
  destruct (pick_m_cases c w1) as (m & w2 & Hpick & Hm).
  rewrite (bind_ok _ _ _ _ _ Hpick).
  destruct (ScaleFreeBADual.grow _ _ _ _ _ _ _ _ _ w2) as [[conn' w3]| |] eqn:Hg;
    try discriminate.
  simpl. intros H; inversion H; subst.
  split; [lia|]. split; [lia|]. eauto 6.
Qed.

(** X29: in the matrix a ScaleFreeBADual build returns, every node added by
    the growth loop (index max(m1, m2) and above) has out-degree at least
    min(m1, m2): whichever of the two counts was drawn for it, that many
    distinct targets were written in its row. *)
Theorem ScaleFreeBADual_out_degree (fuel : nat) (E : Env) (c : ScaleFreeBADual.t)
    (pre_num post_num : nat) (wd : World) (conn : mat) (node : nat) :
  value (ScaleFreeBADual.build_conn fuel E c pre_num post_num wd) = Ok conn ->
  (Z.to_nat (Z.max (ScaleFreeBADual.m1 c) (ScaleFreeBADual.m2 c)) <= node < pre_num)%nat ->
  (Z.to_nat (Z.min (ScaleFreeBADual.m1 c) (ScaleFreeBADual.m2 c))
   <= out_degree conn node)%nat.
Proof.
  intros H Hnode.
  apply ScaleFreeBADual_build_conn_inv in H as (H1 & H2 & m & w1 & w2 & Hm & Hg).
  eapply dual_grow_out_degree in Hg as [_ Hdeg];
    [apply Hdeg; lia | lia | lia | destruct Hm; lia | apply length_seq | apply NoDup_seq].
Qed.

Lemma ScaleFreeBADual_out_degree_witness :
  (Z.to_nat (Z.min 1 2) <= out_degree sample_dual_graph 5)%nat.
Proof.
  apply (ScaleFreeBADual_out_degree 40 (sample_env false)
           (ScaleFreeBADual.mk 1 2 (1 # 2) true 1) 8 8
           (fresh (sample_env false) 1 (constant_rng 0) (constant_rng 0))).
  - vm_compute. reflexivity.
  - simpl. lia.
Defined.

Lemma bind_never {A B} (c : M A) (k : A -> M B) (w : World) :
  (forall a w', c w = Ok (a, w') -> forall r, k a w' <> Ok r) ->
  forall r, bind c k w <> Ok r.
Proof.
  intros H r. unfold bind. destruct (c w) as [[a w']| |]; [|discriminate|discriminate].
  apply (H a w' eq_refl).
Qed.

Lemma lift_same_world {A} (o : outcome A) (w w' : World) (a : A) :
  lift o w = Ok (a, w') -> w' = w.
Proof. unfold lift. destruct o; intros H; inversion H; reflexivity. Qed.

Lemma size_list_to_set_le (l : list nat) :
  (size (list_to_set l : gset nat) <= length l)%nat.
Proof.
  induction l as [|x l IH].
  - change (size (∅ : gset nat) <= 0)%nat. rewrite size_empty. lia.
  - change (size ({[x]} ∪ (list_to_set l : gset nat)) <= S (length l))%nat.
    pose proof (size_add_le x (list_to_set l)). lia.
Qed.

Lemma first_candidates_few (k source : nat) :
  (size (list_to_set ([] ++ seq 0 k ++ replicate k source) : gset nat) <= S k)%nat.
Proof.
  assert (Hsub : (list_to_set ([] ++ seq 0 k ++ replicate k source) : gset nat)
                 ⊆ {[source]} ∪ list_to_set (seq 0 k)).
  { intros x. rewrite elem_of_list_to_set, elem_of_union, elem_of_singleton,
      elem_of_list_to_set. simpl. rewrite elem_of_app.
    intros [Hx|Hx]; [right; exact Hx | left].
    apply elem_of_replicate in Hx. tauto. }
  apply subseteq_size in Hsub.
  pose proof (size_add_le source (list_to_set (seq 0 k))) as H1.
  pose proof (size_list_to_set_le (seq 0 k)) as H2. rewrite length_seq in H2. lia.
Qed.

Lemma reseed_self_rng (E : Env) (w : World) :
  exists w1, reseed E w = Ok (tt, w1)
    /\ self_rng w1 = mkRandomState (src (self_rng w)) (S (pos (self_rng w))).
Proof.
  unfold reseed, bind, with_rng, numba_seed, randint. simpl.
  destruct (SUPPORT_NUMBA E); eexists; split; reflexivity.
Qed.

Lemma pick_m_draw (c : ScaleFreeBADual.t) (w : World) :
  exists w1,
    ScaleFreeBADual.pick_m c w
    = Ok (if Qlt_bool (src (self_rng w) (pos (self_rng w))) (ScaleFreeBADual.p c)
          then Z.to_nat (ScaleFreeBADual.m1 c) else Z.to_nat (ScaleFreeBADual.m2 c), w1)
    /\ self_rng w1 = mkRandomState (src (self_rng w)) (S (pos (self_rng w))).
Proof.
  unfold ScaleFreeBADual.pick_m, bind, with_rng, ret. simpl.
  eexists. split; reflexivity.
Qed.

(** X30: ScaleFreeBADual can loop forever.  When m1 + 1 < m2 and the draws
    pick m1 for the first node and m2 for the second, the candidates after
    the first step are the m1 initial targets and the first node, fewer than
    the m2 distinct values [_random_subset] then waits for: whatever the
    fuel, the build returns no matrix. *)
Theorem ScaleFreeBADual_stalls (fuel : nat) (E : Env) (c : ScaleFreeBADual.t)
    (num_node : nat) (w : World) :
  (1 <= ScaleFreeBADual.m1 c)%Z ->
  (ScaleFreeBADual.m1 c + 1 < ScaleFreeBADual.m2 c)%Z ->
  (ScaleFreeBADual.m2 c < Z.of_nat num_node)%Z ->
  Qlt_bool (src (self_rng w) (S (pos (self_rng w)))) (ScaleFreeBADual.p c) = true ->
  Qlt_bool (src (self_rng w) (S (S (pos (self_rng w))))) (ScaleFreeBADual.p c) = false ->
  forall r, ScaleFreeBADual.build_conn fuel E c num_node num_node w <> Ok r.
Proof.
  intros Hm1 Hm12 Hm2 Hu0 Hu1. unfold ScaleFreeBADual.build_conn.
  destruct (decide (num_node = num_node)) as [_|Hne]; [|contradiction].
  destruct (reseed_self_rng E w) as (w1 & H1 & Hs1).
  intros r. rewrite (bind_ok _ _ _ _ _ H1). revert r. cbv zeta.
  destruct (_ || _); [discriminate|].
  destruct (_ || _); [discriminate|].
  destruct (_ || _); [discriminate|].
  destruct (pick_m_draw c w1) as (w2 & Hp1 & Hs2).
  rewrite Hs1 in Hp1, Hs2. cbn [src pos] in Hp1, Hs2. rewrite Hu0 in Hp1.
  intros r. rewrite (bind_ok _ _ _ _ _ Hp1). revert r.
  replace (Z.to_nat (Z.max (ScaleFreeBADual.m1 c) (ScaleFreeBADual.m2 c)))
    with (Z.to_nat (ScaleFreeBADual.m2 c)) by lia.
  destruct (num_node - Z.to_nat (ScaleFreeBADual.m2 c))%nat as [|todo] eqn:Htodo; [lia|].
  cbn [ScaleFreeBADual.grow]. cbv zeta.
  apply bind_never. intros conn1 w3 Hc1.
  apply lift_same_world in Hc1. subst w3.
  apply bind_never. intros conn2 w4 Hc2.
  assert (w4 = w2) as ->.
  { destruct (ScaleFreeBADual.directed c).
    - inversion Hc2; reflexivity.
    - apply lift_same_world in Hc2. exact Hc2. }
  destruct (pick_m_draw c w2) as (w5 & Hp2 & _).
  rewrite Hs2 in Hp2. cbn [src pos] in Hp2. rewrite Hu1 in Hp2.
  intros r. rewrite (bind_ok _ _ _ _ _ Hp2). revert r.
  apply bind_never. intros chosen w6 Hsub. exfalso.
  revert Hsub. apply random_subset_stuck.
  rewrite (left_id_L ∅ (∪)).
  pose proof (first_candidates_few (Z.to_nat (ScaleFreeBADual.m1 c))
                (Z.to_nat (ScaleFreeBADual.m2 c))). lia.
Qed.

Lemma ScaleFreeBADual_stalls_witness :
  ScaleFreeBADual.build_conn 50 (sample_env false)
    (ScaleFreeBADual.mk 1 3 (1 # 2) false 6) 10 10
    (fresh (sample_env false) 6 (constant_rng 0) (constant_rng 0))
  <> Ok ([], fresh (sample_env false) 6 (constant_rng 0) (constant_rng 0)).
Proof.
  apply (ScaleFreeBADual_stalls 50 (sample_env false)
           (ScaleFreeBADual.mk 1 3 (1 # 2) false 6) 10
           (fresh (sample_env false) 6 (constant_rng 0) (constant_rng 0))).
  - simpl. lia.
  - simpl. lia.
  - simpl. lia.
  - vm_compute. reflexivity.
  - vm_compute. reflexivity.
Defined.

(** ** GaussianProb: the position behind a row and behind a column *)

(** X22: for populations of one or two axes, row [i] and column [i] of the
    probability matrix stand for the same grid position: the [divmod] chain
    that places node [i] and the flattened [np.meshgrid] that places column
    [i] agree. *)
Theorem GaussianProb_row_column_same_position (pre_size : list nat) (i : nat) :
  (1 <= length pre_size <= 2)%nat -> (i < prod_list pre_size)%nat ->
  GaussianProb.i_coordinate pre_size i = GaussianProb.post_coordinate pre_size i.
Proof.
  intros Hlen Hi. destruct pre_size as [|a [|b [|c rest]]]; simpl in Hlen; try lia.
  - unfold GaussianProb.post_coordinate, GaussianProb.xy.
    change (unravel [a] i) with [((i / 1) mod a)%nat].
    change (prod_list [a]) with (a * 1)%nat in Hi.
    rewrite Nat.div_1_r, Nat.mod_small by lia. reflexivity.
  - unfold GaussianProb.post_coordinate, GaussianProb.xy.
    change (unravel [b; a] i) with [((i / (a * 1)) mod b)%nat; ((i / 1) mod a)%nat].
    change (prod_list [a; b]) with (a * (b * 1))%nat in Hi.
    change (GaussianProb.i_coordinate [a; b] i) with [(i mod a)%nat; (i / a)%nat].
    rewrite Nat.div_1_r, Nat.mul_1_r.
    assert (Hq : (i / a < b)%nat).
    { apply Nat.Div0.div_lt_upper_bound. lia. }
    rewrite (Nat.mod_small (i / a)) by exact Hq. reflexivity.
Qed.

Lemma GaussianProb_row_column_same_position_witness :
  GaussianProb.i_coordinate [3%nat; 4%nat] 7 = GaussianProb.post_coordinate [3%nat; 4%nat] 7.
Proof.
  apply (GaussianProb_row_column_same_position [3%nat; 4%nat] 7); simpl; lia.
Defined.

(** X23: from three axes on they part.  In a population of shape (a, b, c)
    with a and c at least 2, row 1 is the node at position (1, 0, 0) while
    column 1 is the node at position (0, 0, 1): the diagonal of the matrix
    does not pair a node with itself. *)
Theorem GaussianProb_row_column_differ_3d (a b c : nat) :
  (2 <= a)%nat -> (1 <= b)%nat -> (2 <= c)%nat ->
  GaussianProb.i_coordinate [a; b; c] 1 = [1%nat; 0%nat; 0%nat]
  /\ GaussianProb.post_coordinate [a; b; c] 1 = [0%nat; 0%nat; 1%nat].
Proof.
  intros Ha Hb Hc. split.
  - change (GaussianProb.i_coordinate [a; b; c] 1)
      with [(1 mod a)%nat; ((1 / a) mod b)%nat; (1 / a / b)%nat].
    rewrite (Nat.mod_small 1 a) by lia. rewrite (Nat.div_small 1 a) by lia.
    rewrite Nat.Div0.mod_0_l, Nat.Div0.div_0_l. reflexivity.
  - unfold GaussianProb.post_coordinate, GaussianProb.xy.
    change (unravel [b; a; c] 1)
      with [((1 / (a * (c * 1))) mod b)%nat; ((1 / (c * 1)) mod a)%nat;
            ((1 / 1) mod c)%nat].
    rewrite Nat.mul_1_r, Nat.div_1_r.
    rewrite (Nat.div_small 1 (a * c)) by nia. rewrite (Nat.div_small 1 c) by lia.
    rewrite !Nat.Div0.mod_0_l. rewrite (Nat.mod_small 1 c) by lia. reflexivity.
Qed.

Lemma GaussianProb_row_column_differ_3d_witness :
  GaussianProb.i_coordinate [2%nat; 2%nat; 2%nat] 1 = [1%nat; 0%nat; 0%nat]
  /\ GaussianProb.post_coordinate [2%nat; 2%nat; 2%nat] 1 = [0%nat; 0%nat; 1%nat].
Proof.
  apply (GaussianProb_row_column_differ_3d 2 2 2); lia.
Defined.
